(** * jj-enterprises-web: the security helpers, the checkout page, the box
      configurator and the 3D box builder, embedded and verified

    Part I embeds the TypeScript sources as Rocq definitions:
    - [JS]: the values the code computes with.  A JavaScript string is a
      sequence of UTF-16 code units, a JavaScript number is an IEEE-754
      binary64 value (Rocq's primitive [float]), and the handful of
      ECMAScript built-ins the sources call are defined next to them.
    - [Regex]: regular expressions with a derivative matcher, for the
      anchored [RegExp.prototype.test] calls of the checkout form.
    - [Security]: lib/security.ts.
    - [Checkout]: app/checkout/page.tsx.
    - [Configurator]: app/configurator/page.tsx.
    - [Box3D]: components/enhanced-3d-configurator.tsx.
    - [Validators], [Login], [Session]: the validators, the login-attempt
      counter and the string hash of lib/security.ts.
    - [Config]: the bulk discount of lib/enterprise-config.ts.
    - [CheckoutPage]: the controls of app/checkout/page.tsx and their
      handlers.

    Part II states and proves the properties; Part III adds further
    properties of the same code. *)

From Stdlib Require Import ZArith NArith List Bool Lia Floats Uint63.
From Stdlib Require Import Strings.String Strings.Ascii.
From stdpp Require Import gmap strings list pretty.

Set Default Proof Using "Type".
Set Warnings "-inexact-float".

(* ===================================================================== *)
(** * Part I: the embedding *)
(* ===================================================================== *)

(** ** JavaScript values *)

Module JS.
Local Open Scope N_scope.

(** A UTF-16 code unit. *)
Abbreviation char16 := N.

(** A JavaScript string: its code units, in order.  [length] is the
    [.length] property. *)
Abbreviation jsstring := (list N).

(** An ASCII literal of the source as a JavaScript string. *)
Definition lit (s : string) : jsstring :=
  map N_of_ascii (list_ascii_of_string s).

(** Code units the sources name. *)
Definition c_tab : char16 := 9.
Definition c_space : char16 := 32.
Definition c_dquote : char16 := 34.   (* the double quote *)
Definition c_percent : char16 := 37.
Definition c_amp : char16 := 38.      (* & *)
Definition c_squote : char16 := 39.   (* the single quote *)
Definition c_plus : char16 := 43.
Definition c_minus : char16 := 45.
Definition c_dot : char16 := 46.
Definition c_slash : char16 := 47.
Definition c_lt : char16 := 60.
Definition c_gt : char16 := 62.
Definition c_at : char16 := 64.

Definition in_range (lo hi c : char16) : bool := (lo <=? c) && (c <=? hi).

(** [[0-9]], which is also what [\d] means in a JavaScript pattern. *)
Definition is_digit (c : char16) : bool := in_range 48 57 c.
(** [[1-9]] *)
Definition is_digit19 (c : char16) : bool := in_range 49 57 c.
(** [[A-Z]] *)
Definition is_upper (c : char16) : bool := in_range 65 90 c.
(** [[a-z]] *)
Definition is_lower (c : char16) : bool := in_range 97 122 c.

(** [\s]: ECMAScript WhiteSpace and LineTerminator code units. *)
Definition is_space (c : char16) : bool :=
  in_range 9 13 c || (c =? 32)%N || (c =? 160)%N || (c =? 5760)%N
  || in_range 8192 8202 c || (c =? 8232)%N || (c =? 8233)%N
  || (c =? 8239)%N || (c =? 8287)%N || (c =? 12288)%N || (c =? 65279)%N.

(** Membership of a code unit in a character class given by its members. *)
Definition in_class (members : jsstring) (c : char16) : bool :=
  existsb (N.eqb c) members.

(** [/[cls]/.test(s)] for an unanchored one-character class pattern: some
    code unit of [s] is in the class. *)
Definition test_class (cls : char16 -> bool) (s : jsstring) : bool :=
  existsb cls s.

(** [s.replace(/[cls]/g, fn)] for a one-character class pattern with the
    global flag and a replacer function: left to right, every code unit in
    the class is replaced by the replacer's result, every other one is
    copied. *)
Fixpoint replace_class_g (cls : char16 -> bool) (fn : char16 -> jsstring)
    (s : jsstring) : jsstring :=
  match s with
  | [] => []
  | c :: rest =>
      (if cls c then fn c else [c]) ++ replace_class_g cls fn rest
  end.

(** Property lookup in an object literal whose keys are one-character
    strings: [obj[char]]. *)
Fixpoint get_prop (obj : list (char16 * jsstring)) (key : char16)
    : option jsstring :=
  match obj with
  | [] => None
  | (k, v) :: rest => if (k =? key)%N then Some v else get_prop rest key
  end.

(** [!value] for a string: only the empty string is falsy. *)
Definition falsy (s : jsstring) : bool :=
  match s with [] => true | _ => false end.

(** [a || b] where [a] is a string or [undefined]: the empty string and
    [undefined] are falsy. *)
Definition or_else (a : option jsstring) (b : jsstring) : jsstring :=
  match a with
  | Some (c :: s) => c :: s
  | _ => b
  end.

(** *** Numbers *)

(** The Number value of a mathematical integer (exact below [2^53]). *)
Definition of_Z (n : Z) : float :=
  if (n <? 0)%Z then (- PrimFloat.of_uint63 (Uint63.of_Z (- n)))%float
  else PrimFloat.of_uint63 (Uint63.of_Z n).

(** The signed mantissa of a finite value [(-1)^s * m * 2^e]. *)
Definition signed (s : bool) (m : positive) : Z :=
  if s then Z.neg m else Z.pos m.

(** [Math.floor]: NaN, the infinities, the zeros and integral values are
    returned as they are; a value with a fractional part is rounded towards
    minus infinity (it is below [2^53] in magnitude, so the result is
    exact). *)
Definition Math_floor (x : float) : float :=
  match Prim2SF x with
  | S754_finite s m e =>
      if (0 <=? e)%Z then x else of_Z (signed s m / 2 ^ (- e))%Z
  | _ => x
  end.

(** [Math.round]: the closest integral value, a tie going towards plus
    infinity; a negative value that rounds to zero gives [-0]. *)
Definition Math_round (x : float) : float :=
  match Prim2SF x with
  | S754_finite s m e =>
      if (0 <=? e)%Z then x
      else
        let n := ((signed s m + 2 ^ (- e - 1)) / 2 ^ (- e))%Z in
        if (n =? 0)%Z && s then (-0)%float else of_Z n
  | _ => x
  end.

(** The mathematical integer a Number holds, when it is finite and
    integral. *)
Definition to_integer (x : float) : option Z :=
  match Prim2SF x with
  | S754_zero _ => Some 0%Z
  | S754_finite s m e =>
      if (0 <=? e)%Z then Some (signed s m * 2 ^ e)%Z
      else if (signed s m mod 2 ^ (- e) =? 0)%Z
           then Some (signed s m / 2 ^ (- e))%Z
           else None
  | _ => None
  end.

(** [array[i]] for a Number [i]: an element when [i] is an integral index
    inside the array, [undefined] otherwise. *)
Definition array_get {A} (l : list A) (i : float) : option A :=
  match to_integer i with
  | Some k => if (k <? 0)%Z then None else nth_error l (Z.to_nat k)
  | None => None
  end.

(** [Math.PI] *)
Definition Math_PI : float := 0x1.921fb54442d18p+1%float.

(** *** Hexadecimal *)

Definition hex_lower (d : N) : char16 := if d <? 10 then 48 + d else 87 + d.
Definition hex_upper (d : N) : char16 := if d <? 10 then 48 + d else 55 + d.

Definition is_hex (c : char16) : bool :=
  is_digit c || in_range 97 102 c || in_range 65 70 c.

Definition hex_value (c : char16) : N :=
  if is_digit c then c - 48
  else if in_range 97 102 c then c - 87
  else c - 55.

(** The digits of [n] in base 16, most significant first, lower case. *)
Fixpoint hex_digits_fuel (fuel : nat) (n : N) (acc : jsstring) : jsstring :=
  match fuel with
  | O => acc
  | S fuel' =>
      let acc' := hex_lower (n mod 16) :: acc in
      if n <? 16 then acc' else hex_digits_fuel fuel' (n / 16) acc'
  end.

Definition N_toString16 (n : N) : jsstring :=
  hex_digits_fuel (S (N.to_nat (N.log2 n))) n [].

(** [x.toString(16)] for a Number holding an integer.  The digits of a
    value with a fractional part are left to the implementation by the
    language definition, and NaN and the infinities print as words; none
    of them is a call the sources make, and they are not modelled. *)
Definition Number_toString16 (x : float) : option jsstring :=
  match to_integer x with
  | Some (Z.neg p) => Some (c_minus :: N_toString16 (Npos p))
  | Some k => Some (N_toString16 (Z.to_N k))
  | None => None
  end.

(** [s.padStart(n, "0")] *)
Definition padStart0 (n : nat) (s : jsstring) : jsstring :=
  repeat 48 (n - length s) ++ s.

(** [parts.join("")] *)
Definition join_empty (parts : list jsstring) : jsstring := concat parts.

(** [a.includes(b)]: [b] occurs in [a] as a contiguous run. *)
Fixpoint starts_with (prefix s : jsstring) : bool :=
  match prefix, s with
  | [], _ => true
  | p :: prefix', c :: s' => (p =? c) && starts_with prefix' s'
  | _ :: _, [] => false
  end.

Fixpoint includes (a b : jsstring) : bool :=
  starts_with b a ||
  match a with
  | [] => false
  | _ :: a' => includes a' b
  end.

(** *** URI coding, [escape]/[unescape] and Base64 *)

Definition is_high_surrogate (c : char16) : bool := in_range 55296 56319 c.
Definition is_low_surrogate (c : char16) : bool := in_range 56320 57343 c.

(** The code points of a string; [None] when a surrogate stands alone. *)
Fixpoint code_points (s : jsstring) : option (list N) :=
  match s with
  | [] => Some []
  | c :: rest =>
      if is_high_surrogate c then
        match rest with
        | d :: rest' =>
            if is_low_surrogate d then
              option_map (cons (65536 + (c - 55296) * 1024 + (d - 56320)))
                (code_points rest')
            else None
        | [] => None
        end
      else if is_low_surrogate c then None
      else option_map (cons c) (code_points rest)
  end.

Definition utf8_encode (cp : N) : list N :=
  if cp <? 128 then [cp]
  else if cp <? 2048 then [192 + cp / 64; 128 + cp mod 64]
  else if cp <? 65536 then
    [224 + cp / 4096; 128 + (cp / 64) mod 64; 128 + cp mod 64]
  else
    [240 + cp / 262144; 128 + (cp / 4096) mod 64;
     128 + (cp / 64) mod 64; 128 + cp mod 64].

Definition utf16_encode (cp : N) : jsstring :=
  if cp <? 65536 then [cp]
  else [55296 + (cp - 65536) / 1024; 56320 + (cp - 65536) mod 1024].

Definition pct_byte (b : N) : jsstring :=
  [c_percent; hex_upper (b / 16); hex_upper (b mod 16)].

(** The characters [encodeURIComponent] leaves alone. *)
Definition uri_unreserved (c : char16) : bool :=
  is_upper c || is_lower c || is_digit c || in_class (lit "-_.!~*'()") c.

(** [encodeURIComponent]; [None] stands for the URIError it throws on a
    lone surrogate. *)
Definition encodeURIComponent (s : jsstring) : option jsstring :=
  option_map
    (flat_map (fun cp =>
       if uri_unreserved cp then [cp] else flat_map pct_byte (utf8_encode cp)))
    (code_points s).

Definition hex2 (h1 h2 : char16) : N := 16 * hex_value h1 + hex_value h2.

(** [unescape]: [%uXXXX] and [%XX] become the code unit they spell, every
    other code unit is copied. *)
Fixpoint unescape (s : jsstring) : jsstring :=
  match s with
  | [] => []
  | c :: rest =>
      let two :=
        match rest with
        | h1 :: h2 :: rest2 =>
            if (c =? c_percent) && is_hex h1 && is_hex h2
            then hex2 h1 h2 :: unescape rest2
            else c :: unescape rest
        | _ => c :: unescape rest
        end in
      match rest with
      | u :: h1 :: h2 :: h3 :: h4 :: rest4 =>
          if (c =? c_percent) && (u =? 117)
             && is_hex h1 && is_hex h2 && is_hex h3 && is_hex h4
          then (256 * hex2 h1 h2 + hex2 h3 h4) :: unescape rest4
          else two
      | _ => two
      end
  end.

(** The characters [escape] leaves alone. *)
Definition escape_safe (c : char16) : bool :=
  is_upper c || is_lower c || is_digit c || in_class (lit "@*_+-./") c.

Definition escape (s : jsstring) : jsstring :=
  flat_map (fun c =>
    if escape_safe c then [c]
    else if c <? 256 then pct_byte c
    else [c_percent; 117; hex_upper (c / 4096); hex_upper ((c / 256) mod 16);
          hex_upper ((c / 16) mod 16); hex_upper (c mod 16)]) s.

(** [decodeURIComponent] in two passes: the escapes are read first, then
    the octets are decoded as UTF-8.  [None] stands for a URIError. *)
Inductive uri_token :=
| Raw (c : char16)
| Octet (b : N).

Fixpoint pct_tokens (s : jsstring) : option (list uri_token) :=
  match s with
  | [] => Some []
  | c :: rest =>
      if c =? c_percent then
        match rest with
        | h1 :: h2 :: rest2 =>
            if is_hex h1 && is_hex h2
            then option_map (cons (Octet (hex2 h1 h2))) (pct_tokens rest2)
            else None
        | _ => None
        end
      else option_map (cons (Raw c)) (pct_tokens rest)
  end.

Definition is_cont (b : N) : bool := in_range 128 191 b.

Fixpoint utf8_tokens (ts : list uri_token) : option jsstring :=
  match ts with
  | [] => Some []
  | Raw c :: rest => option_map (cons c) (utf8_tokens rest)
  | Octet b :: rest =>
      if b <? 128 then option_map (cons b) (utf8_tokens rest)
      else if in_range 192 223 b then
        match rest with
        | Octet b1 :: rest' =>
            let cp := (b - 192) * 64 + (b1 - 128) in
            if is_cont b1 && (128 <=? cp)
            then option_map (app (utf16_encode cp)) (utf8_tokens rest')
            else None
        | _ => None
        end
      else if in_range 224 239 b then
        match rest with
        | Octet b1 :: Octet b2 :: rest' =>
            let cp := (b - 224) * 4096 + (b1 - 128) * 64 + (b2 - 128) in
            if is_cont b1 && is_cont b2 && (2048 <=? cp)
               && negb (in_range 55296 57343 cp)
            then option_map (app (utf16_encode cp)) (utf8_tokens rest')
            else None
        | _ => None
        end
      else if in_range 240 247 b then
        match rest with
        | Octet b1 :: Octet b2 :: Octet b3 :: rest' =>
            let cp := (b - 240) * 262144 + (b1 - 128) * 4096
                      + (b2 - 128) * 64 + (b3 - 128) in
            if is_cont b1 && is_cont b2 && is_cont b3
               && in_range 65536 1114111 cp
            then option_map (app (utf16_encode cp)) (utf8_tokens rest')
            else None
        | _ => None
        end
      else None
  end.

Definition decodeURIComponent (s : jsstring) : option jsstring :=
  match pct_tokens s with
  | Some ts => utf8_tokens ts
  | None => None
  end.

Definition b64_char (v : N) : char16 :=
  if v <? 26 then 65 + v
  else if v <? 52 then 71 + v
  else if v <? 62 then v - 4
  else if v =? 62 then c_plus
  else c_slash.

Definition b64_value (c : char16) : option N :=
  if is_upper c then Some (c - 65)
  else if is_lower c then Some (c - 71)
  else if is_digit c then Some (c + 4)
  else if c =? c_plus then Some 62
  else if c =? c_slash then Some 63
  else None.

Definition c_eq : char16 := 61.

Fixpoint b64_encode (bytes : list N) : jsstring :=
  match bytes with
  | [] => []
  | [a] => [b64_char (a / 4); b64_char ((a mod 4) * 16); c_eq; c_eq]
  | [a; b] =>
      [b64_char (a / 4); b64_char ((a mod 4) * 16 + b / 16);
       b64_char ((b mod 16) * 4); c_eq]
  | a :: b :: c :: rest =>
      [b64_char (a / 4); b64_char ((a mod 4) * 16 + b / 16);
       b64_char ((b mod 16) * 4 + c / 64); b64_char (c mod 64)]
      ++ b64_encode rest
  end.

(** [btoa]; [None] stands for the InvalidCharacterError it throws on a code
    unit above 255. *)
Definition btoa (s : jsstring) : option jsstring :=
  if forallb (fun c => c <? 256) s then Some (b64_encode s) else None.

Fixpoint b64_decode (v : list N) : list N :=
  match v with
  | a :: b :: c :: d :: rest =>
      [a * 4 + b / 16; (b mod 16) * 16 + c / 4; (c mod 4) * 64 + d]
      ++ b64_decode rest
  | [a; b; c] => [a * 4 + b / 16; (b mod 16) * 16 + c / 4]
  | [a; b] => [a * 4 + b / 16]
  | _ => []
  end.

Fixpoint sextets (s : jsstring) : option (list N) :=
  match s with
  | [] => Some []
  | c :: rest =>
      match b64_value c, sextets rest with
      | Some v, Some vs => Some (v :: vs)
      | _, _ => None
      end
  end.

Definition is_ascii_whitespace (c : char16) : bool :=
  (c =? 9) || (c =? 10) || (c =? 12) || (c =? 13) || (c =? 32).

(** One or two trailing [=] are dropped. *)
Definition strip_padding (s : jsstring) : jsstring :=
  match rev s with
  | p1 :: p2 :: r =>
      if p1 =? c_eq then (if p2 =? c_eq then rev r else rev (p2 :: r)) else s
  | _ => s
  end.

(** [atob], the forgiving Base64 decoder; [None] stands for the
    InvalidCharacterError it throws. *)
Definition atob (s : jsstring) : option jsstring :=
  let data := List.filter (fun c => negb (is_ascii_whitespace c)) s in
  let data :=
    if (N.of_nat (length data) mod 4 =? 0) then strip_padding data else data in
  if (N.of_nat (length data) mod 4 =? 1) then None
  else option_map b64_decode (sextets data).

End JS.

(** ** lib/security.ts *)

Module Security.
Import JS.

(** *** sanitizeHtml *)

Definition htmlEntities : list (char16 * jsstring) :=
  [ (c_amp, lit "&amp;");
    (c_lt, lit "&lt;");
    (c_gt, lit "&gt;");
    (c_dquote, lit "&quot;");
    (c_squote, lit "&#x27;");
    (c_slash, lit "&#x2F;") ].

(** The class of the pattern: ampersand, less-than, greater-than, double
    quote, single quote and slash. *)
Definition html_special : char16 -> bool :=
  in_class [c_amp; c_lt; c_gt; c_dquote; c_squote; c_slash].

Definition sanitizeHtml (input : jsstring) : jsstring :=
  replace_class_g html_special
    (fun char => or_else (get_prop htmlEntities char) [char]) input.

(** *** validatePassword *)

(** [ENTERPRISE_CONFIG.security.passwordPolicy] of lib/enterprise-config. *)
Record PasswordPolicy := {
  minLength : nat;
  requireUppercase : bool;
  requireLowercase : bool;
  requireNumber : bool;
  requireSpecialChar : bool
}.

Definition passwordPolicy : PasswordPolicy :=
  {| minLength := 8;
     requireUppercase := true;
     requireLowercase := true;
     requireNumber := true;
     requireSpecialChar := true |}.

Inductive Strength := weak | medium | strong | very_strong.

Record PasswordValidationResult := {
  isValid : bool;
  errors : list string;
  strength : Strength;
  score : nat
}.

(** The class of special characters of the pattern: the punctuation
    listed below, the double quote among it. *)
Definition is_special : char16 -> bool :=
  in_class (lit "!@#$%^&*(),.?" ++ [c_dquote] ++ lit ":{}|<>").

(** One check block of [validatePassword]: a required class that is
    missing pushes the error, a class that is present scores a point. *)
Definition check_class (required : bool) (cls : char16 -> bool)
    (msg : string) (password : jsstring) (st : list string * nat)
    : list string * nat :=
  let '(errs, sc) := st in
  if required && negb (test_class cls password) then (errs ++ [msg], sc)
  else if test_class cls password then (errs, sc + 1)
  else (errs, sc).

Definition check_length (policy : PasswordPolicy) (password : jsstring)
    : list string * nat :=
  if length password <? minLength policy then
    ([("Password must be at least " +:+ pretty (minLength policy)
        +:+ " characters")%string], 0)
  else
    let sc := 1 in
    let sc := if 12 <=? length password then sc + 1 else sc in
    let sc := if 16 <=? length password then sc + 1 else sc in
    ([], sc).

Definition strength_of (sc : nat) : Strength :=
  if sc <=? 2 then weak
  else if sc <=? 4 then medium
  else if sc <=? 6 then strong
  else very_strong.

Definition validatePassword_with (policy : PasswordPolicy)
    (password : jsstring) : PasswordValidationResult :=
  let st := check_length policy password in
  let st := check_class (requireUppercase policy) is_upper
    "Password must contain at least one uppercase letter" password st in
  let st := check_class (requireLowercase policy) is_lower
    "Password must contain at least one lowercase letter" password st in
  let st := check_class (requireNumber policy) is_digit
    "Password must contain at least one number" password st in
  let st := check_class (requireSpecialChar policy) is_special
    "Password must contain at least one special character" password st in
  let '(errs, sc) := st in
  {| isValid := match errs with [] => true | _ => false end;
     errors := errs;
     strength := strength_of sc;
     score := sc |}.

Definition validatePassword : jsstring -> PasswordValidationResult :=
  validatePassword_with passwordPolicy.

(** *** Rate limiting *)

Record RateLimitEntry := {
  count : Z;
  firstRequest : Z;
  lastRequest : Z
}.

(** [rateLimitStore], the module-level [Map]. *)
Abbreviation RateLimitStore := (gmap (list N) RateLimitEntry).

Definition rateLimitStore_initial : RateLimitStore := ∅.

Record RateLimitResult := {
  allowed : bool;
  remaining : float;
  resetTime : float
}.

(** [checkRateLimit(identifier, maxRequests, windowMs)].  [now] is what
    [Date.now()] returns at the call; the store is threaded through.  The
    two parameters are any Numbers.  The count and the times are integers,
    which a Number holds exactly; [of_Z] gives their Number where they meet
    the parameters. *)
Definition checkRateLimit (identifier : jsstring) (maxRequests windowMs : float)
    (now : Z) (store : RateLimitStore) : RateLimitResult * RateLimitStore :=
  let fresh :=
    ({| allowed := true; remaining := (maxRequests - 1)%float;
        resetTime := (of_Z now + windowMs)%float |},
     <[identifier := {| count := 1; firstRequest := now; lastRequest := now |}]>
       store) in
  match store !! identifier with
  | None => fresh
  | Some entry =>
      if (windowMs <? of_Z (now - firstRequest entry))%float then fresh
      else if (maxRequests <=? of_Z (count entry))%float then
        ({| allowed := false; remaining := 0%float;
            resetTime := (of_Z (firstRequest entry) + windowMs)%float |},
         store)
      else
        let entry' := {| count := count entry + 1;
                         firstRequest := firstRequest entry;
                         lastRequest := now |} in
        ({| allowed := true;
            remaining := (maxRequests - of_Z (count entry'))%float;
            resetTime := (of_Z (firstRequest entry') + windowMs)%float |},
         <[identifier := entry']> store)
  end.

(** Calls made one after the other with the same parameters, each an
    identifier and the time of the call: the answers and the final store. *)
Fixpoint checkRateLimit_calls (maxRequests windowMs : float)
    (calls : list (jsstring * Z)) (store : RateLimitStore)
    : list RateLimitResult * RateLimitStore :=
  match calls with
  | [] => ([], store)
  | (i, t) :: rest =>
      let '(r, store') := checkRateLimit i maxRequests windowMs t store in
      let '(rs, store'') :=
        checkRateLimit_calls maxRequests windowMs rest store' in
      (r :: rs, store'')
  end.

(** *** The browser's storage *)

Record Browser := {
  sessionStorage : gmap (list N) (list N);
  localStorage : gmap (list N) (list N)
}.

(** The global environment: [None] when [typeof window] is undefined (the
    code runs on the server), a browser otherwise. *)
Definition Env : Type := option Browser.

Definition set_session (k v : jsstring) (b : Browser) : Browser :=
  {| sessionStorage := <[k := v]> (sessionStorage b);
     localStorage := localStorage b |}.

Definition set_local (k v : jsstring) (b : Browser) : Browser :=
  {| sessionStorage := sessionStorage b;
     localStorage := <[k := v]> (localStorage b) |}.

Definition remove_local (k : jsstring) (b : Browser) : Browser :=
  {| sessionStorage := sessionStorage b;
     localStorage := delete k (localStorage b) |}.

(** *** CSRF protection *)

(** [generateCSRFToken].  [random i] is what the i-th call of
    [Math.random()] returns and [entropy i] is the i-th value
    [crypto.getRandomValues] draws; an element of the [Uint8Array] holds it
    modulo 256. *)
Definition generateCSRFToken (env : Env) (random : nat -> float)
    (entropy : nat -> N) : option jsstring :=
  match env with
  | None =>
      option_map join_empty
        (mapM (fun i => Number_toString16 (Math_floor (random i * 16)%float))
           (seq 0 32))
  | Some _ =>
      let array := map (fun i => (entropy i mod 256)%N) (seq 0 32) in
      Some (join_empty
        (map (fun byte => padStart0 2 (N_toString16 byte)) array))
  end.

Definition csrf_key : jsstring := lit "csrf_token".

Definition setCSRFToken (token : jsstring) (env : Env) : Env :=
  match env with
  | Some b => Some (set_session csrf_key token b)
  | None => None
  end.

Definition getCSRFToken (env : Env) : option jsstring :=
  match env with
  | Some b => sessionStorage b !! csrf_key
  | None => None
  end.

Definition jsstring_eqb (a b : jsstring) : bool := bool_decide (a = b).

Definition validateCSRFToken (token : jsstring) (env : Env) : bool :=
  match getCSRFToken env with
  | Some storedToken => jsstring_eqb storedToken token
  | None => false
  end.

(** *** secureStorage *)

Definition secure_key (key : jsstring) : jsstring := lit "secure_" ++ key.

(** [secureStorage.setItem]; [None] stands for an exception of
    [encodeURIComponent] or [btoa] leaving the method. *)
Definition secureStorage_setItem (key value : jsstring) (env : Env)
    : option Env :=
  match env with
  | None => Some None
  | Some b =>
      match encodeURIComponent value with
      | None => None
      | Some enc =>
          match btoa (unescape enc) with
          | None => None
          | Some encoded => Some (Some (set_local (secure_key key) encoded b))
          end
      end
  end.

(** [secureStorage.getItem]; the result [None] is [null]. *)
Definition secureStorage_getItem (key : jsstring) (env : Env)
    : option jsstring :=
  match env with
  | None => None
  | Some b =>
      match localStorage b !! secure_key key with
      | None => None
      | Some encoded =>
          if falsy encoded then None
          else
            (* try ... catch: an exception of atob or decodeURIComponent
               gives null *)
            match atob encoded with
            | None => None
            | Some bin => decodeURIComponent (escape bin)
            end
      end
  end.

Definition secureStorage_removeItem (key : jsstring) (env : Env) : Env :=
  match env with
  | None => None
  | Some b => Some (remove_local (secure_key key) b)
  end.

Definition secureStorage_clear (env : Env) : Env :=
  match env with
  | None => None
  | Some b =>
      Some {| sessionStorage := sessionStorage b;
              localStorage :=
                filter (fun kv => starts_with (lit "secure_") (fst kv) = false)
                  (localStorage b) |}
  end.

End Security.

(** ** Regular expressions *)

Module Regex.
Import JS.

(** The fragment of the pattern language the sources use: character
    classes, concatenation, alternation and repetition. *)
Inductive regex :=
| Void
| Eps
| Chr (cls : char16 -> bool)
| Cat (r1 r2 : regex)
| Alt (r1 r2 : regex)
| Star (r : regex).

(** [r+], [r?], [r{n}], [r{0,n}] and [r{lo,hi}]. *)
Definition Plus (r : regex) : regex := Cat r (Star r).
Definition Opt (r : regex) : regex := Alt Eps r.
Fixpoint Rep (n : nat) (r : regex) : regex :=
  match n with
  | O => Eps
  | S n' => Cat r (Rep n' r)
  end.
Fixpoint UpTo (n : nat) (r : regex) : regex :=
  match n with
  | O => Eps
  | S n' => Opt (Cat r (UpTo n' r))
  end.
Definition Between (lo hi : nat) (r : regex) : regex :=
  Cat (Rep lo r) (UpTo (hi - lo) r).

(** The strings a pattern denotes. *)
Inductive matches : regex -> jsstring -> Prop :=
| m_eps : matches Eps []
| m_chr cls c : cls c = true -> matches (Chr cls) [c]
| m_cat r1 r2 s1 s2 :
    matches r1 s1 -> matches r2 s2 -> matches (Cat r1 r2) (s1 ++ s2)
| m_alt_l r1 r2 s : matches r1 s -> matches (Alt r1 r2) s
| m_alt_r r1 r2 s : matches r2 s -> matches (Alt r1 r2) s
| m_star_nil r : matches (Star r) []
| m_star_cons r s1 s2 :
    matches r s1 -> matches (Star r) s2 -> matches (Star r) (s1 ++ s2).

Fixpoint nullable (r : regex) : bool :=
  match r with
  | Void => false
  | Eps => true
  | Chr _ => false
  | Cat r1 r2 => nullable r1 && nullable r2
  | Alt r1 r2 => nullable r1 || nullable r2
  | Star _ => true
  end.

Fixpoint deriv (c : char16) (r : regex) : regex :=
  match r with
  | Void => Void
  | Eps => Void
  | Chr cls => if cls c then Eps else Void
  | Cat r1 r2 =>
      if nullable r1 then Alt (Cat (deriv c r1) r2) (deriv c r2)
      else Cat (deriv c r1) r2
  | Alt r1 r2 => Alt (deriv c r1) (deriv c r2)
  | Star r1 => Cat (deriv c r1) (Star r1)
  end.

(** [/^r$/.test(s)]: the whole string is matched. *)
Fixpoint test (r : regex) (s : jsstring) : bool :=
  match s with
  | [] => nullable r
  | c :: rest => test (deriv c r) rest
  end.

End Regex.

(** ** app/checkout/page.tsx *)

Module Checkout.
Import JS Regex.
Local Open Scope float_scope.

Record BillingAddress := {
  b_firstName : jsstring;
  b_lastName : jsstring;
  b_company : jsstring;
  b_address : jsstring;
  b_city : jsstring;
  b_state : jsstring;
  b_pincode : jsstring;
  b_phone : jsstring;
  b_email : jsstring
}.

Record ShippingAddress := {
  s_firstName : jsstring;
  s_lastName : jsstring;
  s_company : jsstring;
  s_address : jsstring;
  s_city : jsstring;
  s_state : jsstring;
  s_pincode : jsstring;
  s_phone : jsstring
}.

Record OrderData := {
  billingAddress : BillingAddress;
  shippingAddress : ShippingAddress;
  sameAsBilling : bool;
  paymentMethod : jsstring;
  specialInstructions : jsstring;
  agreedToTerms : bool
}.

(** [item.price] is declared a string; [calculateTotal] asks for its type
    at run time, so both shapes are kept. *)
Inductive PriceValue :=
| PriceString (s : jsstring)
| PriceNumber (x : float).

Record CartItem := {
  price : PriceValue;
  quantity : float
}.

(** The component's state: the [useState] cells. *)
Record PageState := {
  cartItems : list CartItem;
  orderData : OrderData;
  error : option string;
  activeStep : nat
}.

Definition setError (e : option string) (st : PageState) : PageState :=
  {| cartItems := cartItems st; orderData := orderData st;
     error := e; activeStep := activeStep st |}.

Definition setActiveStep (n : nat) (st : PageState) : PageState :=
  {| cartItems := cartItems st; orderData := orderData st;
     error := error st; activeStep := n |}.

(** *** validateForm *)

Definition requiredBillingFields : list ((BillingAddress -> jsstring) * string) :=
  [ (b_firstName, "Billing First Name");
    (b_lastName, "Billing Last Name");
    (b_address, "Billing Address");
    (b_city, "Billing City");
    (b_state, "Billing State");
    (b_pincode, "Billing Pincode");
    (b_phone, "Billing Phone");
    (b_email, "Billing Email") ]%string.

Definition requiredShippingFields : list ((ShippingAddress -> jsstring) * string) :=
  [ (s_firstName, "Shipping First Name");
    (s_lastName, "Shipping Last Name");
    (s_address, "Shipping Address");
    (s_city, "Shipping City");
    (s_state, "Shipping State");
    (s_pincode, "Shipping Pincode");
    (s_phone, "Shipping Phone") ]%string.

(** The [for ... of] loop over the required fields: the name of the first
    field whose value is falsy. *)
Fixpoint first_missing {A} (fields : list ((A -> jsstring) * string)) (a : A)
    : option string :=
  match fields with
  | [] => None
  | (get, name) :: rest =>
      if falsy (get a) then Some name else first_missing rest a
  end.

Definition not_space_at (c : char16) : bool :=
  negb (is_space c) && negb (c =? c_at)%N.

(** [/^[^\s@]+@[^\s@]+\.[^\s@]+$/] *)
Definition emailRegex : regex :=
  Cat (Plus (Chr not_space_at))
    (Cat (Chr (N.eqb c_at))
      (Cat (Plus (Chr not_space_at))
        (Cat (Chr (N.eqb c_dot)) (Plus (Chr not_space_at))))).

(** [/^\+?[1-9]\d{1,14}$/] *)
Definition phoneRegex : regex :=
  Cat (Opt (Chr (N.eqb c_plus)))
    (Cat (Chr is_digit19) (Between 1 14 (Chr is_digit))).

(** [/^[1-9][0-9]{5}$/] *)
Definition pincodeRegex : regex :=
  Cat (Chr is_digit19) (Rep 5 (Chr is_digit)).

(** [phone.replace] with the pattern [\D], the global flag and the empty
    replacement: every code unit that is not a digit is dropped. *)
Definition strip_non_digits (s : jsstring) : jsstring :=
  replace_class_g (fun c => negb (is_digit c)) (fun _ => []) s.

Definition fail (msg : string) (st : PageState) : bool * PageState :=
  (false, setError (Some msg) st).

Definition validateForm (st : PageState) : bool * PageState :=
  let od := orderData st in
  let billing := billingAddress od in
  let shipping := shippingAddress od in
  match first_missing requiredBillingFields billing with
  | Some name => fail (name +:+ " is required.") st
  | None =>
  match (if sameAsBilling od then None
         else first_missing requiredShippingFields shipping) with
  | Some name => fail (name +:+ " is required.") st
  | None =>
  if negb (test emailRegex (b_email billing)) then
    fail "Please enter a valid email address for billing." st
  else if negb (test phoneRegex (strip_non_digits (b_phone billing))) then
    fail "Please enter a valid phone number for billing (e.g., +919876543210 or 9876543210)." st
  else if negb (sameAsBilling od)
          && negb (test phoneRegex (strip_non_digits (s_phone shipping))) then
    fail "Please enter a valid phone number for shipping." st
  else if negb (test pincodeRegex (b_pincode billing)) then
    fail "Please enter a valid 6-digit pincode for billing." st
  else if negb (sameAsBilling od)
          && negb (test pincodeRegex (s_pincode shipping)) then
    fail "Please enter a valid 6-digit pincode for shipping." st
  else if negb (agreedToTerms od) then
    fail "You must agree to the terms and conditions to place an order." st
  else (true, setError None st)
  end end.

(** The [onClick] of the step-1 button Continue to Payment. *)
Definition continueToPayment (st : PageState) : PageState :=
  let '(ok, st') := validateForm st in
  if ok then setActiveStep 2 st' else st'.

(** *** Order total *)

Section Totals.
(** [Number.parseFloat], a built-in of the runtime. *)
Variable parseFloat : jsstring -> float.

Definition item_price (item : CartItem) : float :=
  match price item with
  | PriceString s => parseFloat s
  | PriceNumber x => x
  end.

(** [cartItems.reduce((total, item) => ..., 0)] *)
Definition calculateTotal (items : list CartItem) : float :=
  fold_left (fun total item => total + item_price item * quantity item)
    items 0.

Definition gst (items : list CartItem) : float :=
  calculateTotal items * 0.18.

Definition deliveryCharges (items : list CartItem) : float :=
  if 5000 <? calculateTotal items then 0 else 200.

Definition finalTotal (items : list CartItem) : float :=
  calculateTotal items + gst items + deliveryCharges items.
End Totals.

End Checkout.

(** ** app/configurator/page.tsx *)

Module Configurator.
Import JS.
Local Open Scope float_scope.

Record Dimensions := {
  width : float;
  height : float;
  depth : float;
  thickness : float
}.

Inductive Style := shipping | mailer | gift.
Inductive Material := corrugated | kraft | cardboard.
Inductive Finish := matte | glossy | satin | transparent.

Record BoxConfiguration := {
  dimensions : Dimensions;
  style : Style;
  material : Material;
  color : jsstring;
  finish : Finish;
  quantity : float
}.

(** The initial state of the page, also what Reset restores. *)
Definition initial_config : BoxConfiguration :=
  {| dimensions := {| width := 25; height := 20; depth := 15; thickness := 3 |};
     style := shipping;
     material := corrugated;
     color := lit "#8B4513";
     finish := matte;
     quantity := 100 |}.

Section Derived.
(** [Number.prototype.toFixed] and the [Number] conversion of a string,
    built-ins of the runtime. *)
Variable toFixed : float -> nat -> jsstring.
Variable Number : jsstring -> float.

Definition calculatedVolume (config : BoxConfiguration) : jsstring :=
  let d := dimensions config in
  toFixed ((width d * height d * depth d) / 1000) 2.

Definition estimatedPrice (config : BoxConfiguration) : float :=
  let base := 25 in
  let vol := Number (calculatedVolume config) * 0.5 in
  let matScale :=
    match material config with
    | corrugated => 1.2
    | _ => 1
    end in
  Math_round ((base + vol) * matScale).

Definition totalPrice (config : BoxConfiguration) : float :=
  estimatedPrice config * quantity config.
End Derived.

End Configurator.

(** ** components/enhanced-3d-configurator.tsx *)

Module Box3D.
Import JS.
Local Open Scope float_scope.

Record StyleInfo := {
  name : string;
  description : string;
  foldingSequence : list jsstring;
  complexity : string
}.

(** The [BOX_STYLES] table, in the order of the object literal. *)
Definition BOX_STYLES : list (jsstring * StyleInfo) :=
  [ (lit "rsc",
     {| name := "Regular Slotted Container";
        description := "Standard shipping box with four flaps on top and bottom";
        foldingSequence := [lit "bottom"; lit "sides"; lit "top"];
        complexity := "simple" |});
    (lit "autoBottom",
     {| name := "Auto Bottom Box";
        description := "Self-locking bottom, convenient for packing";
        foldingSequence := [lit "bottom-lock"; lit "sides"; lit "top"];
        complexity := "medium" |});
    (lit "display",
     {| name := "Display Box";
        description := "Retail display box with advertisement panel";
        foldingSequence := [lit "base"; lit "display-panel"; lit "sides"];
        complexity := "medium" |});
    (lit "drawer",
     {| name := "Drawer Box";
        description := "Slide-out drawer style box";
        foldingSequence := [lit "outer-sleeve"; lit "inner-drawer"];
        complexity := "complex" |});
    (lit "folding",
     {| name := "Folding Box";
        description := "One-piece folding box without glue";
        foldingSequence := [lit "base-fold"; lit "side-tabs"; lit "lock-tabs"];
        complexity := "medium" |});
    (lit "gableTop",
     {| name := "Gable Top Box";
        description := "Milk carton style with peaked top";
        foldingSequence := [lit "base"; lit "sides"; lit "gable-fold"];
        complexity := "complex" |});
    (lit "pillow",
     {| name := "Pillow Box";
        description := "Curved pillow-shaped packaging";
        foldingSequence := [lit "curve-sides"; lit "end-tucks"];
        complexity := "simple" |});
    (lit "tuckEnd",
     {| name := "Tuck End Box";
        description := "Boxes with tuck-in flaps on ends";
        foldingSequence := [lit "bottom"; lit "sides"; lit "tuck-ends"];
        complexity := "simple" |});
    (lit "hingedLid",
     {| name := "Hinged Lid Box";
        description := "Premium box with attached hinged lid";
        foldingSequence := [lit "base"; lit "hinge"; lit "lid"];
        complexity := "complex" |}) ]%string.

Definition str_eqb (a b : jsstring) : bool := bool_decide (a = b).

(** [BOX_STYLES[style]] for a style of the table; [None] is [undefined]. *)
Fixpoint get_style (table : list (jsstring * StyleInfo)) (style : jsstring)
    : option StyleInfo :=
  match table with
  | [] => None
  | (k, v) :: rest => if str_eqb k style then Some v else get_style rest style
  end.

(** *** Geometry *)

Record BoxGeometry := { gx : float; gy : float; gz : float }.
Record Vector3 := { vx : float; vy : float; vz : float }.
Record Euler := { ex : float; ey : float; ez : float }.

Record Part := {
  geometry : BoxGeometry;
  position : Vector3;
  rotation : option Euler;
  part_name : jsstring
}.

Definition part (g : BoxGeometry) (p : Vector3) (n : string) : Part :=
  {| geometry := g; position := p; rotation := None; part_name := lit n |}.

Record Dimensions := {
  length : float;
  width : float;
  height : float;
  thickness : float
}.

Definition createRSCGeometry (length width height thickness : float)
    : list Part :=
  let parts := [] in
  (* Bottom panel *)
  let parts := parts ++ [part (Build_BoxGeometry length thickness width)
    (Build_Vector3 0 (- height / 2) 0) "bottom"] in
  (* Top panel *)
  let parts := parts ++ [part (Build_BoxGeometry length thickness width)
    (Build_Vector3 0 (height / 2) 0) "top"] in
  (* Side panels *)
  let parts := parts ++ [part (Build_BoxGeometry thickness height width)
    (Build_Vector3 (- length / 2) 0 0) "left-side"] in
  let parts := parts ++ [part (Build_BoxGeometry thickness height width)
    (Build_Vector3 (length / 2) 0 0) "right-side"] in
  (* Front and back panels *)
  let parts := parts ++ [part (Build_BoxGeometry length height thickness)
    (Build_Vector3 0 0 (- width / 2)) "front"] in
  let parts := parts ++ [part (Build_BoxGeometry length height thickness)
    (Build_Vector3 0 0 (width / 2)) "back"] in
  (* Flaps *)
  let flapLength := width * 0.6 in
  (* Bottom flaps *)
  let parts := parts ++ [part (Build_BoxGeometry length thickness flapLength)
    (Build_Vector3 0 (- height / 2 - thickness) (- width / 2 - flapLength / 2))
    "bottom-front-flap"] in
  let parts := parts ++ [part (Build_BoxGeometry length thickness flapLength)
    (Build_Vector3 0 (- height / 2 - thickness) (width / 2 + flapLength / 2))
    "bottom-back-flap"] in
  let parts := parts ++ [part (Build_BoxGeometry flapLength thickness width)
    (Build_Vector3 (- length / 2 - flapLength / 2) (- height / 2 - thickness) 0)
    "bottom-left-flap"] in
  let parts := parts ++ [part (Build_BoxGeometry flapLength thickness width)
    (Build_Vector3 (length / 2 + flapLength / 2) (- height / 2 - thickness) 0)
    "bottom-right-flap"] in
  (* Top flaps *)
  let parts := parts ++ [part (Build_BoxGeometry length thickness flapLength)
    (Build_Vector3 0 (height / 2 + thickness) (- width / 2 - flapLength / 2))
    "top-front-flap"] in
  let parts := parts ++ [part (Build_BoxGeometry length thickness flapLength)
    (Build_Vector3 0 (height / 2 + thickness) (width / 2 + flapLength / 2))
    "top-back-flap"] in
  let parts := parts ++ [part (Build_BoxGeometry flapLength thickness width)
    (Build_Vector3 (- length / 2 - flapLength / 2) (height / 2 + thickness) 0)
    "top-left-flap"] in
  let parts := parts ++ [part (Build_BoxGeometry flapLength thickness width)
    (Build_Vector3 (length / 2 + flapLength / 2) (height / 2 + thickness) 0)
    "top-right-flap"] in
  parts.

Definition createAutoBottomGeometry (length width height thickness : float)
    : list Part :=
  let parts := createRSCGeometry length width height thickness in
  (* Add auto-lock tabs to bottom *)
  let tabWidth := width * 0.3 in
  let tabHeight := height * 0.2 in
  let parts := parts ++ [part (Build_BoxGeometry tabWidth tabHeight thickness)
    (Build_Vector3 (- length / 4) (- height / 2 + tabHeight / 2) (- width / 2))
    "auto-lock-tab-1"] in
  let parts := parts ++ [part (Build_BoxGeometry tabWidth tabHeight thickness)
    (Build_Vector3 (length / 4) (- height / 2 + tabHeight / 2) (- width / 2))
    "auto-lock-tab-2"] in
  parts.

Definition createDisplayBoxGeometry (length width height thickness : float)
    : list Part :=
  let parts := [] in
  let baseHeight := height * 0.6 in
  (* Base panels *)
  let parts := parts ++ [part (Build_BoxGeometry length thickness width)
    (Build_Vector3 0 (- baseHeight / 2) 0) "bottom"] in
  (* Side panels (shorter for display) *)
  let parts := parts ++ [part (Build_BoxGeometry thickness baseHeight width)
    (Build_Vector3 (- length / 2) 0 0) "left-side"] in
  let parts := parts ++ [part (Build_BoxGeometry thickness baseHeight width)
    (Build_Vector3 (length / 2) 0 0) "right-side"] in
  (* Front panel (lower) *)
  let parts := parts ++ [part (Build_BoxGeometry length baseHeight thickness)
    (Build_Vector3 0 0 (- width / 2)) "front"] in
  (* Display panel (angled back) *)
  let displayHeight := height * 0.4 in
  let parts := parts ++
    [ {| geometry := Build_BoxGeometry length displayHeight thickness;
         position := Build_Vector3 0 (baseHeight / 2 + displayHeight / 4)
                       (width / 2);
         rotation := Some (Build_Euler (- Math_PI / 6) 0 0);
         part_name := lit "display-panel" |} ] in
  parts.

(** Placeholder functions for the other box styles. *)
Definition createDrawerBoxGeometry (length width height thickness : float)
    : list Part := createRSCGeometry length width height thickness.

Definition createFoldingBoxGeometry (length width height thickness : float)
    : list Part := createRSCGeometry length width height thickness.

Definition createGableTopGeometry (length width height thickness : float)
    : list Part := createRSCGeometry length width height thickness.

Definition createPillowBoxGeometry (length width height thickness : float)
    : list Part := createRSCGeometry length width height thickness.

Definition createTuckEndGeometry (length width height thickness : float)
    : list Part := createRSCGeometry length width height thickness.

Definition createHingedLidGeometry (length width height thickness : float)
    : list Part := createRSCGeometry length width height thickness.

(** The [boxGeometry] memo of [Enhanced3DBox]: the [switch] on the style. *)
Definition boxGeometry (style : jsstring) (dimensions : Dimensions)
    : list Part :=
  let '(Build_Dimensions length width height thickness) := dimensions in
  if str_eqb style (lit "rsc") then
    createRSCGeometry length width height thickness
  else if str_eqb style (lit "autoBottom") then
    createAutoBottomGeometry length width height thickness
  else if str_eqb style (lit "display") then
    createDisplayBoxGeometry length width height thickness
  else if str_eqb style (lit "drawer") then
    createDrawerBoxGeometry length width height thickness
  else if str_eqb style (lit "folding") then
    createFoldingBoxGeometry length width height thickness
  else if str_eqb style (lit "gableTop") then
    createGableTopGeometry length width height thickness
  else if str_eqb style (lit "pillow") then
    createPillowBoxGeometry length width height thickness
  else if str_eqb style (lit "tuckEnd") then
    createTuckEndGeometry length width height thickness
  else if str_eqb style (lit "hingedLid") then
    createHingedLidGeometry length width height thickness
  else
    createRSCGeometry length width height thickness.

(** *** The group *)

(** A child of the group that [animateFolding] is given, with the [name]
    property of its [userData] ([None] when the property is absent). *)
Record Object3D := {
  userData_name : option jsstring
}.

(** *** Assembly instructions *)

(** [array.length] as a Number. *)
Definition length_of {A} (l : list A) : float := of_Z (Z.of_nat (List.length l)).

(** The [step] prop [Enhanced3DBox] passes to the overlay; [None] stands
    for the TypeError of reading [foldingSequence] of [undefined]. *)
Definition overlay_step (style : jsstring) (animationProgress : float)
    : option float :=
  match get_style BOX_STYLES style with
  | Some info =>
      Some (Math_floor (animationProgress * length_of (foldingSequence info)))
  | None => None
  end.

(** [s.replace(a, b)] for one-character strings: the first [a] only. *)
Fixpoint replace_first (a b : char16) (s : jsstring) : jsstring :=
  match s with
  | [] => []
  | c :: rest => if (c =? a)%N then b :: rest else c :: replace_first a b rest
  end.

(** [s.toUpperCase()] on the ASCII strings of the table. *)
Definition toUpperCase (s : jsstring) : jsstring :=
  map (fun c => if is_lower c then (c - 32)%N else c) s.

(** What the overlay shows: the step number after the word Step, and the
    instruction text after the colon. *)
Record Overlay := {
  currentInstruction : jsstring;
  shown_number : float;
  shown_text : jsstring
}.

Definition AssemblyInstructions (style : jsstring) (step : float) : Overlay :=
  let instructions :=
    match get_style BOX_STYLES style with
    | Some info => foldingSequence info
    | None => []
    end in
  let currentInstruction :=
    or_else (array_get instructions step) (lit "Complete") in
  {| currentInstruction := currentInstruction;
     shown_number := step + 1;
     shown_text := toUpperCase (replace_first c_minus c_space currentInstruction) |}.

(** *** Folding animation *)

(** One [timeline.to(part.rotation, vars, position)] call; [target] is the
    index of the part among the children of the group. *)
Record Tween := {
  target : nat;
  duration : float;
  x : float;
  ease : string;
  at_position : float
}.

Definition indexed {A} (l : list A) : list (nat * A) :=
  combine (seq 0 (List.length l)) l.

(** [child.userData.name && child.userData.name.includes(step)] *)
Definition named_for (step : jsstring) (child : Object3D) : bool :=
  match userData_name child with
  | Some n => negb (falsy n) && includes n step
  | None => false
  end.

Definition step_tweens (children : list Object3D) (progress : float)
    (n : float) (index : nat) (step : jsstring) : list Tween :=
  let stepProgress := progress * n - of_Z (Z.of_nat index) in
  if (0 <? stepProgress) && (stepProgress <=? 1) then
    let parts :=
      List.filter (fun ic => named_for step (snd ic)) (indexed children) in
    map (fun ic =>
           {| target := fst ic;
              duration := 0.5;
              x := stepProgress * Math_PI / 2;
              ease := "power2.inOut";
              at_position := of_Z (Z.of_nat index) * 0.3 |}) parts
  else [].

(** [animateFolding(group, style, progress)]: the tweens put on the
    timeline, in order; [None] stands for the TypeError on a style that is
    not in the table. *)
Definition animateFolding (children : list Object3D) (style : jsstring)
    (progress : float) : option (list Tween) :=
  match get_style BOX_STYLES style with
  | None => None
  | Some info =>
      let foldingSequence := foldingSequence info in
      Some (flat_map
              (fun istep =>
                 step_tweens children progress (length_of foldingSequence)
                   (fst istep) (snd istep))
              (indexed foldingSequence))
  end.

End Box3D.

(** ** lib/security.ts: the validators *)

Module Validators.
Import JS Regex.

(** [isValidEmail] *)
Definition isValidEmail (email : jsstring) : bool :=
  test Checkout.emailRegex email && (List.length email <=? 254)%nat.

Definition is_6_to_9 (c : char16) : bool := in_range 54 57 c.
Definition dash_or_space (c : char16) : bool := (c =? c_minus)%N || is_space c.

(** The pattern of [isValidIndianPhone]: an optional [+91] with an optional
    dash or whitespace after it, then a digit from 6 to 9 and nine digits. *)
Definition indianPhoneRegex : regex :=
  Cat (Opt (Cat (Chr (N.eqb c_plus))
             (Cat (Chr (N.eqb 57)) (Cat (Chr (N.eqb 49)) (Opt (Chr dash_or_space))))))
    (Cat (Chr is_6_to_9) (Rep 9 (Chr is_digit))).

(** [s.replace] with a one-character class pattern, the global flag and the
    empty replacement. *)
Definition remove_class (cls : char16 -> bool) (s : jsstring) : jsstring :=
  replace_class_g cls (fun _ => []) s.

Definition isValidIndianPhone (phone : jsstring) : bool :=
  test indianPhoneRegex (remove_class is_space phone).

(** The class of whitespace, dash and the two parentheses. *)
Definition phone_separator (c : char16) : bool :=
  is_space c || (c =? c_minus)%N || (c =? 40)%N || (c =? 41)%N.

Definition isValidInternationalPhone (phone : jsstring) : bool :=
  test Checkout.phoneRegex (remove_class phone_separator phone).

Definition isValidPinCode (pin : jsstring) : bool :=
  test Checkout.pincodeRegex pin.

Definition digit_or_upper (c : char16) : bool := is_digit c || is_upper c.
Definition digit19_or_upper (c : char16) : bool := is_digit19 c || is_upper c.

(** [/^[0-9]{2}[A-Z]{5}[0-9]{4}[A-Z]{1}[1-9A-Z]{1}Z[0-9A-Z]{1}$/] *)
Definition gstRegex : regex :=
  Cat (Rep 2 (Chr is_digit))
    (Cat (Rep 5 (Chr is_upper))
      (Cat (Rep 4 (Chr is_digit))
        (Cat (Rep 1 (Chr is_upper))
          (Cat (Rep 1 (Chr digit19_or_upper))
            (Cat (Chr (N.eqb 90)) (Rep 1 (Chr digit_or_upper))))))).

Section Builtins.
(** [String.prototype.toUpperCase], a built-in of the runtime. *)
Variable toUpperCase : jsstring -> jsstring.

Definition isValidGST (gst : jsstring) : bool :=
  test gstRegex (toUpperCase gst).
End Builtins.

End Validators.

(** ** lib/security.ts: login attempts *)

Module Login.
Import JS Security.
Local Open Scope Z_scope.

(** [ENTERPRISE_CONFIG.security] *)
Definition maxLoginAttempts : Z := 5.
Definition lockoutDuration : Z := 15 * 60 * 1000.

(** The object kept in localStorage; [lockedUntil] is optional.  Counts
    and times are integers, which a Number holds exactly. *)
Record LoginData := {
  attempts : Z;
  lastAttempt : Z;
  lockedUntil : option Z
}.

(** What [checkLoginAttempts] returns. *)
Record LoginCheck := {
  allowed : bool;
  attemptsRemaining : Z;
  lockoutUntil : option Z
}.

Definition storageKey (identifier : jsstring) : jsstring :=
  lit "login_attempts_" ++ identifier.

Definition unrestricted : LoginCheck :=
  {| allowed := true; attemptsRemaining := maxLoginAttempts;
     lockoutUntil := None |}.

(** [data.lockedUntil && ...]: an absent value and 0 are falsy. *)
Definition truthy (t : option Z) : bool :=
  match t with
  | Some u => negb (u =? 0)
  | None => false
  end.

Definition or_zero (t : option Z) : Z :=
  match t with Some u => u | None => 0 end.

Section Builtins.
(** [JSON.parse] and [JSON.stringify], built-ins of the runtime, on the
    stored object; [None] is the SyntaxError of [JSON.parse]. *)
Variable JSON_parse : jsstring -> option LoginData.
Variable JSON_stringify : LoginData -> jsstring.

(** [checkLoginAttempts(identifier)].  [now1], [now2] and [now3] are what
    the three calls of [Date.now()] return, each read only when its
    condition is reached; [None] stands for the exception of
    [JSON.parse]. *)
Definition checkLoginAttempts (identifier : jsstring) (now1 now2 now3 : Z)
    (env : Env) : option (LoginCheck * Env) :=
  match env with
  | None => Some (unrestricted, env)
  | Some b =>
      match localStorage b !! storageKey identifier with
      | None => Some (unrestricted, env)
      | Some stored =>
          if falsy stored then Some (unrestricted, env)
          else
            match JSON_parse stored with
            | None => None
            | Some data =>
                if truthy (lockedUntil data)
                   && (now1 <? or_zero (lockedUntil data)) then
                  Some ({| allowed := false; attemptsRemaining := 0;
                           lockoutUntil := lockedUntil data |}, env)
                else if truthy (lockedUntil data)
                        && (or_zero (lockedUntil data) <=? now2) then
                  Some (unrestricted,
                        Some (remove_local (storageKey identifier) b))
                else if lockoutDuration <? now3 - lastAttempt data then
                  Some (unrestricted,
                        Some (remove_local (storageKey identifier) b))
                else
                  Some ({| allowed := attempts data <? maxLoginAttempts;
                           attemptsRemaining :=
                             Z.max 0 (maxLoginAttempts - attempts data);
                           lockoutUntil := None |}, env)
            end
      end
  end.

(** The three readings of [Date.now()] in [recordFailedLogin]: for the
    object made when nothing is stored, for [lastAttempt], and for
    [lockedUntil]. *)
Record Readings := { t_init : Z; t_last : Z; t_lock : Z }.

(** [data.attempts++; data.lastAttempt = ...; if (...) data.lockedUntil = ...] *)
Definition bump (t : Readings) (data : LoginData) : LoginData :=
  let attempts' := attempts data + 1 in
  {| attempts := attempts';
     lastAttempt := t_last t;
     lockedUntil :=
       if maxLoginAttempts <=? attempts'
       then Some (t_lock t + lockoutDuration)
       else lockedUntil data |}.

(** [recordFailedLogin(identifier)] *)
Definition recordFailedLogin (identifier : jsstring) (t : Readings)
    (env : Env) : option Env :=
  match env with
  | None => Some None
  | Some b =>
      let fresh :=
        {| attempts := 0; lastAttempt := t_init t; lockedUntil := None |} in
      let data :=
        match localStorage b !! storageKey identifier with
        | None => Some fresh
        | Some stored =>
            if falsy stored then Some fresh else JSON_parse stored
        end in
      match data with
      | None => None
      | Some data =>
          Some (Some (set_local (storageKey identifier)
                        (JSON_stringify (bump t data)) b))
      end
  end.

(** [clearLoginAttempts(identifier)] *)
Definition clearLoginAttempts (identifier : jsstring) (env : Env) : Env :=
  match env with
  | None => None
  | Some b => Some (remove_local (storageKey identifier) b)
  end.

(** Failed logins recorded one after the other. *)
Fixpoint recordFailedLogins (identifier : jsstring) (ts : list Readings)
    (env : Env) : option Env :=
  match ts with
  | [] => Some env
  | t :: rest =>
      match recordFailedLogin identifier t env with
      | Some env' => recordFailedLogins identifier rest env'
      | None => None
      end
  end.

End Builtins.

End Login.

(** ** Session management: hashString *)

Module Session.
Import JS.

(** [ToInt32]: the value modulo [2^32], as a signed 32-bit integer. *)
Definition to_int32 (z : Z) : Z := ((z + 2 ^ 31) mod 2 ^ 32 - 2 ^ 31)%Z.

(** One turn of the loop of [hashString]:
    [hash = (hash << 5) - hash + char] and then [hash = hash & hash].  The
    shift works on the 32-bit value of [hash] and wraps; the subtraction
    and the addition are exact, their operands being far below [2^53]; the
    bitwise [&] wraps again. *)
Definition hash_step (hash : Z) (char : char16) : Z :=
  to_int32 (to_int32 (to_int32 hash * 2 ^ 5) - hash + Z.of_N char)%Z.

(** The value of [hash] when the loop ends. *)
Definition hash_loop (str : jsstring) : Z := fold_left hash_step str 0%Z.

(** The digits of [toString(36)]: 0 to 9, then a to z. *)
Definition digit36 (d : N) : char16 := (if d <? 10 then 48 + d else 87 + d)%N.

Fixpoint digits36_fuel (fuel : nat) (n : N) (acc : jsstring) : jsstring :=
  match fuel with
  | O => acc
  | S fuel' =>
      let acc' := digit36 (n mod 36) :: acc in
      if (n <? 36)%N then acc' else digits36_fuel fuel' (n / 36) acc'
  end.

(** [n.toString(36)] for a non-negative integer [n]. *)
Definition N_toString36 (n : N) : jsstring :=
  digits36_fuel (S (N.to_nat (N.log2 n))) n [].

(** [hashString(str)]: [Math.abs(hash).toString(36)]. *)
Definition hashString (str : jsstring) : jsstring :=
  N_toString36 (Z.to_N (Z.abs (hash_loop str))).

End Session.

(** ** lib/enterprise-config.ts: the bulk discount *)

Module Config.
Local Open Scope float_scope.

Record BulkDiscount := { minQuantity : float; discount : float }.

(** [ENTERPRISE_CONFIG.pricing.bulkDiscounts] *)
Definition bulkDiscounts : list BulkDiscount :=
  [ {| minQuantity := 500; discount := 5 |};
    {| minQuantity := 1000; discount := 10 |};
    {| minQuantity := 5000; discount := 15 |};
    {| minQuantity := 10000; discount := 20 |} ].

(** [Array.prototype.sort] with a compare function.  The sort is stable,
    and with a consistent compare function its result does not depend on
    the algorithm; this is insertion sort, an element going after the ones
    the compare function puts before it. *)
Fixpoint insert_sorted {A} (compareFn : A -> A -> float) (x : A) (l : list A)
    : list A :=
  match l with
  | [] => [x]
  | y :: rest =>
      if 0 <? compareFn x y then y :: insert_sorted compareFn x rest
      else x :: l
  end.

Definition sort {A} (compareFn : A -> A -> float) (l : list A) : list A :=
  fold_right (insert_sorted compareFn) [] l.

(** [getBulkDiscount(quantity)] *)
Definition getBulkDiscount (quantity : float) : float :=
  let discounts :=
    sort (fun a b => minQuantity b - minQuantity a) bulkDiscounts in
  let applicable :=
    List.find (fun d => minQuantity d <=? quantity) discounts in
  match applicable with
  | Some d => discount d
  | None => 0
  end.

End Config.

(** ** The checkout page: what the rendered page lets the user do *)

Module CheckoutPage.
Import JS Checkout.

(** The value the [orderData] cell starts with. *)
Definition initial_orderData : OrderData :=
  {| billingAddress :=
       {| b_firstName := []; b_lastName := []; b_company := [];
          b_address := []; b_city := []; b_state := []; b_pincode := [];
          b_phone := []; b_email := [] |};
     shippingAddress :=
       {| s_firstName := []; s_lastName := []; s_company := [];
          s_address := []; s_city := []; s_state := []; s_pincode := [];
          s_phone := [] |};
     sameAsBilling := true;
     paymentMethod := lit "cod";
     specialInstructions := [];
     agreedToTerms := false |}.

(** The page once the mount effect has run: the cart is what was read from
    localStorage, and the error is set when reading it failed. *)
Definition initial_page (items : list CartItem) (err : option string)
    : PageState :=
  {| cartItems := items; orderData := initial_orderData;
     error := err; activeStep := 1 |}.

(** [setOrderData((prev) => update(prev))] *)
Definition setOrderData (update : OrderData -> OrderData) (st : PageState)
    : PageState :=
  {| cartItems := cartItems st; orderData := update (orderData st);
     error := error st; activeStep := activeStep st |}.

(** The keys of [billingAddress] that the inputs of step 1 write. *)
Inductive BillingKey :=
| firstName | lastName | company | address | city | state | pincode
| phone | email.

(** [{ ...billing, [field]: value }] *)
Definition with_key (field : BillingKey) (value : jsstring)
    (b : BillingAddress) : BillingAddress :=
  {| b_firstName := match field with firstName => value | _ => b_firstName b end;
     b_lastName := match field with lastName => value | _ => b_lastName b end;
     b_company := match field with company => value | _ => b_company b end;
     b_address := match field with address => value | _ => b_address b end;
     b_city := match field with city => value | _ => b_city b end;
     b_state := match field with state => value | _ => b_state b end;
     b_pincode := match field with pincode => value | _ => b_pincode b end;
     b_phone := match field with phone => value | _ => b_phone b end;
     b_email := match field with email => value | _ => b_email b end |}.

(** [handleInputChange(section, field, value)] for the section
    billingAddress, the one every call of the page passes. *)
Definition handleInputChange (field : BillingKey) (value : jsstring)
    (st : PageState) : PageState :=
  setError None
    (setOrderData
       (fun prev =>
          {| billingAddress := with_key field value (billingAddress prev);
             shippingAddress := shippingAddress prev;
             sameAsBilling := sameAsBilling prev;
             paymentMethod := paymentMethod prev;
             specialInstructions := specialInstructions prev;
             agreedToTerms := agreedToTerms prev |}) st).

Definition set_paymentMethod (method : jsstring) (prev : OrderData)
    : OrderData :=
  {| billingAddress := billingAddress prev;
     shippingAddress := shippingAddress prev;
     sameAsBilling := sameAsBilling prev;
     paymentMethod := method;
     specialInstructions := specialInstructions prev;
     agreedToTerms := agreedToTerms prev |}.

Definition set_specialInstructions (text : jsstring) (prev : OrderData)
    : OrderData :=
  {| billingAddress := billingAddress prev;
     shippingAddress := shippingAddress prev;
     sameAsBilling := sameAsBilling prev;
     paymentMethod := paymentMethod prev;
     specialInstructions := text;
     agreedToTerms := agreedToTerms prev |}.

Definition set_agreedToTerms (checked : bool) (prev : OrderData)
    : OrderData :=
  {| billingAddress := billingAddress prev;
     shippingAddress := shippingAddress prev;
     sameAsBilling := sameAsBilling prev;
     paymentMethod := paymentMethod prev;
     specialInstructions := specialInstructions prev;
     agreedToTerms := checked |}.

(** The synchronous part of [handleSubmitOrder]: [validateForm], and when
    it passes, the error is cleared and processing starts.  The Boolean
    tells whether processing starts. *)
Definition handleSubmitOrder (st : PageState) : bool * PageState :=
  let '(ok, st') := validateForm st in
  if ok then (true, setError None st') else (false, st').

Inductive PaymentMethod := cod | online | bank.

Definition method_name (m : PaymentMethod) : jsstring :=
  match m with
  | cod => lit "cod"
  | online => lit "online"
  | bank => lit "bank"
  end.

(** The handlers the rendered page wires to its controls. *)
Inductive Action :=
| Input (field : BillingKey) (value : jsstring)
| ContinueToPayment
| EditShipping
| SelectPayment (method : PaymentMethod)
| ReviewOrder
| EditPayment
| SpecialInstructions (text : jsstring)
| Terms (checked : bool)
| PlaceOrder.

(** Whether the control is on the page and enabled: nothing of the form
    is rendered for an empty cart, each step card only at its step, the
    order summary with the terms box and the Place Order button at every
    step, the button disabled until the terms are agreed to. *)
Definition offered (a : Action) (st : PageState) : bool :=
  negb (List.length (cartItems st) =? 0)%nat
  && match a with
     | Input _ _ | ContinueToPayment => (activeStep st =? 1)%nat
     | EditShipping | SelectPayment _ | ReviewOrder => (activeStep st =? 2)%nat
     | EditPayment | SpecialInstructions _ => (activeStep st =? 3)%nat
     | Terms _ => true
     | PlaceOrder => agreedToTerms (orderData st)
     end.

Definition handle (a : Action) (st : PageState) : PageState :=
  match a with
  | Input field value => handleInputChange field value st
  | ContinueToPayment => continueToPayment st
  | EditShipping => setActiveStep 1 st
  | SelectPayment method => setOrderData (set_paymentMethod (method_name method)) st
  | ReviewOrder => setActiveStep 3 st
  | EditPayment => setActiveStep 2 st
  | SpecialInstructions text => setOrderData (set_specialInstructions text) st
  | Terms checked => setOrderData (set_agreedToTerms checked) st
  | PlaceOrder => snd (handleSubmitOrder st)
  end.

(** One user action: it has an effect only when its control is offered. *)
Definition dispatch (st : PageState) (a : Action) : PageState :=
  if offered a st then handle a st else st.

Definition run (actions : list Action) (st : PageState) : PageState :=
  fold_left dispatch actions st.

End CheckoutPage.

(** ** The specification's wording, for comparison with the code *)

Module Stated.
Import JS.

(** The six entities of [sanitizeHtml]. *)
Definition entities : list jsstring :=
  [ lit "&amp;"; lit "&lt;"; lit "&gt;"; lit "&quot;"; lit "&#x27;";
    lit "&#x2F;" ].

(** Each of the six characters is replaced by its entity, every other
    character is left unchanged. *)
Definition escape_char (c : char16) : jsstring :=
  if (c =? c_amp)%N then lit "&amp;"
  else if (c =? c_lt)%N then lit "&lt;"
  else if (c =? c_gt)%N then lit "&gt;"
  else if (c =? c_dquote)%N then lit "&quot;"
  else if (c =? c_squote)%N then lit "&#x27;"
  else if (c =? c_slash)%N then lit "&#x2F;"
  else [c].

Definition escaped (s : jsstring) : jsstring := flat_map escape_char s.

(** The character classes of the password rules. *)
Definition uppercase_letter (c : char16) : Prop := (65 <= c <= 90)%N.
Definition lowercase_letter (c : char16) : Prop := (97 <= c <= 122)%N.
Definition digit (c : char16) : Prop := (48 <= c <= 57)%N.
Definition special_character (c : char16) : Prop :=
  c ∈ lit "!@#$%^&*(),.?" ++ [c_dquote] ++ lit ":{}|<>".

(** The password contains at least one character of the class. *)
Definition contains (cls : char16 -> Prop) (password : jsstring) : Prop :=
  exists c, c ∈ password /\ cls c.

(** Length contributes up to 3 points, at the thresholds 8, 12 and 16. *)
Definition length_points (n : nat) : nat :=
  (if 8 <=? n then 1 else 0) + (if 12 <=? n then 1 else 0)
  + (if 16 <=? n then 1 else 0).

(** The conditions of the checkout form. *)
Definition billing_complete (b : Checkout.BillingAddress) : Prop :=
  Checkout.b_firstName b <> [] /\ Checkout.b_lastName b <> []
  /\ Checkout.b_address b <> [] /\ Checkout.b_city b <> []
  /\ Checkout.b_state b <> [] /\ Checkout.b_pincode b <> []
  /\ Checkout.b_phone b <> [] /\ Checkout.b_email b <> [].

Definition shipping_complete (a : Checkout.ShippingAddress) : Prop :=
  Checkout.s_firstName a <> [] /\ Checkout.s_lastName a <> []
  /\ Checkout.s_address a <> [] /\ Checkout.s_city a <> []
  /\ Checkout.s_state a <> [] /\ Checkout.s_pincode a <> []
  /\ Checkout.s_phone a <> [].

(** A string with all non-digit characters removed. *)
Definition digits_only (s : jsstring) : jsstring := List.filter is_digit s.

Definition form_valid (od : Checkout.OrderData) : Prop :=
  let b := Checkout.billingAddress od in
  let a := Checkout.shippingAddress od in
  billing_complete b
  /\ (Checkout.sameAsBilling od = false -> shipping_complete a)
  /\ Regex.matches Checkout.emailRegex (Checkout.b_email b)
  /\ Regex.matches Checkout.phoneRegex (digits_only (Checkout.b_phone b))
  /\ (Checkout.sameAsBilling od = false ->
      Regex.matches Checkout.phoneRegex (digits_only (Checkout.s_phone a)))
  /\ Regex.matches Checkout.pincodeRegex (Checkout.b_pincode b)
  /\ (Checkout.sameAsBilling od = false ->
      Regex.matches Checkout.pincodeRegex (Checkout.s_pincode a))
  /\ Checkout.agreedToTerms od = true.

(** A call at [now] comes more than [windowMs] after the first request of
    the window. *)
Definition more_than_window_after (windowMs : float) (first now : Z) : bool :=
  (windowMs <? of_Z (now - first))%float.

(** The count [c] has reached [maxRequests]. *)
Definition reached (maxRequests : float) (c : nat) : bool :=
  (maxRequests <=? of_Z (Z.of_nat c))%float.

(** The window of each call of one identifier, read off the times of its
    calls alone: the first request of the window and the place of the call
    in it.  The first call opens a window, and so does a call that comes
    more than [windowMs] after the first request of the current window. *)
Fixpoint windows (windowMs : float) (current : option (Z * nat))
    (times : list Z) : list (Z * nat) :=
  match times with
  | [] => []
  | t :: rest =>
      let window :=
        match current with
        | Some (first, place) =>
            if more_than_window_after windowMs first t then (t, 1%nat)
            else (first, S place)
        | None => (t, 1%nat)
        end in
      window :: windows windowMs (Some window) rest
  end.

(** The call at a place of its window is granted when the count had not
    reached [maxRequests] at any of the calls of the window before it. *)
Definition granted (maxRequests : float) (place : nat) : bool :=
  forallb (fun c => negb (reached maxRequests c)) (seq 1 (place - 1)).

(** The answer to a call, from its window: a granted call leaves
    [maxRequests] less the number of calls granted so far, a refused one
    leaves 0, and the reset time is the first request plus [windowMs]. *)
Definition answer (maxRequests windowMs : float) (window : Z * nat)
    : Security.RateLimitResult :=
  let '(first, place) := window in
  if granted maxRequests place then
    {| Security.allowed := true;
       Security.remaining := (maxRequests - of_Z (Z.of_nat place))%float;
       Security.resetTime := (of_Z first + windowMs)%float |}
  else
    {| Security.allowed := false;
       Security.remaining := 0%float;
       Security.resetTime := (of_Z first + windowMs)%float |}.

(** The times of the calls of one identifier, and the answers they got. *)
Definition times_of (id : jsstring) (calls : list (jsstring * Z)) : list Z :=
  map snd (List.filter (fun c => bool_decide (fst c = id)) calls).

Definition answers_to (id : jsstring) (calls : list (jsstring * Z))
    (results : list Security.RateLimitResult)
    : list Security.RateLimitResult :=
  map snd
    (List.filter (fun cr => bool_decide (fst (fst cr) = id))
       (combine calls results)).

(** The sum of the terms, taken from left to right. *)
Fixpoint sum_left (acc : float) (terms : list float) : float :=
  match terms with
  | [] => acc
  | t :: rest => sum_left (acc + t)%float rest
  end.

(** The price of an item as a number: a price held as a string is parsed,
    a price held as a number is taken as it is. *)
Definition price_as_number (parseFloat : jsstring -> float)
    (item : Checkout.CartItem) : float :=
  match Checkout.price item with
  | Checkout.PriceString s => parseFloat s
  | Checkout.PriceNumber x => x
  end.

(** The subtotal: the sum over the items of the price, parsed as a number,
    times the quantity. *)
Definition subtotal (parseFloat : jsstring -> float)
    (items : list Checkout.CartItem) : float :=
  sum_left 0%float
    (map (fun item =>
            (price_as_number parseFloat item * Checkout.quantity item)%float)
       items).

(** A child is named for a step when its [userData] has a name, not the
    empty string, in which the name of the step occurs. *)
Definition named_for_step (child : Box3D.Object3D) (step : jsstring) : Prop :=
  exists name before after,
    Box3D.userData_name child = Some name
    /\ name <> [] /\ name = before ++ step ++ after.

(** The progress of step [i] of [n] at animation progress [p]. *)
Definition step_progress (p : float) (n i : nat) : float :=
  (p * of_Z (Z.of_nat n) - of_Z (Z.of_nat i))%float.

(** The step is under way: its progress is above 0 and at most 1. *)
Definition under_way (p : float) (n i : nat) : Prop :=
  (0 <? step_progress p n i)%float = true
  /\ (step_progress p n i <=? 1)%float = true.

(** The entry the overlay shows at a step index: the entry of the sequence
    at a whole index inside it, Complete otherwise. *)
Definition shown_entry (sequence : list jsstring) (index : float) : jsstring :=
  match to_integer index with
  | Some k =>
      if (0 <=? k)%Z
      then nth (Z.to_nat k) sequence (lit "Complete")
      else lit "Complete"
  | None => lit "Complete"
  end.

(** The styles whose generator is a placeholder. *)
Definition placeholder_styles : list jsstring :=
  [ lit "drawer"; lit "folding"; lit "gableTop"; lit "pillow"; lit "tuckEnd";
    lit "hingedLid" ].

End Stated.

(* ===================================================================== *)
(** * Part II: the properties *)
(* ===================================================================== *)

Import JS.

Example sanitize_script :
  Security.sanitizeHtml (lit "<a href='x'>&</a>")
  = lit "&lt;a href=&#x27;x&#x27;&gt;&amp;&lt;&#x2F;a&gt;".
Proof. reflexivity. Qed.

Example password_ok :
  let r := Security.validatePassword (lit "Abcdef1!") in
  (Security.isValid r, Security.score r, Security.strength r)
  = (true, 5, Security.strong).
Proof. reflexivity. Qed.

Example password_short :
  let r := Security.validatePassword (lit "Ab1!") in
  (Security.isValid r, Security.score r, Security.errors r)
  = (false, 4, ["Password must be at least 8 characters"%string]).
Proof. reflexivity. Qed.

(** ** sanitizeHtml *)

Section SanitizeHtml.
Import Security Stated.

Ltac case_char c k :=
  destruct (N.eqb_spec c k) as [-> | ?]; [ | ].

Lemma replacer_is_escape_char (c : char16) :
  (if html_special c then or_else (get_prop htmlEntities c) [c] else [c])
  = escape_char c.
Proof.
  unfold escape_char.
  destruct (N.eqb_spec c c_amp) as [-> | Hamp]; [reflexivity | ].
  destruct (N.eqb_spec c c_lt) as [-> | Hlt]; [reflexivity | ].
  destruct (N.eqb_spec c c_gt) as [-> | Hgt]; [reflexivity | ].
  destruct (N.eqb_spec c c_dquote) as [-> | Hdq]; [reflexivity | ].
  destruct (N.eqb_spec c c_squote) as [-> | Hsq]; [reflexivity | ].
  destruct (N.eqb_spec c c_slash) as [-> | Hsl]; [reflexivity | ].
  unfold html_special, in_class; simpl.
  rewrite !(proj2 (N.eqb_neq c _)) by assumption.
  reflexivity.
Qed.

Lemma sanitizeHtml_escaped (input : jsstring) :
  sanitizeHtml input = escaped input.
Proof.
  unfold sanitizeHtml, escaped.
  induction input as [| c rest IH]; [reflexivity | ].
  cbn [replace_class_g flat_map]. rewrite IH. f_equal.
  apply replacer_is_escape_char.
Qed.

(** What one input character turns into: itself when it is none of the six
    (so in particular not an ampersand), an entity otherwise. *)
Lemma escape_char_cases (c : char16) :
  (escape_char c = [c] /\ html_special c = false)
  \/ (escape_char c ∈ entities).
Proof.
  unfold escape_char.
  destruct (N.eqb_spec c c_amp) as [-> | Hamp]; [right; set_solver | ].
  destruct (N.eqb_spec c c_lt) as [-> | Hlt]; [right; set_solver | ].
  destruct (N.eqb_spec c c_gt) as [-> | Hgt]; [right; set_solver | ].
  destruct (N.eqb_spec c c_dquote) as [-> | Hdq]; [right; set_solver | ].
  destruct (N.eqb_spec c c_squote) as [-> | Hsq]; [right; set_solver | ].
  destruct (N.eqb_spec c c_slash) as [-> | Hsl]; [right; set_solver | ].
  left. split; [reflexivity | ].
  unfold html_special, in_class; simpl.
  rewrite !(proj2 (N.eqb_neq c _)) by assumption.
  reflexivity.
Qed.

Definition raw_markup (c : char16) : bool :=
  in_class [c_lt; c_gt; c_dquote; c_squote; c_slash] c.

Lemma entity_has_no_markup (e : jsstring) :
  e ∈ entities -> forallb (fun c => negb (raw_markup c)) e = true.
Proof.
  unfold entities. intros He.
  repeat (apply elem_of_cons in He as [-> | He]; [reflexivity | ]).
  inversion He.
Qed.

Lemma not_special_no_markup (c : char16) :
  html_special c = false -> raw_markup c = false.
Proof.
  unfold html_special, raw_markup, in_class. simpl.
  intros H. repeat (apply orb_false_elim in H as [? H]).
  repeat (apply orb_false_intro; try assumption).
Qed.

Lemma escaped_no_markup (input : jsstring) :
  forallb (fun c => negb (raw_markup c)) (escaped input) = true.
Proof.
  unfold escaped.
  induction input as [| c rest IH]; [reflexivity | ].
  cbn [flat_map]. rewrite forallb_app, IH, andb_true_r.
  destruct (escape_char_cases c) as [[-> Hc] | He].
  - cbn [forallb]. rewrite (not_special_no_markup _ Hc). reflexivity.
  - apply entity_has_no_markup, He.
Qed.

Lemma starts_with_app (e rest : jsstring) : starts_with e (e ++ rest) = true.
Proof.
  induction e as [| c e IH]; [reflexivity | ].
  simpl. rewrite N.eqb_refl. exact IH.
Qed.

(** An ampersand of the output starts an entity. *)
Definition amp_starts_entity (out : jsstring) : Prop :=
  forall i, out !! i = Some c_amp ->
    exists e, e ∈ entities /\ starts_with e (drop i out) = true.

Lemma amp_starts_entity_cons (c : char16) (out : jsstring) :
  c <> c_amp -> amp_starts_entity out -> amp_starts_entity (c :: out).
Proof.
  intros Hc IH [| i] Hi; simpl in Hi.
  - congruence.
  - exact (IH i Hi).
Qed.

Lemma amp_starts_entity_entity (e out : jsstring) :
  e ∈ entities -> amp_starts_entity out -> amp_starts_entity (e ++ out).
Proof.
  unfold entities. intros He IH.
  assert (Hhead : exists e', e' ∈ entities /\ starts_with e' (e ++ out) = true).
  { exists e. split; [exact He | apply starts_with_app]. }
  repeat (apply elem_of_cons in He as [-> | He];
    [ intros i Hi;
      repeat (destruct i as [| i];
        [ first [ exact Hhead | discriminate Hi ] | ]);
      exact (IH i Hi)
    | ]).
  inversion He.
Qed.

Lemma escaped_amp (input : jsstring) : amp_starts_entity (escaped input).
Proof.
  unfold escaped.
  induction input as [| c rest IH].
  - intros i Hi. destruct i; discriminate Hi.
  - cbn [flat_map]. destruct (escape_char_cases c) as [[-> Hc] | He].
    + apply (amp_starts_entity_cons c); [ | exact IH].
      intros ->. discriminate Hc.
    + apply amp_starts_entity_entity; assumption.
Qed.

(** C6.  [sanitizeHtml] replaces each of the six characters ampersand,
    less-than, greater-than, double quote, single quote and slash by its
    entity and copies every other character; so its output holds none of
    the raw characters less-than, greater-than, double quote, single quote
    and slash, and every ampersand of the output begins one of the six
    entities. *)
Theorem sanitizeHtml_escapes (input : jsstring) :
  sanitizeHtml input = escaped input
  /\ (forall c, c ∈ sanitizeHtml input ->
        c <> c_lt /\ c <> c_gt /\ c <> c_dquote /\ c <> c_squote
        /\ c <> c_slash)
  /\ (forall i, sanitizeHtml input !! i = Some c_amp ->
        exists e, e ∈ entities
                  /\ starts_with e (drop i (sanitizeHtml input)) = true).
Proof.
  rewrite sanitizeHtml_escaped. split; [reflexivity | split].
  - intros c Hc.
    pose proof (escaped_no_markup input) as Hall.
    rewrite forallb_forall in Hall.
    apply list_elem_of_In in Hc. specialize (Hall c Hc).
    apply negb_true_iff in Hall.
    unfold raw_markup, in_class in Hall. simpl in Hall.
    repeat (apply orb_false_elim in Hall as [? Hall]).
    repeat split; intros ->; discriminate.
  - apply escaped_amp.
Qed.

End SanitizeHtml.

(** ** validatePassword *)

Section ValidatePassword.
Import Security Stated.

Lemma in_range_spec (lo hi c : char16) :
  in_range lo hi c = true <-> (lo <= c <= hi)%N.
Proof.
  unfold in_range. rewrite andb_true_iff, !N.leb_le. reflexivity.
Qed.

Lemma in_class_spec (members : jsstring) (c : char16) :
  in_class members c = true <-> c ∈ members.
Proof.
  unfold in_class. rewrite existsb_exists. split.
  - intros (d & Hd & Heq). apply N.eqb_eq in Heq. subst d.
    apply list_elem_of_In, Hd.
  - intros Hc. exists c. split; [apply list_elem_of_In, Hc | apply N.eqb_refl].
Qed.

Lemma test_class_contains (cls : char16 -> bool) (P : char16 -> Prop)
    (password : jsstring) :
  (forall c, cls c = true <-> P c) ->
  test_class cls password = true <-> contains P password.
Proof.
  intros Hcls. unfold test_class, contains. rewrite existsb_exists.
  split; intros (c & Hc & Hp); exists c.
  - split; [apply list_elem_of_In, Hc | apply Hcls, Hp].
  - split; [apply list_elem_of_In, Hc | apply Hcls, Hp].
Qed.

Definition point (b : bool) : nat := if b then 1 else 0.

(** The result of [validatePassword] in terms of the five tests. *)
Lemma validatePassword_tests (password : jsstring) :
  let r := validatePassword password in
  isValid r
  = (8 <=? List.length password) && test_class is_upper password
    && test_class is_lower password && test_class is_digit password
    && test_class is_special password
  /\ score r
     = length_points (List.length password)
       + point (test_class is_upper password)
       + point (test_class is_lower password)
       + point (test_class is_digit password)
       + point (test_class is_special password)
  /\ strength r = strength_of (score r).
Proof.
  unfold validatePassword, validatePassword_with, check_length, check_class,
    length_points, passwordPolicy.
  cbn [minLength requireUppercase requireLowercase requireNumber
       requireSpecialChar].
  destruct (Nat.ltb_spec (List.length password) 8) as [H8 | H8];
    destruct (Nat.leb_spec 8 (List.length password)) as [H8' | H8'];
    try lia;
    destruct (Nat.leb_spec 12 (List.length password)) as [H12 | H12];
    destruct (Nat.leb_spec 16 (List.length password)) as [H16 | H16];
    try lia;
    destruct (test_class is_upper password),
             (test_class is_lower password),
             (test_class is_digit password),
             (test_class is_special password);
    repeat split.
Qed.

Lemma length_points_le (n : nat) : length_points n <= 3.
Proof.
  unfold length_points.
  destruct (8 <=? n), (12 <=? n), (16 <=? n); simpl; lia.
Qed.

Lemma point_le (b : bool) : point b <= 1.
Proof. destruct b; simpl; lia. Qed.

Lemma strength_of_bands (sc : nat) :
  (strength_of sc = weak <-> sc <= 2)
  /\ (strength_of sc = medium <-> 3 <= sc <= 4)
  /\ (strength_of sc = strong <-> 5 <= sc <= 6)
  /\ (strength_of sc = very_strong <-> 7 <= sc).
Proof.
  unfold strength_of.
  destruct (Nat.leb_spec sc 2), (Nat.leb_spec sc 4), (Nat.leb_spec sc 6);
    repeat split; intros; first [ discriminate | reflexivity | lia ].
Qed.

(** C7.  [validatePassword] accepts a password exactly when it has at
    least 8 characters and contains an uppercase letter, a lowercase letter,
    a digit and a special character; the score is at most 7, made of up to
    3 points for the length (thresholds 8, 12, 16) and one point per
    character class present; and the strength is weak for a score up to 2,
    medium for 3 or 4, strong for 5 or 6 and very-strong for 7. *)
Theorem validatePassword_spec (password : jsstring) :
  let r := validatePassword password in
  (isValid r = true <->
     8 <= List.length password
     /\ contains uppercase_letter password
     /\ contains lowercase_letter password
     /\ contains digit password
     /\ contains special_character password)
  /\ score r
     = length_points (List.length password)
       + point (test_class is_upper password)
       + point (test_class is_lower password)
       + point (test_class is_digit password)
       + point (test_class is_special password)
  /\ 0 <= score r <= 7
  /\ (strength r = weak <-> score r <= 2)
  /\ (strength r = medium <-> 3 <= score r <= 4)
  /\ (strength r = strong <-> 5 <= score r <= 6)
  /\ (strength r = very_strong <-> score r = 7).
Proof.
  intros r.
  destruct (validatePassword_tests password) as (Hvalid & Hscore & Hstrength).
  fold r in Hvalid, Hscore, Hstrength.
  assert (Hle : score r <= 7).
  { rewrite Hscore.
    pose proof (length_points_le (List.length password)).
    pose proof (point_le (test_class is_upper password)).
    pose proof (point_le (test_class is_lower password)).
    pose proof (point_le (test_class is_digit password)).
    pose proof (point_le (test_class is_special password)).
    lia. }
  split; [ | split; [exact Hscore | split; [lia | ]]].
  - rewrite Hvalid, !andb_true_iff, Nat.leb_le.
    rewrite (test_class_contains is_upper uppercase_letter)
      by (intros c; apply in_range_spec).
    rewrite (test_class_contains is_lower lowercase_letter)
      by (intros c; apply in_range_spec).
    rewrite (test_class_contains is_digit digit)
      by (intros c; apply in_range_spec).
    rewrite (test_class_contains is_special special_character)
      by (intros c; apply in_class_spec).
    tauto.
  - rewrite Hstrength.
    destruct (strength_of_bands (score r)) as (Hw & Hm & Hs & Hv).
    repeat split; try tauto; try lia.
    + intros H. apply Hv in H. lia.
    + intros H. apply Hv. lia.
Qed.

End ValidatePassword.

(** ** Regular expressions: the matcher decides the language *)

Section RegexFacts.
Import Regex.

Lemma matches_cat_inv (r1 r2 : regex) (s : jsstring) :
  matches (Cat r1 r2) s ->
  exists s1 s2, s = s1 ++ s2 /\ matches r1 s1 /\ matches r2 s2.
Proof. intros H. inversion H; subst. eauto. Qed.

Lemma matches_alt_inv (r1 r2 : regex) (s : jsstring) :
  matches (Alt r1 r2) s -> matches r1 s \/ matches r2 s.
Proof. intros H. inversion H; subst; auto. Qed.

Lemma matches_star_cons (r : regex) (c : char16) (s : jsstring) :
  matches (Star r) (c :: s) ->
  exists s1 s2, s = s1 ++ s2 /\ matches r (c :: s1) /\ matches (Star r) s2.
Proof.
  intros H. remember (Star r) as r' eqn:Hr. remember (c :: s) as cs eqn:Hcs.
  induction H as [ | | | | | | r0 s1 s2 H1 _ H2 IH2]; try discriminate.
  injection Hr as ->.
  destruct s1 as [| c1 s1].
  - apply IH2; [reflexivity | exact Hcs].
  - simpl in Hcs. injection Hcs as -> <-. eauto.
Qed.

Lemma nullable_spec (r : regex) : nullable r = true <-> matches r [].
Proof.
  induction r as [ | | cls | r1 IH1 r2 IH2 | r1 IH1 r2 IH2 | r IH]; simpl.
  - split; [discriminate | intros H; inversion H].
  - split; [intros _; constructor | reflexivity].
  - split; [discriminate | intros H; inversion H].
  - rewrite andb_true_iff, IH1, IH2. split.
    + intros [H1 H2]. exact (m_cat _ _ [] [] H1 H2).
    + intros H. apply matches_cat_inv in H as (s1 & s2 & Heq & H1 & H2).
      symmetry in Heq. apply app_eq_nil in Heq as [-> ->]. auto.
  - rewrite orb_true_iff, IH1, IH2. split.
    + intros [H | H]; [apply m_alt_l | apply m_alt_r]; exact H.
    + apply matches_alt_inv.
  - split; [intros _; constructor | reflexivity].
Qed.

Lemma deriv_spec (r : regex) (c : char16) (s : jsstring) :
  matches (deriv c r) s <-> matches r (c :: s).
Proof.
  revert s.
  induction r as [ | | cls | r1 IH1 r2 IH2 | r1 IH1 r2 IH2 | r IH];
    intros s; simpl.
  - split; intros H; inversion H.
  - split; intros H; inversion H.
  - destruct (cls c) eqn:Hc; split; intros H; inversion H; subst.
    + constructor. exact Hc.
    + constructor.
    + congruence.
  - assert (Hcat : matches (Cat (deriv c r1) r2) s <->
                   exists s1 s2, s = s1 ++ s2 /\ matches r1 (c :: s1)
                                 /\ matches r2 s2).
    { split.
      - intros H. apply matches_cat_inv in H as (s1 & s2 & -> & H1 & H2).
        exists s1, s2. rewrite <- IH1. auto.
      - intros (s1 & s2 & -> & H1 & H2). constructor; [apply IH1, H1 | exact H2]. }
    assert (Hsplit : matches (Cat r1 r2) (c :: s) <->
                     (exists s1 s2, s = s1 ++ s2 /\ matches r1 (c :: s1)
                                    /\ matches r2 s2)
                     \/ (matches r1 [] /\ matches r2 (c :: s))).
    { split.
      - intros H. apply matches_cat_inv in H as (s1 & s2 & Heq & H1 & H2).
        destruct s1 as [| c1 s1].
        + simpl in Heq. subst s2. right. auto.
        + simpl in Heq. injection Heq as <- ->. left. eauto.
      - intros [(s1 & s2 & -> & H1 & H2) | [H1 H2]].
        + exact (m_cat _ _ (c :: s1) s2 H1 H2).
        + exact (m_cat _ _ [] (c :: s) H1 H2). }
    rewrite Hsplit.
    destruct (nullable r1) eqn:Hn.
    + split.
      * intros H. apply matches_alt_inv in H as [H | H].
        -- left. apply Hcat, H.
        -- right. split; [apply nullable_spec, Hn | apply IH2, H].
      * intros [H | [_ H]].
        -- apply m_alt_l, Hcat, H.
        -- apply m_alt_r, IH2, H.
    + rewrite Hcat. split; [auto | ].
      intros [H | [H _]]; [exact H | ].
      apply nullable_spec in H. congruence.
  - split.
    + intros H. apply matches_alt_inv in H as [H | H].
      * apply m_alt_l, IH1, H.
      * apply m_alt_r, IH2, H.
    + intros H. apply matches_alt_inv in H as [H | H].
      * apply m_alt_l, IH1, H.
      * apply m_alt_r, IH2, H.
  - split.
    + intros H. apply matches_cat_inv in H as (s1 & s2 & -> & H1 & H2).
      exact (m_star_cons r (c :: s1) s2 (proj1 (IH s1) H1) H2).
    + intros H. apply matches_star_cons in H as (s1 & s2 & -> & H1 & H2).
      constructor; [apply IH, H1 | exact H2].
Qed.

(** The matcher accepts exactly the strings of the pattern. *)
Lemma test_matches (r : regex) (s : jsstring) :
  test r s = true <-> matches r s.
Proof.
  revert r. induction s as [| c s IH]; intros r; simpl.
  - apply nullable_spec.
  - rewrite IH. apply deriv_spec.
Qed.

End RegexFacts.

(** ** Checkout: validateForm *)

Section ValidateForm.
Import Regex Checkout Stated.

Lemma falsy_spec (s : jsstring) : falsy s = false <-> s <> [].
Proof. destruct s; simpl; split; congruence. Qed.

Lemma first_missing_none {A} (fields : list ((A -> jsstring) * string)) (a : A) :
  first_missing fields a = None <-> Forall (fun f => fst f a <> []) fields.
Proof.
  induction fields as [| [get name] rest IH]; simpl.
  - split; [constructor | reflexivity].
  - rewrite Forall_cons. simpl. destruct (get a) eqn:Hget; simpl.
    + split; [discriminate | intros [H _]; congruence].
    + rewrite IH. split; [intros H; split; [discriminate | exact H] | tauto].
Qed.

Lemma billing_fields_complete (b : BillingAddress) :
  first_missing requiredBillingFields b = None <-> billing_complete b.
Proof.
  rewrite first_missing_none. unfold requiredBillingFields, billing_complete.
  rewrite !Forall_cons, Forall_nil. simpl. tauto.
Qed.

Lemma shipping_fields_complete (a : ShippingAddress) :
  first_missing requiredShippingFields a = None <-> shipping_complete a.
Proof.
  rewrite first_missing_none. unfold requiredShippingFields, shipping_complete.
  rewrite !Forall_cons, Forall_nil. simpl. tauto.
Qed.

Lemma strip_non_digits_filter (s : jsstring) :
  strip_non_digits s = digits_only s.
Proof.
  unfold strip_non_digits, digits_only.
  induction s as [| c s IH]; [reflexivity | ].
  cbn [replace_class_g List.filter]. rewrite IH.
  destruct (is_digit c); reflexivity.
Qed.

Definition is_none {A} (o : option A) : bool :=
  match o with None => true | Some _ => false end.

Ltac form_branch :=
  cbn [fst snd fail setError error orderData activeStep andb orb negb is_none];
  eauto 6.

(** The verdict of [validateForm] as one Boolean formula over its tests, and
    the error it leaves. *)
Lemma validateForm_tests (st : PageState) :
  let od := orderData st in
  let b := billingAddress od in
  let a := shippingAddress od in
  fst (validateForm st)
  = is_none (first_missing requiredBillingFields b)
    && (sameAsBilling od || is_none (first_missing requiredShippingFields a))
    && test emailRegex (b_email b)
    && test phoneRegex (strip_non_digits (b_phone b))
    && (sameAsBilling od || test phoneRegex (strip_non_digits (s_phone a)))
    && test pincodeRegex (b_pincode b)
    && (sameAsBilling od || test pincodeRegex (s_pincode a))
    && agreedToTerms od
  /\ (if fst (validateForm st)
      then error (snd (validateForm st)) = None
      else exists msg, error (snd (validateForm st)) = Some msg)
  /\ orderData (snd (validateForm st)) = orderData st
  /\ activeStep (snd (validateForm st)) = activeStep st.
Proof.
  unfold validateForm.
  destruct (first_missing requiredBillingFields _) as [nb | ];
    [form_branch | ].
  destruct (sameAsBilling (orderData st));
    [ | destruct (first_missing requiredShippingFields _) as [ns | ];
        [form_branch | ] ];
    (destruct (test emailRegex _); [ | form_branch ]);
    (destruct (test phoneRegex (strip_non_digits (b_phone _)));
       [ | form_branch ]);
    try (destruct (test phoneRegex (strip_non_digits (s_phone _)));
           [ | form_branch ]);
    (destruct (test pincodeRegex (b_pincode _)); [ | form_branch ]);
    try (destruct (test pincodeRegex (s_pincode _)); [ | form_branch ]);
    destruct (agreedToTerms _); form_branch.
Qed.

(** C3.  [validateForm] returns true exactly when every required billing
    field is non-empty, every required shipping field is non-empty unless
    shipping is the same as billing, the billing email matches the email
    pattern, the billing phone (and the shipping phone unless same as
    billing) matches the phone pattern once its non-digits are removed, the
    billing pincode (and the shipping pincode unless same as billing) matches
    the pincode pattern, and the terms are agreed to; when it returns false
    it leaves an error message; and Continue to Payment moves the wizard to
    step 2 only when it returns true. *)
Theorem validateForm_spec (st : PageState) :
  (fst (validateForm st) = true <-> form_valid (orderData st))
  /\ (fst (validateForm st) <> true ->
        fst (validateForm st) = false
        /\ error (snd (validateForm st)) <> None)
  /\ (fst (validateForm st) = true ->
        activeStep (continueToPayment st) = 2)
  /\ (fst (validateForm st) = false ->
        activeStep (continueToPayment st) = activeStep st).
Proof.
  destruct (validateForm_tests st) as (Hres & Herr & _ & Hstep).
  cbv zeta in Hres.
  split; [ | split; [ | split]].
  - rewrite Hres. unfold form_valid. cbv zeta.
    rewrite !andb_true_iff, !orb_true_iff.
    rewrite <- billing_fields_complete, <- shipping_fields_complete.
    rewrite <- !strip_non_digits_filter, <- !test_matches.
    destruct (first_missing requiredBillingFields _),
             (first_missing requiredShippingFields _),
             (sameAsBilling (orderData st)); simpl; intuition congruence.
  - intros Hne. destruct (fst (validateForm st)); [congruence | ].
    split; [reflexivity | ]. destruct Herr as [msg ->]. discriminate.
  - intros Hok. unfold continueToPayment.
    destruct (validateForm st) as [ok st']. simpl in Hok. subst ok.
    reflexivity.
  - intros Hko. unfold continueToPayment.
    destruct (validateForm st) as [ok st']. simpl in Hko, Hstep. subst ok.
    exact Hstep.
Qed.

End ValidateForm.

(** ** Numbers: NaN *)

Section NaNFacts.
Local Open Scope float_scope.

Lemma is_nan_spec (x : float) : is_nan x = true <-> Prim2SF x = S754_nan.
Proof.
  unfold is_nan. rewrite negb_true_iff, FloatAxioms.eqb_spec.
  destruct (Prim2SF x) as [s | s | | s m e]; cbn.
  - split; discriminate.
  - destruct s; split; discriminate.
  - split; reflexivity.
  - unfold SFeqb, SFcompare. rewrite Z.compare_refl.
    change (PosDef.Pos.compare_cont Eq m m) with (Pos.compare_cont Eq m m).
    rewrite Pos.compare_cont_refl.
    destruct s; cbn; split; discriminate.
Qed.

Lemma leb_nan_l (x y : float) : is_nan x = true -> (x <=? y) = false.
Proof.
  rewrite is_nan_spec, FloatAxioms.leb_spec. intros ->. reflexivity.
Qed.

End NaNFacts.

(** ** checkRateLimit *)

Section RateLimit.
Import Security Stated.

Variables maxRequests windowMs : float.

Definition blocked (entry : RateLimitEntry) : RateLimitResult :=
  {| allowed := false; remaining := 0%float;
     resetTime := (of_Z (firstRequest entry) + windowMs)%float |}.

Lemma checkRateLimit_new (id : jsstring) (now : Z) (store : RateLimitStore) :
  store !! id = None ->
  checkRateLimit id maxRequests windowMs now store
  = ({| allowed := true; remaining := (maxRequests - 1)%float;
        resetTime := (of_Z now + windowMs)%float |},
     <[id := {| count := 1; firstRequest := now; lastRequest := now |}]> store).
Proof. intros Hnone. unfold checkRateLimit. rewrite Hnone. reflexivity. Qed.

Lemma checkRateLimit_expired (id : jsstring) (now : Z) (store : RateLimitStore)
    (e : RateLimitEntry) :
  store !! id = Some e ->
  more_than_window_after windowMs (firstRequest e) now = true ->
  checkRateLimit id maxRequests windowMs now store
  = ({| allowed := true; remaining := (maxRequests - 1)%float;
        resetTime := (of_Z now + windowMs)%float |},
     <[id := {| count := 1; firstRequest := now; lastRequest := now |}]> store).
Proof.
  unfold more_than_window_after. intros He Hlate.
  unfold checkRateLimit. rewrite He, Hlate. reflexivity.
Qed.

Lemma checkRateLimit_blocked (id : jsstring) (now : Z) (store : RateLimitStore)
    (e : RateLimitEntry) :
  store !! id = Some e ->
  more_than_window_after windowMs (firstRequest e) now = false ->
  (maxRequests <=? of_Z (count e))%float = true ->
  checkRateLimit id maxRequests windowMs now store = (blocked e, store).
Proof.
  unfold more_than_window_after. intros He Hin Hfull.
  unfold checkRateLimit. rewrite He, Hin, Hfull. reflexivity.
Qed.

Lemma checkRateLimit_counted (id : jsstring) (now : Z) (store : RateLimitStore)
    (e : RateLimitEntry) :
  store !! id = Some e ->
  more_than_window_after windowMs (firstRequest e) now = false ->
  (maxRequests <=? of_Z (count e))%float = false ->
  checkRateLimit id maxRequests windowMs now store
  = ({| allowed := true;
        remaining := (maxRequests - of_Z (count e + 1))%float;
        resetTime := (of_Z (firstRequest e) + windowMs)%float |},
     <[id := {| count := count e + 1; firstRequest := firstRequest e;
                lastRequest := now |}]> store).
Proof.
  unfold more_than_window_after. intros He Hin Hroom.
  unfold checkRateLimit. rewrite He, Hin, Hroom. reflexivity.
Qed.

Lemma checkRateLimit_other (i id : jsstring) (now : Z) (store : RateLimitStore) :
  i <> id ->
  snd (checkRateLimit i maxRequests windowMs now store) !! id = store !! id.
Proof.
  intros Hne. unfold checkRateLimit.
  destruct (store !! i) as [e | ]; simpl.
  - destruct (windowMs <? of_Z (now - firstRequest e))%float; simpl;
      [apply lookup_insert_ne, Hne | ].
    destruct (maxRequests <=? of_Z (count e))%float; simpl;
      [reflexivity | apply lookup_insert_ne, Hne].
  - apply lookup_insert_ne, Hne.
Qed.

Lemma granted_spec (place : nat) :
  granted maxRequests place = true
  <-> forall c, (1 <= c < place)%nat -> reached maxRequests c = false.
Proof.
  unfold granted. rewrite forallb_forall. split.
  - intros Hall c Hc. apply negb_true_iff, Hall, in_seq. lia.
  - intros Hall c Hc. apply in_seq in Hc. apply negb_true_iff, Hall. lia.
Qed.

Lemma granted_first : granted maxRequests 1 = true.
Proof. reflexivity. Qed.

Lemma granted_beyond (k place : nat) :
  (1 <= k)%nat -> reached maxRequests k = true -> (k < place)%nat ->
  granted maxRequests place = false.
Proof.
  intros Hk Hreached Hlt.
  destruct (granted maxRequests place) eqn:Hgranted; [ | reflexivity].
  rewrite granted_spec in Hgranted.
  rewrite (Hgranted k) in Hreached by lia. discriminate.
Qed.

(** The entry of the identifier follows the window of its last call: the
    same first request, and as count the number of the calls granted in the
    window so far. *)
Definition tracks (id : jsstring) (store : RateLimitStore)
    (current : option (Z * nat)) : Prop :=
  match current with
  | None => store !! id = None
  | Some (first, place) =>
      exists e n,
        store !! id = Some e
        /\ firstRequest e = first
        /\ count e = Z.of_nat n
        /\ (1 <= n <= place)%nat
        /\ (forall c, (1 <= c < n)%nat -> reached maxRequests c = false)
        /\ ((n < place)%nat -> reached maxRequests n = true)
  end.

Lemma tracks_opened (id : jsstring) (now : Z) (store : RateLimitStore) :
  tracks id
    (<[id := {| count := 1; firstRequest := now; lastRequest := now |}]> store)
    (Some (now, 1%nat)).
Proof.
  exists {| count := 1; firstRequest := now; lastRequest := now |}, 1%nat.
  rewrite lookup_insert_eq. repeat split; intros; lia.
Qed.

Lemma answer_opened (now : Z) :
  {| allowed := true; remaining := (maxRequests - 1)%float;
     resetTime := (of_Z now + windowMs)%float |}
  = answer maxRequests windowMs (now, 1%nat).
Proof. reflexivity. Qed.

(** One call of the identifier: the answer is the one of its window, and
    the entry follows. *)
Lemma checkRateLimit_tracks (id : jsstring) (now : Z) (store : RateLimitStore)
    (current : option (Z * nat)) :
  tracks id store current ->
  let window := hd (now, 1%nat) (windows windowMs current [now]) in
  fst (checkRateLimit id maxRequests windowMs now store)
  = answer maxRequests windowMs window
  /\ tracks id (snd (checkRateLimit id maxRequests windowMs now store))
       (Some window).
Proof.
  intros Htracks. cbn [windows hd].
  destruct current as [[first place] | ].
  - destruct Htracks as (e & n & He & Hfirst & Hcount & Hn & Hbelow & Hfull).
    subst first.
    destruct (more_than_window_after windowMs (firstRequest e) now) eqn:Hlate.
    + rewrite (checkRateLimit_expired _ _ _ _ He Hlate). cbn [fst snd].
      split; [apply answer_opened | apply tracks_opened].
    + destruct (reached maxRequests n) eqn:Hreached.
      * rewrite (checkRateLimit_blocked id now store e He Hlate)
          by (rewrite Hcount; exact Hreached).
        cbn [fst snd]. split.
        -- unfold answer. rewrite (granted_beyond n (S place)) by (auto; lia).
           reflexivity.
        -- exists e, n. repeat split; auto; lia.
      * assert (n = place) as -> by
          (destruct (Nat.eq_dec n place) as [Heq | Hne]; [exact Heq | ];
           assert (Hlt : (n < place)%nat) by lia;
           specialize (Hfull Hlt); discriminate Hfull).
        rewrite (checkRateLimit_counted id now store e He Hlate)
          by (rewrite Hcount; exact Hreached).
        cbn [fst snd].
        assert (Hgranted : granted maxRequests (S place) = true).
        { apply granted_spec. intros c Hc.
          destruct (Nat.eq_dec c place) as [-> | Hne]; [exact Hreached | ].
          apply Hbelow. lia. }
        split.
        -- unfold answer. rewrite Hgranted, Hcount.
           replace (Z.of_nat place + 1)%Z with (Z.of_nat (S place)) by lia.
           reflexivity.
        -- eexists _, (S place). rewrite lookup_insert_eq.
           split; [reflexivity | ]. cbn [count firstRequest].
           repeat split; try lia.
           apply granted_spec, Hgranted.
  - cbn in Htracks. rewrite (checkRateLimit_new _ _ _ Htracks). cbn [fst snd].
    split; [apply answer_opened | apply tracks_opened].
Qed.

Lemma tracks_other (i id : jsstring) (now : Z) (store : RateLimitStore)
    (current : option (Z * nat)) :
  i <> id ->
  tracks id store current ->
  tracks id (snd (checkRateLimit i maxRequests windowMs now store)) current.
Proof.
  intros Hne Htracks. unfold tracks in *.
  rewrite (checkRateLimit_other i id now store Hne). exact Htracks.
Qed.

Lemma windows_cons (current : option (Z * nat)) (t : Z) (times : list Z) :
  windows windowMs current (t :: times)
  = hd (t, 1%nat) (windows windowMs current [t])
    :: windows windowMs
         (Some (hd (t, 1%nat) (windows windowMs current [t]))) times.
Proof. reflexivity. Qed.

(** The answers to the calls of an identifier are those of their windows,
    from any store whose entry follows a window. *)
Lemma checkRateLimit_calls_tracks (id : jsstring)
    (calls : list (jsstring * Z)) :
  forall (store : RateLimitStore) (current : option (Z * nat)),
    tracks id store current ->
    answers_to id calls
      (fst (checkRateLimit_calls maxRequests windowMs calls store))
    = map (answer maxRequests windowMs)
        (windows windowMs current (times_of id calls)).
Proof.
  induction calls as [| [i t] rest IH]; intros store current Htracks;
    [reflexivity | ].
  cbn [checkRateLimit_calls].
  destruct (checkRateLimit i maxRequests windowMs t store) as [r store']
    eqn:Hcall.
  destruct (checkRateLimit_calls maxRequests windowMs rest store')
    as [rs store''] eqn:Hrest.
  unfold answers_to, times_of in *.
  cbn [fst combine List.filter map snd]. cbn [fst] in IH.
  case_bool_decide as Hid.
  - subst i.
    destruct (checkRateLimit_tracks id t store current Htracks)
      as [Hanswer Hnext].
    rewrite Hcall in Hanswer, Hnext. cbn [fst snd] in Hanswer, Hnext.
    cbn [map snd]. rewrite windows_cons. cbn [map].
    rewrite <- Hanswer. f_equal.
    specialize (IH store' _ Hnext). rewrite Hrest in IH. exact IH.
  - pose proof (tracks_other i id t store current Hid Htracks) as Hnext.
    rewrite Hcall in Hnext. cbn [snd] in Hnext.
    specialize (IH store' _ Hnext). rewrite Hrest in IH. exact IH.
Qed.

Lemma checkRateLimit_calls_blocked (id : jsstring) (e : RateLimitEntry)
    (times : list Z) (store : RateLimitStore) :
  store !! id = Some e ->
  (maxRequests <=? of_Z (count e))%float = true ->
  Forall (fun t => more_than_window_after windowMs (firstRequest e) t = false)
    times ->
  checkRateLimit_calls maxRequests windowMs (map (fun t => (id, t)) times) store
  = (map (fun _ => blocked e) times, store).
Proof.
  intros He Hfull Hin.
  induction Hin as [| t rest Ht _ IH]; [reflexivity | ].
  cbn [checkRateLimit_calls map].
  rewrite (checkRateLimit_blocked _ _ _ _ He Ht Hfull), IH. reflexivity.
Qed.

Lemma checkRateLimit_nan (id : jsstring) (now : Z) (store : RateLimitStore) :
  is_nan maxRequests = true ->
  allowed (fst (checkRateLimit id maxRequests windowMs now store)) = true.
Proof.
  intros Hnan. unfold checkRateLimit.
  destruct (store !! id) as [e | ]; [ | reflexivity].
  destruct (windowMs <? of_Z (now - firstRequest e))%float; [reflexivity | ].
  rewrite (leb_nan_l _ _ Hnan). reflexivity.
Qed.

(** C5, as the code has it.  From the empty store and for every sequence
    of calls, the calls of an identifier are answered by their windows, the
    windows being read off the times of the calls alone: the first call
    opens a window, a call more than [windowMs] after the first request of
    the window opens a fresh one, and in a window a call is granted while
    the count, which starts at 1, has not reached [maxRequests].  So the
    call that opens a window is always granted, with remaining
    [maxRequests - 1], and for every whole number [k] from 1 on that is at
    least [maxRequests], the calls beyond place [k] of a window are refused:
    at most [k] calls of a window are granted.  With NaN for [maxRequests]
    no call is ever refused.  Once the stored count has reached
    [maxRequests], every further call inside the window is refused with
    remaining 0 and the reset time of the window, and the store stays as it
    is; and a call more than [windowMs] after the window's first request
    opens a fresh window with count 1 and remaining [maxRequests - 1]. *)
Theorem checkRateLimit_window (id : jsstring) :
  (forall calls,
     answers_to id calls
       (fst (checkRateLimit_calls maxRequests windowMs calls
               rateLimitStore_initial))
     = map (answer maxRequests windowMs)
         (windows windowMs None (times_of id calls)))
  /\ (forall calls (k : nat),
        (1 <= k)%nat -> reached maxRequests k = true ->
        Forall2
          (fun r window =>
             (snd window = 1%nat ->
                allowed r = true
                /\ remaining r = (maxRequests - 1)%float)
             /\ ((k < snd window)%nat ->
                   allowed r = false /\ remaining r = 0%float))
          (answers_to id calls
             (fst (checkRateLimit_calls maxRequests windowMs calls
                     rateLimitStore_initial)))
          (windows windowMs None (times_of id calls)))
  /\ (is_nan maxRequests = true ->
        forall i now store,
          allowed (fst (checkRateLimit i maxRequests windowMs now store))
          = true)
  /\ (forall store e times,
        store !! id = Some e ->
        (maxRequests <=? of_Z (count e))%float = true ->
        Forall
          (fun t => more_than_window_after windowMs (firstRequest e) t = false)
          times ->
        checkRateLimit_calls maxRequests windowMs
          (map (fun t => (id, t)) times) store
        = (map (fun _ => {| allowed := false; remaining := 0%float;
                            resetTime :=
                              (of_Z (firstRequest e) + windowMs)%float |})
             times,
           store))
  /\ (forall store e now,
        store !! id = Some e ->
        more_than_window_after windowMs (firstRequest e) now = true ->
        let '(r, store') := checkRateLimit id maxRequests windowMs now store in
        r = {| allowed := true; remaining := (maxRequests - 1)%float;
               resetTime := (of_Z now + windowMs)%float |}
        /\ store' !! id
           = Some {| count := 1; firstRequest := now; lastRequest := now |}).
Proof.
  assert (Hanswers : forall calls,
    answers_to id calls
      (fst (checkRateLimit_calls maxRequests windowMs calls
              rateLimitStore_initial))
    = map (answer maxRequests windowMs)
        (windows windowMs None (times_of id calls))).
  { intros calls. apply checkRateLimit_calls_tracks.
    unfold tracks, rateLimitStore_initial. apply lookup_empty. }
  split; [exact Hanswers | ]. split; [ | split; [ | split]].
  - intros calls k Hk Hreached. rewrite Hanswers.
    induction (windows windowMs None (times_of id calls))
      as [| [first place] rest IH]; [constructor | ].
    cbn [map]. constructor; [ | exact IH]. cbn [snd]. unfold answer. split.
    + intros ->. rewrite granted_first. split; reflexivity.
    + intros Hbeyond. rewrite (granted_beyond k place Hk Hreached Hbeyond).
      split; reflexivity.
  - intros Hnan i now store. apply checkRateLimit_nan, Hnan.
  - intros store e times. apply checkRateLimit_calls_blocked.
  - intros store e now He Hlate.
    rewrite (checkRateLimit_expired _ _ _ _ He Hlate).
    split; [reflexivity | apply lookup_insert_eq].
Qed.

End RateLimit.

(** With a whole number of requests permitted, three here, the first three
    calls of a window are granted and the next two refused; the call that
    comes after the window is granted again. *)
Example checkRateLimit_three_per_window :
  map Security.allowed
    (fst (Security.checkRateLimit_calls 3 60000
            [ (lit "client", 1000); (lit "client", 1001);
              (lit "other", 1002); (lit "client", 1003);
              (lit "client", 1004); (lit "client", 61000);
              (lit "client", 61001) ]%Z
            Security.rateLimitStore_initial))
  = [true; true; true; true; false; false; true].
Proof. vm_compute. reflexivity. Qed.

(** With 1.5 for [maxRequests] two calls of a window are granted. *)
Example checkRateLimit_fractional_limit :
  map (fun r => (Security.allowed r, Security.remaining r))
    (fst (Security.checkRateLimit_calls 1.5 60000
            [ (lit "client", 1000); (lit "client", 1001);
              (lit "client", 1002) ]%Z
            Security.rateLimitStore_initial))
  = [(true, 0.5); (true, -0.5); (false, 0)]%float.
Proof. vm_compute. reflexivity. Qed.

(** With [maxRequests = 0] the first call of an identifier is granted all
    the same: one granted call in the window, more than [maxRequests]. *)
Lemma checkRateLimit_zero_grants_one :
  let results :=
    fst (Security.checkRateLimit_calls 0 60000 [(lit "client", 1000%Z)]
           Security.rateLimitStore_initial) in
  map Security.allowed results = [true]
  /\ (of_Z (Z.of_nat (List.length (List.filter Security.allowed results)))
      <=? 0)%float = false.
Proof. split; vm_compute; reflexivity. Qed.

(** ** Numbers: facts about binary64 arithmetic *)

Section FloatFacts.
Local Open Scope Z_scope.


Lemma digits2_pos_bound (m : positive) : Z.pos m < 2 ^ Z.pos (digits2_pos m).
Proof.
  induction m as [m IH | m IH | ]; cbn [digits2_pos].
  - rewrite Pos2Z.inj_succ, Z.pow_succ_r by lia. lia.
  - rewrite Pos2Z.inj_succ, Z.pow_succ_r by lia. lia.
  - reflexivity.
Qed.

(** [m * 2^j], written so that it computes on an unknown [m]. *)
Fixpoint shl (j : nat) (m : positive) : positive :=
  match j with
  | O => m
  | S j' => xO (shl j' m)
  end.

Lemma mul_pow52 (m : positive) : (m * 4503599627370496)%positive = shl 52 m.
Proof. rewrite Pos.mul_comm. reflexivity. Qed.

Lemma digits2_shl (j : nat) (m : positive) :
  Z.pos (digits2_pos (shl j m)) = Z.pos (digits2_pos m) + Z.of_nat j.
Proof.
  induction j as [| j IH]; [cbn; lia | ].
  cbn [shl digits2_pos].
  rewrite Pos2Z.inj_succ, IH. lia.
Qed.

Lemma shl_value (j : nat) (m : positive) :
  Z.pos (shl j m) = Z.pos m * 2 ^ Z.of_nat j.
Proof.
  induction j as [| j IH]; [cbn; lia | ].
  cbn [shl].
  rewrite Pos2Z.inj_xO, IH, Nat2Z.inj_succ, Z.pow_succ_r by lia. lia.
Qed.

Lemma valid_finite (s : bool) (m : positive) (e : Z) :
  valid_binary (S754_finite s m e) = true ->
  fexp prec emax (Z.pos (digits2_pos m) + e) = e /\ e <= 971.
Proof.
  unfold SpecFloat.valid_binary, bounded, canonical_mantissa.
  rewrite andb_true_iff, Z.eqb_eq, Z.leb_le. unfold emax, prec. lia.
Qed.

Ltac round_rest m E Hfexp :=
  cbn [shr shr_record_of_loc SpecFloat.iter_pos shr_1 shl
       round_nearest_even loc_of_shr_record shr_m shr_r shr_s orb];
  match goal with
  | |- context [fexp prec emax ?a] =>
      replace a with (Z.pos (digits2_pos m) + 52 + E)
        by (cbn [Zdigits2 digits2_pos]; rewrite ?Pos2Z.inj_succ; lia)
  end;
  rewrite Hfexp;
  match goal with
  | |- context [shr _ _ ?n] => replace n with 0 by (cbn; lia)
  end;
  cbn [shr shr_m];
  match goal with
  | |- context [?a <=? emax - prec] =>
      replace (a <=? emax - prec) with true
        by (symmetry; apply Z.leb_le; unfold emax, prec; cbn in *; lia)
  end;
  f_equal; cbn; lia.

(** Rounding the exact product of a mantissa with [2^52] back to the
    format, when the format keeps [j] of the 52 low zeros. *)
Lemma round_shl52 (s : bool) (m : positive) (E : Z) (j : nat) :
  (j <= 4)%nat ->
  fexp prec emax (Z.pos (digits2_pos m) + 52 + E) = E + 52 - Z.of_nat j ->
  E + 52 - Z.of_nat j <= 971 ->
  binary_round_aux prec emax s (Z.pos (shl 52 m)) E loc_Exact
  = S754_finite s (shl j m) (E + 52 - Z.of_nat j).
Proof.
  intros Hj Hfexp Hmax.
  unfold binary_round_aux, shr_fexp.
  cbn [Zdigits2]. rewrite (digits2_shl 52 m).
  change (Z.of_nat 52) with 52. rewrite Hfexp.
  assert (Hcases : j = 0%nat \/ j = 1%nat \/ j = 2%nat \/ j = 3%nat \/ j = 4%nat)
    by lia.
  destruct Hcases as [-> | [-> | [-> | [-> | ->]]]].
  - replace (E + 52 - Z.of_nat 0 - E) with 52 by (cbn; lia).
    round_rest m E Hfexp.
  - replace (E + 52 - Z.of_nat 1 - E) with 51 by (cbn; lia).
    round_rest m E Hfexp.
  - replace (E + 52 - Z.of_nat 2 - E) with 50 by (cbn; lia).
    round_rest m E Hfexp.
  - replace (E + 52 - Z.of_nat 3 - E) with 49 by (cbn; lia).
    round_rest m E Hfexp.
  - replace (E + 52 - Z.of_nat 4 - E) with 48 by (cbn; lia).
    round_rest m E Hfexp.
Qed.

Lemma Prim2SF_one :
  Prim2SF 1 = S754_finite false 4503599627370496 (-52).
Proof. reflexivity. Qed.

(** Multiplying by one changes nothing, also not a NaN, an infinity or the
    sign of a zero. *)
Lemma mul_one (x : float) : (x * 1)%float = x.
Proof.
  apply Prim2SF_inj. rewrite FloatAxioms.mul_spec, Prim2SF_one.
  pose proof (Prim2SF_valid x) as Hvalid.
  destruct (Prim2SF x) as [s | s | | s m e]; cbn [SF64mul SFmul].
  - rewrite xorb_false_r. reflexivity.
  - rewrite xorb_false_r. reflexivity.
  - reflexivity.
  - apply valid_finite in Hvalid as [Hfexp Hmax].
    rewrite xorb_false_r, mul_pow52.
    rewrite (round_shl52 s m (e + -52) 0).
    + f_equal. cbn. lia.
    + lia.
    + replace (Z.pos (digits2_pos m) + 52 + (e + -52))
        with (Z.pos (digits2_pos m) + e) by lia.
      rewrite Hfexp. cbn. lia.
    + cbn. lia.
Qed.

Lemma digits2_pos_lower (m : positive) :
  2 ^ (Z.pos (digits2_pos m) - 1) <= Z.pos m.
Proof.
  induction m as [m IH | m IH | ]; cbn [digits2_pos].
  - rewrite Pos2Z.inj_succ.
    replace (Z.succ (Z.pos (digits2_pos m)) - 1)
      with (Z.succ (Z.pos (digits2_pos m) - 1)) by lia.
    rewrite Z.pow_succ_r by lia. lia.
  - rewrite Pos2Z.inj_succ.
    replace (Z.succ (Z.pos (digits2_pos m)) - 1)
      with (Z.succ (Z.pos (digits2_pos m) - 1)) by lia.
    rewrite Z.pow_succ_r by lia. lia.
  - cbn. lia.
Qed.

(** A Number in the half-open unit interval is a zero or a positive finite
    value with exponent at most -53. *)
Lemma unit_interval_cases (r : float) :
  (0 <=? r)%float = true -> (r <? 1)%float = true ->
  (exists s, Prim2SF r = S754_zero s)
  \/ (exists m e, Prim2SF r = S754_finite false m e
                  /\ e <= -53 /\ Z.pos m < 2 ^ 53
                  /\ fexp prec emax (Z.pos (digits2_pos m) + e) = e).
Proof.
  rewrite FloatAxioms.leb_spec, FloatAxioms.ltb_spec.
  change (Prim2SF 0) with (S754_zero false). rewrite Prim2SF_one.
  pose proof (Prim2SF_valid r) as Hvalid.
  destruct (Prim2SF r) as [s | s | | s m e].
  - intros _ _. left. eauto.
  - destruct s; discriminate.
  - discriminate.
  - destruct s; [discriminate | ]. intros _ Hlt. right.
    apply valid_finite in Hvalid as [Hfexp _].
    pose proof (digits2_pos_bound m) as Hup.
    pose proof (digits2_pos_lower m) as Hlow.
    assert (Hd : Z.pos (digits2_pos m) <= 53).
    { unfold fexp, emin, prec, emax in Hfexp. lia. }
    assert (Hm : Z.pos m < 2 ^ 53).
    { apply Z.lt_le_trans with (1 := Hup). apply Z.pow_le_mono_r; lia. }
    exists m, e. split; [reflexivity | ]. split; [ | split; [exact Hm | exact Hfexp]].
    unfold SFltb, SFcompare in Hlt.
    destruct (Z.compare_spec e (-52)) as [He | He | He]; try discriminate; [ | lia].
    exfalso. subst e.
    assert (Hd53 : Z.pos (digits2_pos m) = 53).
    { unfold fexp, emin, prec, emax in Hfexp. lia. }
    rewrite Hd53 in Hlow.
    assert (Hcmp : (m < 4503599627370496)%positive).
    { unfold Pos.lt, Pos.compare.
      destruct (Pos.compare_cont Eq m 4503599627370496); congruence. }
    change (2 ^ (53 - 1)) with (Z.pos 4503599627370496) in Hlow.
    apply Pos2Z.pos_lt_pos in Hcmp.
    exact (Z.lt_irrefl _ (Z.lt_le_trans _ _ _ Hcmp Hlow)).
Qed.

Lemma Prim2SF_sixteen :
  Prim2SF 16 = S754_finite false 4503599627370496 (-48).
Proof. reflexivity. Qed.

Lemma toString16_digit (k : Z) :
  0 <= k < 16 ->
  Number_toString16 (of_Z k) = Some [hex_lower (Z.to_N k)].
Proof.
  intros Hk.
  assert (Hcases : k = 0 \/ k = 1 \/ k = 2 \/ k = 3 \/ k = 4 \/ k = 5 \/ k = 6
                   \/ k = 7 \/ k = 8 \/ k = 9 \/ k = 10 \/ k = 11 \/ k = 12
                   \/ k = 13 \/ k = 14 \/ k = 15) by lia.
  repeat (destruct Hcases as [-> | Hcases]; [reflexivity | ]).
  subst k. reflexivity.
Qed.

(** [Math.floor(r * 16).toString(16)] for [r] in the half-open unit
    interval is a single hexadecimal digit. *)
Lemma random_hex_digit (r : float) :
  (0 <=? r)%float = true -> (r <? 1)%float = true ->
  exists d : N, (d < 16)%N
    /\ Number_toString16 (Math_floor (r * 16)%float) = Some [hex_lower d].
Proof.
  intros H0 H1.
  destruct (unit_interval_cases r H0 H1)
    as [[s Hr] | (m & e & Hr & He & Hm & Hfexp)].
  - exists 0%N. split; [reflexivity | ].
    assert (Hprod : Prim2SF (r * 16)%float = S754_zero s).
    { rewrite FloatAxioms.mul_spec, Hr, Prim2SF_sixteen. cbn.
      rewrite xorb_false_r. reflexivity. }
    unfold Math_floor. rewrite Hprod.
    unfold Number_toString16, to_integer. rewrite Hprod. reflexivity.
  - set (j := Z.to_nat (e + 4 - fexp prec emax (Z.pos (digits2_pos m) + e + 4))).
    pose proof (digits2_pos_lower m) as Hlow.
    assert (Hj : (j <= 4)%nat /\
                 fexp prec emax (Z.pos (digits2_pos m) + e + 4)
                 = e + 4 - Z.of_nat j).
    { subst j. unfold fexp, emin, prec, emax in *. lia. }
    destruct Hj as [Hj4 Hj].
    assert (Hprod : Prim2SF (r * 16)%float
                    = S754_finite false (shl j m) (e + 4 - Z.of_nat j)).
    { rewrite FloatAxioms.mul_spec, Hr, Prim2SF_sixteen.
      cbn [SF64mul SFmul xorb]. rewrite mul_pow52.
      rewrite (round_shl52 false m (e + -48) j Hj4).
      - f_equal. lia.
      - replace (Z.pos (digits2_pos m) + 52 + (e + -48))
          with (Z.pos (digits2_pos m) + e + 4) by lia.
        rewrite Hj. lia.
      - lia. }
    unfold Math_floor. rewrite Hprod.
    destruct (Z.leb_spec 0 (e + 4 - Z.of_nat j)) as [Hpos | Hneg]; [lia | ].
    cbn [signed].
    set (k := Z.pos (shl j m) / 2 ^ (- (e + 4 - Z.of_nat j))).
    assert (Hk : 0 <= k < 16).
    { subst k. rewrite shl_value. split.
      - apply Z.div_pos; [lia | apply Z.pow_pos_nonneg; lia].
      - apply Z.div_lt_upper_bound; [apply Z.pow_pos_nonneg; lia | ].
        replace (- (e + 4 - Z.of_nat j)) with (Z.of_nat j + (- e - 4)) by lia.
        rewrite Z.pow_add_r by lia.
        assert (Hbig : 2 ^ 53 <= 2 ^ (- e - 4) * 16).
        { change 16 with (2 ^ 4). rewrite <- Z.pow_add_r by lia.
          apply Z.pow_le_mono_r; lia. }
        assert (Hpj : 0 < 2 ^ Z.of_nat j) by (apply Z.pow_pos_nonneg; lia).
        nia. }
    exists (Z.to_N k). split; [lia | ].
    apply toString16_digit, Hk.
Qed.

End FloatFacts.

(** ** CSRF tokens *)

Section CSRF.
Import Security.

Lemma below_forallb (P : N -> bool) (bound : nat) :
  forallb P (map N.of_nat (seq 0 bound)) = true ->
  forall n, (n < N.of_nat bound)%N -> P n = true.
Proof.
  intros Hall n Hn. rewrite forallb_forall in Hall. apply Hall.
  apply in_map_iff. exists (N.to_nat n). split; [apply N2Nat.id | ].
  apply in_seq. lia.
Qed.

Lemma hex_lower_is_hex (d : N) : (d < 16)%N -> is_hex (hex_lower d) = true.
Proof.
  apply (below_forallb (fun d => is_hex (hex_lower d)) 16). reflexivity.
Qed.

(** A byte prints as exactly two hexadecimal digits once padded. *)
Lemma byte_two_hex_digits (n : N) :
  (n < 256)%N ->
  List.length (padStart0 2 (N_toString16 n)) = 2
  /\ forallb is_hex (padStart0 2 (N_toString16 n)) = true.
Proof.
  intros Hn.
  pose proof (below_forallb
    (fun n => (List.length (padStart0 2 (N_toString16 n)) =? 2)
              && forallb is_hex (padStart0 2 (N_toString16 n))) 256) as Hall.
  specialize (Hall ltac:(vm_compute; reflexivity) n Hn).
  apply andb_true_iff in Hall as [Hlen Hhex].
  apply Nat.eqb_eq in Hlen. auto.
Qed.

Lemma concat_hex (parts : list jsstring) (k : nat) :
  Forall (fun p => List.length p = k /\ forallb is_hex p = true) parts ->
  List.length (concat parts) = List.length parts * k
  /\ forallb is_hex (concat parts) = true.
Proof.
  induction 1 as [| p rest [Hlen Hhex] _ [IHlen IHhex]]; [split; reflexivity | ].
  cbn [concat List.length]. rewrite length_app, forallb_app, Hlen, IHlen, Hhex, IHhex.
  split; [lia | reflexivity].
Qed.

Lemma mapM_digits (f : nat -> option jsstring) (l : list nat) :
  (forall i, exists d, (d < 16)%N /\ f i = Some [hex_lower d]) ->
  exists parts, mapM f l = Some parts
    /\ List.length parts = List.length l
    /\ Forall (fun p => List.length p = 1 /\ forallb is_hex p = true) parts.
Proof.
  intros Hf. induction l as [| i l (parts & Hparts & Hlen & Hall)].
  - exists []. repeat split. constructor.
  - destruct (Hf i) as (d & Hd & Hi).
    exists ([hex_lower d] :: parts). cbn [mapM]. rewrite Hi, Hparts.
    split; [reflexivity | ]. split; [cbn; lia | ].
    constructor; [ | exact Hall].
    split; [reflexivity | ]. cbn. rewrite (hex_lower_is_hex d Hd). reflexivity.
Qed.

Lemma generateCSRFToken_browser (b : Browser) (random : nat -> float)
    (entropy : nat -> N) :
  exists t, generateCSRFToken (Some b) random entropy = Some t
    /\ List.length t = 64 /\ forallb is_hex t = true.
Proof.
  eexists. split; [reflexivity | ].
  unfold join_empty.
  match goal with
  | |- context [concat ?ps] =>
      destruct (concat_hex ps 2) as [Hlen Hhex]
  end.
  - apply Forall_map, Forall_map, Forall_forall. intros i _. simpl.
    apply byte_two_hex_digits. apply N.mod_lt. discriminate.
  - rewrite Hlen, !length_map, length_seq. split; [reflexivity | exact Hhex].
Qed.

Lemma generateCSRFToken_server (random : nat -> float) (entropy : nat -> N) :
  (forall i, (0 <=? random i)%float = true /\ (random i <? 1)%float = true) ->
  exists t, generateCSRFToken None random entropy = Some t
    /\ List.length t = 32 /\ forallb is_hex t = true.
Proof.
  intros Hrange. unfold generateCSRFToken.
  destruct (mapM_digits
              (fun i => Number_toString16 (Math_floor (random i * 16)%float))
              (seq 0 32)) as (parts & Hparts & Hlen & Hall).
  { intros i. destruct (Hrange i) as [H0 H1]. apply random_hex_digit; assumption. }
  rewrite Hparts. eexists. split; [reflexivity | ].
  destruct (concat_hex parts 1 Hall) as [Hclen Hhex].
  unfold join_empty. rewrite Hclen, Hlen, length_seq.
  split; [reflexivity | exact Hhex].
Qed.

(** C9.  In a browser, after [setCSRFToken(t)] the call
    [validateCSRFToken(t)] returns true and [validateCSRFToken(u)] returns
    false for every other [u]; with no token stored [validateCSRFToken]
    returns false for every input; and [generateCSRFToken] returns a
    non-empty string of hexadecimal digits (64 of them in a browser, 32 on
    the server), whatever the random source yields within its range. *)
Theorem csrf_token_storage :
  (forall (b : Browser) (t : jsstring),
     validateCSRFToken t (setCSRFToken t (Some b)) = true
     /\ forall u, u <> t ->
          validateCSRFToken u (setCSRFToken t (Some b)) = false)
  /\ (forall (env : Env) (u : jsstring),
        getCSRFToken env = None -> validateCSRFToken u env = false)
  /\ (forall (env : Env) (random : nat -> float) (entropy : nat -> N),
        (forall i, (0 <=? random i)%float = true
                   /\ (random i <? 1)%float = true) ->
        exists t, generateCSRFToken env random entropy = Some t
          /\ t <> []
          /\ List.length t = match env with Some _ => 64 | None => 32 end
          /\ Forall (fun c => is_hex c = true) t).
Proof.
  split; [ | split].
  - intros b t.
    unfold validateCSRFToken, getCSRFToken, setCSRFToken, set_session,
      jsstring_eqb.
    cbn [sessionStorage]. rewrite lookup_insert_eq.
    split; [apply bool_decide_eq_true_2; reflexivity | ].
    intros u Hu. apply bool_decide_eq_false_2. congruence.
  - intros env u Hnone. unfold validateCSRFToken. rewrite Hnone. reflexivity.
  - intros env random entropy Hrange.
    assert (Htoken : exists t, generateCSRFToken env random entropy = Some t
              /\ List.length t = match env with Some _ => 64 | None => 32 end
              /\ forallb is_hex t = true).
    { destruct env as [b | ].
      - apply generateCSRFToken_browser.
      - apply generateCSRFToken_server, Hrange. }
    destruct Htoken as (t & Ht & Hlen & Hhex).
    exists t. split; [exact Ht | ]. split; [ | split; [exact Hlen | ]].
    + intros ->. destruct env; discriminate Hlen.
    + apply Forall_forall. intros c Hc.
      rewrite forallb_forall in Hhex. apply Hhex, list_elem_of_In, Hc.
Qed.

End CSRF.

(** A run of [generateCSRFToken] on the server with a random source that
    is constantly one half. *)
Example generateCSRFToken_half :
  Security.generateCSRFToken None (fun _ => 0.5%float) (fun _ => 0%N)
  = Some (repeat 56%N 32).
Proof. vm_compute. reflexivity. Qed.

(** ** secureStorage *)

Section SecureStorage.
Import Security.

(** C10, at the input where the code departs from it.  Storing the empty
    string succeeds, and reading the key back gives null instead of the
    empty string: the stored Base64 text is empty, and [getItem] takes an
    empty stored text for a missing key. *)
Theorem secureStorage_empty_value_lost (b : Browser) (key : jsstring) :
  exists env',
    secureStorage_setItem key [] (Some b) = Some env'
    /\ secureStorage_getItem key env' = None.
Proof.
  eexists. split; [reflexivity | ].
  unfold secureStorage_getItem, set_local. cbn [localStorage].
  rewrite lookup_insert_eq. reflexivity.
Qed.

End SecureStorage.

(** The same value survives when it is not empty. *)
Example secureStorage_roundtrip_sample :
  let env := Some {| Security.sessionStorage := ∅; Security.localStorage := ∅ |} in
  let value := [104; 233; 8364; 55357; 56832; 47; 37]%N in
  match Security.secureStorage_setItem (lit "k") value env with
  | Some env' => Security.secureStorage_getItem (lit "k") env' = Some value
  | None => False
  end.
Proof. vm_compute. reflexivity. Qed.

(** ** Checkout: the order total *)

Section OrderTotal.
Import Checkout Stated.
Local Open Scope float_scope.

Variable parseFloat : jsstring -> float.

Lemma fold_left_sum_left (items : list CartItem) (acc : float) :
  fold_left (fun total item => total + item_price parseFloat item * quantity item)
    items acc
  = sum_left acc
      (map (fun item => price_as_number parseFloat item * quantity item) items).
Proof.
  revert acc. induction items as [| item rest IH]; intros acc; [reflexivity | ].
  cbn [fold_left map sum_left].
  replace (price_as_number parseFloat item) with (item_price parseFloat item)
    by (unfold item_price, price_as_number; destruct (price item); reflexivity).
  apply IH.
Qed.

Lemma deliveryCharges_cases (items : list CartItem) :
  ((5000 <? calculateTotal parseFloat items) = true ->
     deliveryCharges parseFloat items = 0)
  /\ ((5000 <? calculateTotal parseFloat items) = false ->
        deliveryCharges parseFloat items = 200).
Proof.
  unfold deliveryCharges.
  destruct (5000 <? calculateTotal parseFloat items); split;
    intros H; first [reflexivity | discriminate H].
Qed.

(** C2.  The final total of the checkout page is subtotal + GST + delivery
    charges; the subtotal is the sum, item by item, of the parsed price
    times the quantity; GST is the subtotal times 0.18; delivery is 0 when
    the subtotal is greater than 5000 and 200 otherwise, so a subtotal of
    exactly 5000 pays 200. *)
Theorem order_total (items : list CartItem) :
  finalTotal parseFloat items
  = calculateTotal parseFloat items + gst parseFloat items
    + deliveryCharges parseFloat items
  /\ calculateTotal parseFloat items = subtotal parseFloat items
  /\ gst parseFloat items = subtotal parseFloat items * 0.18
  /\ ((5000 <? subtotal parseFloat items) = true ->
        deliveryCharges parseFloat items = 0)
  /\ ((5000 <? subtotal parseFloat items) = false ->
        deliveryCharges parseFloat items = 200)
  /\ (subtotal parseFloat items = 5000 ->
        deliveryCharges parseFloat items = 200).
Proof.
  assert (Hsub : calculateTotal parseFloat items = subtotal parseFloat items)
    by apply fold_left_sum_left.
  destruct (deliveryCharges_cases items) as [Hfree Hpaid].
  rewrite Hsub in Hfree, Hpaid.
  repeat split.
  - exact Hsub.
  - unfold gst. rewrite Hsub. reflexivity.
  - exact Hfree.
  - exact Hpaid.
  - intros H5000. apply Hpaid. rewrite H5000. reflexivity.
Qed.

End OrderTotal.

(** Two items of 2500 make a subtotal of exactly 5000: delivery is
    charged, and the total is 5000 + 900 + 200. *)
Example order_total_at_threshold :
  let items := [ {| Checkout.price := Checkout.PriceNumber 2500;
                    Checkout.quantity := 2 |} ] in
  (Checkout.calculateTotal (fun _ => nan) items,
   Checkout.deliveryCharges (fun _ => nan) items,
   Checkout.finalTotal (fun _ => nan) items)
  = (5000, 200, 6100)%float.
Proof. reflexivity. Qed.

Example order_total_above_threshold :
  let items := [ {| Checkout.price := Checkout.PriceNumber 5000.5;
                    Checkout.quantity := 1 |} ] in
  Checkout.deliveryCharges (fun _ => nan) items = 0%float.
Proof. reflexivity. Qed.

(** ** Configurator: volume and price *)

Section ConfiguratorDerived.
Import Configurator.
Local Open Scope float_scope.

Variable toFixed : float -> nat -> jsstring.
Variable Number : jsstring -> float.

(** C4.  The derived volume is width x height x depth / 1000 rendered to
    2 decimal places; the unit price is round((25 + volume x 0.5) x 1.2)
    for corrugated and round(25 + volume x 0.5) for every other material,
    where volume is the number read back from the rendered volume; and the
    estimated total is the unit price times the quantity. *)
Theorem configurator_derived_values (config : BoxConfiguration) :
  let d := dimensions config in
  let volume := Number (calculatedVolume toFixed config) in
  calculatedVolume toFixed config
  = toFixed (width d * height d * depth d / 1000) 2
  /\ estimatedPrice toFixed Number config
     = match material config with
       | corrugated => Math_round ((25 + volume * 0.5) * 1.2)
       | _ => Math_round (25 + volume * 0.5)
       end
  /\ totalPrice toFixed Number config
     = estimatedPrice toFixed Number config * quantity config.
Proof.
  cbv zeta. split; [reflexivity | split; [ | reflexivity]].
  unfold estimatedPrice.
  destruct (material config); [reflexivity | | ]; rewrite mul_one; reflexivity.
Qed.

End ConfiguratorDerived.

(** ** The 3D box builder: geometry *)

Section BoxGeometryFacts.
Import Box3D Stated.

Lemma str_eqb_eq (a b : jsstring) : str_eqb a b = true <-> a = b.
Proof. unfold str_eqb. apply bool_decide_eq_true. Qed.

Lemma createRSCGeometry_length (l w h t : float) :
  List.length (createRSCGeometry l w h t) = 14.
Proof. reflexivity. Qed.

Lemma createAutoBottomGeometry_length (l w h t : float) :
  List.length (createAutoBottomGeometry l w h t) = 16.
Proof. reflexivity. Qed.

Lemma createDisplayBoxGeometry_length (l w h t : float) :
  List.length (createDisplayBoxGeometry l w h t) = 5.
Proof. reflexivity. Qed.

Lemma boxGeometry_dispatch (style : jsstring) (l w h t : float) :
  boxGeometry style (Build_Dimensions l w h t)
  = if str_eqb style (lit "autoBottom") then createAutoBottomGeometry l w h t
    else if str_eqb style (lit "display") then createDisplayBoxGeometry l w h t
    else createRSCGeometry l w h t.
Proof.
  unfold boxGeometry, createDrawerBoxGeometry, createFoldingBoxGeometry,
    createGableTopGeometry, createPillowBoxGeometry, createTuckEndGeometry,
    createHingedLidGeometry.
  destruct (str_eqb style (lit "rsc")) eqn:Hrsc.
  - apply str_eqb_eq in Hrsc. subst style. reflexivity.
  - destruct (str_eqb style (lit "autoBottom")); [reflexivity | ].
    destruct (str_eqb style (lit "display")); [reflexivity | ].
    repeat match goal with
           | |- context [if ?b then _ else _] => destruct b
           end; reflexivity.
Qed.

(** C1.  Each of the six placeholder generators returns the list of parts
    of [createRSCGeometry] on the same arguments, and so does the style
    switch for the styles drawer, folding, gableTop, pillow, tuckEnd and
    hingedLid; a style whose geometry differs from the default shape is
    autoBottom or display (rsc is the default shape itself), and these two
    do differ. *)
Theorem placeholder_styles_use_rsc_geometry (style : jsstring)
    (l w h t : float) :
  (createDrawerBoxGeometry l w h t = createRSCGeometry l w h t
   /\ createFoldingBoxGeometry l w h t = createRSCGeometry l w h t
   /\ createGableTopGeometry l w h t = createRSCGeometry l w h t
   /\ createPillowBoxGeometry l w h t = createRSCGeometry l w h t
   /\ createTuckEndGeometry l w h t = createRSCGeometry l w h t
   /\ createHingedLidGeometry l w h t = createRSCGeometry l w h t)
  /\ (style ∈ placeholder_styles ->
        boxGeometry style (Build_Dimensions l w h t)
        = createRSCGeometry l w h t)
  /\ (boxGeometry style (Build_Dimensions l w h t) <> createRSCGeometry l w h t ->
        style ∈ [lit "rsc"; lit "autoBottom"; lit "display"])
  /\ boxGeometry (lit "autoBottom") (Build_Dimensions l w h t)
     <> createRSCGeometry l w h t
  /\ boxGeometry (lit "display") (Build_Dimensions l w h t)
     <> createRSCGeometry l w h t.
Proof.
  split; [repeat split | ].
  split; [ | split; [ | split]].
  - unfold placeholder_styles. intros Hin.
    repeat (apply elem_of_cons in Hin as [-> | Hin]; [reflexivity | ]).
    inversion Hin.
  - rewrite boxGeometry_dispatch. intros Hne.
    destruct (str_eqb style (lit "autoBottom")) eqn:Hauto.
    + apply str_eqb_eq in Hauto. subst style. set_solver.
    + destruct (str_eqb style (lit "display")) eqn:Hdisplay.
      * apply str_eqb_eq in Hdisplay. subst style. set_solver.
      * congruence.
  - intros Heq. apply (f_equal (@List.length _)) in Heq. discriminate Heq.
  - intros Heq. apply (f_equal (@List.length _)) in Heq. discriminate Heq.
Qed.

End BoxGeometryFacts.

(** ** The 3D box builder: folding animation *)

Section FoldingAnimation.
Import Box3D Stated.
Local Open Scope float_scope.

Lemma indexed_from {A} (l : list A) (start i : nat) (a : A) :
  In (i, a) (combine (seq start (List.length l)) l)
  <-> (start <= i)%nat /\ nth_error l (i - start) = Some a.
Proof.
  revert start. induction l as [| b l IH]; intros start.
  - cbn. split; [contradiction | ]. intros [_ H].
    destruct (i - start)%nat; discriminate H.
  - cbn [List.length seq combine In]. rewrite IH. split.
    + intros [[= <- <-] | [Hle Hnth]].
      * split; [lia | ]. rewrite Nat.sub_diag. reflexivity.
      * split; [lia | ].
        replace (i - start)%nat with (S (i - S start)) by lia. exact Hnth.
    + intros [Hle Hnth].
      destruct (Nat.eq_dec i start) as [-> | Hne].
      * left. rewrite Nat.sub_diag in Hnth. injection Hnth as ->. reflexivity.
      * right. split; [lia | ].
        replace (i - start)%nat with (S (i - S start)) in Hnth by lia.
        exact Hnth.
Qed.

Lemma indexed_In {A} (l : list A) (i : nat) (a : A) :
  In (i, a) (indexed l) <-> nth_error l i = Some a.
Proof.
  unfold indexed. rewrite indexed_from, Nat.sub_0_r.
  split; [intros [_ H]; exact H | intros H; split; [lia | exact H]].
Qed.

Lemma starts_with_spec (p s : jsstring) :
  starts_with p s = true <-> exists rest, s = p ++ rest.
Proof.
  revert s. induction p as [| c p IH]; intros s.
  - split; [intros _; exists s; reflexivity | reflexivity].
  - destruct s as [| d s]; cbn [starts_with].
    + split; [discriminate | intros [rest H]; discriminate H].
    + rewrite andb_true_iff, N.eqb_eq, IH. split.
      * intros [-> [rest ->]]. exists rest. reflexivity.
      * intros [rest [= -> ->]]. split; [reflexivity | exists rest; reflexivity].
Qed.

Lemma includes_spec (a b : jsstring) :
  includes a b = true <-> exists before after, a = before ++ b ++ after.
Proof.
  induction a as [| c a IH].
  - cbn [includes]. rewrite orb_false_r, starts_with_spec. split.
    + intros [rest ->]. exists [], rest. reflexivity.
    + intros (before & after & H). destruct before as [| ? ?];
        [exists after; exact H | discriminate H].
  - cbn [includes]. rewrite orb_true_iff, starts_with_spec, IH. split.
    + intros [[rest ->] | (before & after & ->)].
      * exists [], rest. reflexivity.
      * exists (c :: before), after. reflexivity.
    + intros (before & after & H). destruct before as [| d before].
      * left. exists after. exact H.
      * right. injection H as -> ->. exists before, after. reflexivity.
Qed.

Lemma named_for_spec (step : jsstring) (child : Object3D) :
  named_for step child = true <-> named_for_step child step.
Proof.
  unfold named_for, named_for_step.
  destruct (userData_name child) as [name | ].
  - rewrite andb_true_iff, negb_true_iff, falsy_spec, includes_spec. split.
    + intros [Hne (before & after & Heq)]. exists name, before, after. auto.
    + intros (n & before & after & [= <-] & Hne & Heq).
      split; [exact Hne | exists before, after; exact Heq].
  - split; [discriminate | ]. intros (n & _ & _ & H & _). discriminate H.
Qed.

(** The tweens of one step. *)
Lemma step_tweens_In (children : list Object3D) (progress : float)
    (n i : nat) (step : jsstring) (tw : Tween) :
  In tw (step_tweens children progress (of_Z (Z.of_nat n)) i step)
  <-> under_way progress n i
      /\ exists child,
           nth_error children (target tw) = Some child
           /\ named_for_step child step
           /\ duration tw = 0.5
           /\ x tw = step_progress progress n i * Math_PI / 2
           /\ ease tw = "power2.inOut"%string
           /\ at_position tw = of_Z (Z.of_nat i) * 0.3.
Proof.
  unfold step_tweens, under_way. fold (step_progress progress n i).
  destruct (0 <? step_progress progress n i) eqn:Hpos; cbn [andb];
    [ | split; [contradiction | intros [[H _] _]; discriminate H] ].
  destruct (step_progress progress n i <=? 1) eqn:Hle;
    [ | split; [contradiction | intros [[_ H] _]; discriminate H] ].
  rewrite in_map_iff. split.
  - intros ([j child] & <- & Hin). apply filter_In in Hin as [Hin Hnamed].
    apply indexed_In in Hin. apply named_for_spec in Hnamed.
    split; [split; reflexivity | ]. exists child. cbn. auto 10.
  - intros (_ & child & Hnth & Hnamed & Hd & Hx & He & Hat).
    exists (target tw, child). split.
    + destruct tw as [t d x0 e a]. cbn in *. subst. reflexivity.
    + apply filter_In. split; [apply indexed_In, Hnth | ].
      apply named_for_spec, Hnamed.
Qed.

(** [BOX_STYLES[style]] is the entry of the table under that key. *)
Lemma get_style_table (style : jsstring) (info : StyleInfo) :
  get_style BOX_STYLES style = Some info <-> In (style, info) BOX_STYLES.
Proof.
  split.
  - unfold BOX_STYLES. cbn [get_style].
    repeat match goal with
           | |- (if str_eqb ?k style then _ else _) = _ -> _ =>
               let E := fresh "E" in
               destruct (str_eqb k style) eqn:E;
               [ apply str_eqb_eq in E; subst style; intros [= <-];
                 cbn [In]; tauto
               | clear E ]
           end.
    discriminate.
  - unfold BOX_STYLES. cbn [In].
    intros H.
    repeat (destruct H as [[= <- <-] | H]; [reflexivity | ]).
    contradiction.
Qed.

Lemma sequences_not_empty (style : jsstring) (info : StyleInfo) :
  In (style, info) BOX_STYLES ->
  foldingSequence info <> []
  /\ Forall (fun step => step <> []) (foldingSequence info).
Proof.
  unfold BOX_STYLES. cbn [In]. intros H.
  repeat (destruct H as [[= <- <-] | H];
          [split; [discriminate | repeat constructor; discriminate] | ]).
  contradiction.
Qed.

Lemma or_else_nth (sequence : list jsstring) (j : nat) (default : jsstring) :
  Forall (fun step => step <> []) sequence ->
  or_else (nth_error sequence j) default = nth j sequence default.
Proof.
  intros Hall. revert j.
  induction Hall as [| step rest Hstep _ IH]; intros j.
  - destruct j; reflexivity.
  - destruct j as [| j]; [ | apply IH].
    cbn. destruct step; [congruence | reflexivity].
Qed.

Lemma AssemblyInstructions_shown (style : jsstring) (info : StyleInfo)
    (step : float) :
  get_style BOX_STYLES style = Some info ->
  currentInstruction (AssemblyInstructions style step)
  = shown_entry (foldingSequence info) step.
Proof.
  intros Hstyle. unfold AssemblyInstructions, shown_entry, array_get.
  rewrite Hstyle. cbn [currentInstruction].
  apply get_style_table, sequences_not_empty in Hstyle as [_ Hall].
  destruct (to_integer step) as [k | ]; [ | reflexivity].
  destruct (Z.ltb_spec k 0), (Z.leb_spec 0 k); try lia; [reflexivity | ].
  apply or_else_nth, Hall.
Qed.

(** C8.  Every style of the table has its folding sequence, an ordered
    list of steps that is not empty.  The overlay is given the step index
    floor(p * n), n being the length of the sequence, and shows the entry
    of the sequence at the index it is given, or Complete when the index
    is not inside the sequence, after the number of the step, which is the
    index plus 1; the entry is shown in upper case, its first dash
    replaced by a space.  The animation puts on the timeline, for
    every group, exactly one kind of tween: for a step i of the sequence
    that is under way, that is 0 < p * n - i <= 1, a tween of each child
    named for the step, towards the rotation (p * n - i) * PI / 2 about
    x. *)
Theorem folding_sequence_drives_overlay_and_animation :
  (forall style info,
     get_style BOX_STYLES style = Some info <-> In (style, info) BOX_STYLES)
  /\ (forall style info,
        In (style, info) BOX_STYLES -> foldingSequence info <> [])
  /\ (forall style info p,
        get_style BOX_STYLES style = Some info ->
        overlay_step style p
        = Some (Math_floor
                  (p * of_Z (Z.of_nat (List.length (foldingSequence info)))))
        /\ forall step,
             currentInstruction (AssemblyInstructions style step)
             = shown_entry (foldingSequence info) step
             /\ shown_number (AssemblyInstructions style step) = step + 1
             /\ shown_text (AssemblyInstructions style step)
                = toUpperCase
                    (replace_first c_minus c_space
                       (shown_entry (foldingSequence info) step)))
  /\ (forall style info (children : list Object3D) p,
        get_style BOX_STYLES style = Some info ->
        exists tweens,
          animateFolding children style p = Some tweens
          /\ forall tw,
               In tw tweens
               <-> exists i step child,
                     nth_error (foldingSequence info) i = Some step
                     /\ under_way p (List.length (foldingSequence info)) i
                     /\ nth_error children (target tw) = Some child
                     /\ named_for_step child step
                     /\ x tw
                        = step_progress p
                            (List.length (foldingSequence info)) i
                          * Math_PI / 2
                     /\ duration tw = 0.5
                     /\ ease tw = "power2.inOut"%string
                     /\ at_position tw = of_Z (Z.of_nat i) * 0.3).
Proof.
  split; [exact get_style_table | ].
  split; [intros style info Hin; apply (sequences_not_empty style info Hin) | ].
  split.
  - intros style info p Hstyle. split.
    + unfold overlay_step. rewrite Hstyle. reflexivity.
    + intros step.
      rewrite <- (AssemblyInstructions_shown style info step Hstyle).
      repeat split.
  - intros style info children p Hstyle.
    unfold animateFolding. rewrite Hstyle. eexists. split; [reflexivity | ].
    intros tw. rewrite in_flat_map. unfold length_of. split.
    + intros ([i step] & Hin & Htw). cbn [fst snd] in Htw.
      apply indexed_In in Hin.
      apply step_tweens_In in Htw
        as (Hway & child & Hnth & Hnamed & Hd & Hx & He & Hat).
      exists i, step, child. auto 10.
    + intros (i & step & child & Hseq & Hway & Hnth & Hnamed & Hx & Hd
              & He & Hat).
      exists (i, step). split; [apply indexed_In, Hseq | ].
      cbn [fst snd]. apply step_tweens_In. split; [exact Hway | ].
      exists child. auto 10.
Qed.

End FoldingAnimation.

(** At progress 0.2 of style rsc the overlay is at index 0 and shows the
    entry bottom; at index 3, past the three entries, it shows Complete. *)
Example overlay_rsc_fifth :
  Box3D.overlay_step (lit "rsc") 0.2 = Some 0%float
  /\ Box3D.currentInstruction (Box3D.AssemblyInstructions (lit "rsc") 0)
     = lit "bottom"
  /\ Box3D.shown_text (Box3D.AssemblyInstructions (lit "rsc") 0)
     = lit "BOTTOM"
  /\ Box3D.currentInstruction (Box3D.AssemblyInstructions (lit "rsc") 3)
     = lit "Complete".
Proof. repeat split; vm_compute; reflexivity. Qed.

(** A group of three children, two of them named for the step bottom: at
    progress 0.2 of style rsc the timeline gets a tween for each of the
    two, and none for the third. *)
Example animateFolding_rsc_fifth :
  let group :=
    [ {| Box3D.userData_name := Some (lit "bottom") |};
      {| Box3D.userData_name := None |};
      {| Box3D.userData_name := Some (lit "bottom-flap-1") |} ] in
  option_map (map Box3D.target) (Box3D.animateFolding group (lit "rsc") 0.2)
  = Some [0%nat; 2%nat]
  /\ option_map (map Box3D.at_position)
       (Box3D.animateFolding group (lit "rsc") 0.2)
     = Some [0; 0]%float.
Proof. split; vm_compute; reflexivity. Qed.

(* ===================================================================== *)
(** * Part III: further properties *)
(* ===================================================================== *)

(** ** lib/security.ts: the validators *)

Section RegexShapes.
Import Regex.

Lemma matches_eps (s : jsstring) : matches Eps s <-> s = [].
Proof. split; [intros H; inversion H; reflexivity | intros ->; constructor]. Qed.

Lemma matches_chr (cls : char16 -> bool) (s : jsstring) :
  matches (Chr cls) s <-> exists c, s = [c] /\ cls c = true.
Proof.
  split.
  - intros H. inversion H; subst. eauto.
  - intros (c & -> & Hc). constructor. exact Hc.
Qed.

Lemma matches_cat (r1 r2 : regex) (s : jsstring) :
  matches (Cat r1 r2) s
  <-> exists s1 s2, s = s1 ++ s2 /\ matches r1 s1 /\ matches r2 s2.
Proof.
  split; [apply matches_cat_inv | ].
  intros (s1 & s2 & -> & H1 & H2). constructor; assumption.
Qed.

Lemma matches_chr_cat (cls : char16 -> bool) (r : regex) (s : jsstring) :
  matches (Cat (Chr cls) r) s
  <-> exists c rest, s = c :: rest /\ cls c = true /\ matches r rest.
Proof.
  rewrite matches_cat. split.
  - intros (s1 & s2 & -> & H1 & H2). apply matches_chr in H1 as (c & -> & Hc).
    exists c, s2. auto.
  - intros (c & rest & -> & Hc & Hr). exists [c], rest.
    split; [reflexivity | ]. split; [apply matches_chr; eauto | exact Hr].
Qed.

Lemma matches_opt (r : regex) (s : jsstring) :
  matches (Opt r) s <-> s = [] \/ matches r s.
Proof.
  unfold Opt. split.
  - intros H. apply matches_alt_inv in H as [H | H];
      [left; apply matches_eps, H | right; exact H].
  - intros [-> | H]; [apply m_alt_l; constructor | apply m_alt_r, H].
Qed.

(** Exactly [n] characters of a class. *)
Lemma matches_rep_chr (cls : char16 -> bool) (n : nat) (s : jsstring) :
  matches (Rep n (Chr cls)) s
  <-> List.length s = n /\ forallb cls s = true.
Proof.
  revert s. induction n as [| n IH]; intros s; cbn [Rep].
  - rewrite matches_eps. split.
    + intros ->. split; reflexivity.
    + intros [Hlen _]. destruct s; [reflexivity | discriminate].
  - rewrite matches_chr_cat. split.
    + intros (c & rest & -> & Hc & Hr). apply IH in Hr as [Hlen Hall].
      cbn. rewrite Hc, Hall, Hlen. split; reflexivity.
    + intros [Hlen Hall]. destruct s as [| c rest]; [discriminate | ].
      cbn in Hlen, Hall. apply andb_true_iff in Hall as [Hc Hall].
      exists c, rest. split; [reflexivity | ]. split; [exact Hc | ].
      apply IH. split; [lia | exact Hall].
Qed.

(** At most [n] characters of a class. *)
Lemma matches_upto_chr (cls : char16 -> bool) (n : nat) (s : jsstring) :
  matches (UpTo n (Chr cls)) s
  <-> (List.length s <= n)%nat /\ forallb cls s = true.
Proof.
  revert s. induction n as [| n IH]; intros s; cbn [UpTo].
  - rewrite matches_eps. split.
    + intros ->. split; [cbn; lia | reflexivity].
    + intros [Hlen _]. destruct s; [reflexivity | cbn in Hlen; lia].
  - rewrite matches_opt, matches_chr_cat. split.
    + intros [-> | (c & rest & -> & Hc & Hr)]; [split; [cbn; lia | reflexivity] | ].
      apply IH in Hr as [Hlen Hall]. cbn. rewrite Hc, Hall. split; [lia | reflexivity].
    + intros [Hlen Hall]. destruct s as [| c rest]; [left; reflexivity | right].
      cbn in Hlen, Hall. apply andb_true_iff in Hall as [Hc Hall].
      exists c, rest. split; [reflexivity | ]. split; [exact Hc | ].
      apply IH. split; [lia | exact Hall].
Qed.

(** Between [lo] and [hi] characters of a class. *)
Lemma matches_between_chr (cls : char16 -> bool) (lo hi : nat) (s : jsstring) :
  (lo <= hi)%nat ->
  matches (Between lo hi (Chr cls)) s
  <-> (lo <= List.length s <= hi)%nat /\ forallb cls s = true.
Proof.
  intros Hle. unfold Between. rewrite matches_cat. split.
  - intros (s1 & s2 & -> & H1 & H2).
    apply matches_rep_chr in H1 as [Hl1 Ha1].
    apply matches_upto_chr in H2 as [Hl2 Ha2].
    rewrite length_app, forallb_app, Ha1, Ha2. split; [lia | reflexivity].
  - intros [Hlen Hall]. exists (firstn lo s), (skipn lo s).
    split; [symmetry; apply firstn_skipn | ].
    rewrite <- (firstn_skipn lo s), forallb_app in Hall.
    apply andb_true_iff in Hall as [Ha1 Ha2]. split.
    + apply matches_rep_chr. split; [apply firstn_length_le; lia | exact Ha1].
    + apply matches_upto_chr. split; [rewrite length_skipn; lia | exact Ha2].
Qed.

(** Any number of characters of a class. *)
Lemma matches_star_chr (cls : char16 -> bool) (s : jsstring) :
  matches (Star (Chr cls)) s <-> forallb cls s = true.
Proof.
  split.
  - intros H. remember (Star (Chr cls)) as r eqn:Hr.
    induction H as [ | | | | | | r0 s1 s2 H1 _ H2 IH2]; try discriminate.
    + reflexivity.
    + injection Hr as ->. apply matches_chr in H1 as (c & -> & Hc).
      cbn. rewrite Hc. apply IH2. reflexivity.
  - induction s as [| c s IH]; intros Hall; [constructor | ].
    cbn in Hall. apply andb_true_iff in Hall as [Hc Hall].
    apply (m_star_cons (Chr cls) [c] s); [constructor; exact Hc | apply IH, Hall].
Qed.

(** One or more characters of a class. *)
Lemma matches_plus_chr (cls : char16 -> bool) (s : jsstring) :
  matches (Plus (Chr cls)) s <-> s <> [] /\ forallb cls s = true.
Proof.
  unfold Plus. rewrite matches_chr_cat. split.
  - intros (c & rest & -> & Hc & Hr). apply matches_star_chr in Hr.
    split; [discriminate | ]. cbn. rewrite Hc, Hr. reflexivity.
  - intros [Hne Hall]. destruct s as [| c rest]; [congruence | ].
    cbn in Hall. apply andb_true_iff in Hall as [Hc Hall].
    exists c, rest. split; [reflexivity | ]. split; [exact Hc | ].
    apply matches_star_chr, Hall.
Qed.

End RegexShapes.

Section ValidatorFacts.
Import Regex Validators.
Local Open Scope N_scope.

Lemma remove_class_filter (cls : char16 -> bool) (s : jsstring) :
  remove_class cls s = List.filter (fun c => negb (cls c)) s.
Proof.
  unfold remove_class. induction s as [| c s IH]; [reflexivity | ].
  cbn [replace_class_g List.filter]. rewrite IH. destruct (cls c); reflexivity.
Qed.

Lemma filter_forallb {A} (f : A -> bool) (l : list A) :
  forallb f (List.filter f l) = true.
Proof.
  induction l as [| a l IH]; [reflexivity | ].
  cbn [List.filter]. destruct (f a) eqn:Hf; [ | exact IH].
  cbn [forallb]. rewrite Hf, IH. reflexivity.
Qed.

(** X5.  [isValidPinCode] accepts exactly the strings of six digits whose
    first digit is not 0. *)
Theorem isValidPinCode_shape (pin : jsstring) :
  isValidPinCode pin = true
  <-> List.length pin = 6%nat
      /\ forallb is_digit pin = true
      /\ hd 48 pin <> 48.
Proof.
  unfold isValidPinCode, Checkout.pincodeRegex.
  rewrite test_matches, matches_chr_cat. split.
  - intros (d & rest & -> & Hd & Hrest).
    apply matches_rep_chr in Hrest as [Hlen Hall].
    apply in_range_spec in Hd.
    cbn [List.length forallb hd]. rewrite Hlen, Hall.
    unfold is_digit. rewrite (proj2 (in_range_spec 48 57 d)) by lia.
    repeat split. lia.
  - intros (Hlen & Hall & Hhd). destruct pin as [| d rest]; [discriminate | ].
    cbn [forallb hd List.length] in *. apply andb_true_iff in Hall as [Hd Hall].
    apply in_range_spec in Hd.
    exists d, rest. split; [reflexivity | ]. split.
    + apply in_range_spec. lia.
    + apply matches_rep_chr. split; [lia | exact Hall].
Qed.

(** The shape of the phone pattern: an optional plus, a digit from 1 to 9,
    then 1 to 14 digits. *)
Lemma phoneRegex_shape (s : jsstring) :
  matches Checkout.phoneRegex s
  <-> exists sign d rest,
        s = sign ++ d :: rest
        /\ (sign = [] \/ sign = [c_plus])
        /\ is_digit19 d = true
        /\ (1 <= List.length rest <= 14)%nat
        /\ forallb is_digit rest = true.
Proof.
  unfold Checkout.phoneRegex. rewrite matches_cat. split.
  - intros (s1 & s2 & -> & H1 & H2).
    apply matches_chr_cat in H2 as (d & rest & -> & Hd & Hrest).
    apply matches_between_chr in Hrest as [Hlen Hall]; [ | lia].
    exists s1, d, rest. split; [reflexivity | ].
    split; [ | auto].
    apply matches_opt in H1 as [-> | H1]; [left; reflexivity | right].
    apply matches_chr in H1 as (c & -> & Hc). apply N.eqb_eq in Hc. subst c.
    reflexivity.
  - intros (sign & d & rest & -> & Hsign & Hd & Hlen & Hall).
    exists sign, (d :: rest). split; [reflexivity | ]. split.
    + apply matches_opt. destruct Hsign as [-> | ->]; [left; reflexivity | right].
      apply matches_chr. exists c_plus. split; [reflexivity | apply N.eqb_refl].
    + apply matches_chr_cat. exists d, rest. split; [reflexivity | ].
      split; [exact Hd | ]. apply matches_between_chr; [lia | auto].
Qed.

(** X6.  The phone check of the checkout form looks at the digits of the
    field only: the field is accepted exactly when it holds between 2 and
    15 digits and the first of them is not 0, whatever else it holds. *)
Theorem checkout_phone_rule (phone : jsstring) :
  test Checkout.phoneRegex (Checkout.strip_non_digits phone) = true
  <-> (2 <= List.length (Stated.digits_only phone) <= 15)%nat
      /\ hd 48 (Stated.digits_only phone) <> 48.
Proof.
  rewrite strip_non_digits_filter, test_matches, phoneRegex_shape.
  pose proof (filter_forallb is_digit phone) as Hdigits.
  fold (Stated.digits_only phone) in Hdigits.
  destruct (Stated.digits_only phone) as [| d0 ds] eqn:Hds.
  - split.
    + intros (sign & d & rest & Heq & _). destruct sign; discriminate Heq.
    + cbn. lia.
  - cbn [forallb] in Hdigits. apply andb_true_iff in Hdigits as [Hd0 Hrest].
    apply in_range_spec in Hd0. cbn [hd List.length]. split.
    + intros (sign & d & rest & Heq & Hsign & Hd & Hlen & Hall).
      destruct Hsign as [-> | ->].
      * cbn [app] in Heq. injection Heq as -> ->.
        apply in_range_spec in Hd. split; lia.
      * cbn [app] in Heq. injection Heq as -> _. unfold c_plus in Hd0. lia.
    + intros [Hlen Hne]. exists [], d0, ds. split; [reflexivity | ].
      split; [left; reflexivity | ]. split; [apply in_range_spec; lia | ].
      split; [lia | exact Hrest].
Qed.

(** X7.  [isValidInternationalPhone] drops whitespace, dashes and
    parentheses, and accepts what is left exactly when it is an optional
    plus sign, a digit from 1 to 9 and then 1 to 14 digits. *)
Theorem isValidInternationalPhone_shape (phone : jsstring) :
  isValidInternationalPhone phone = true
  <-> exists sign d rest,
        List.filter (fun c => negb (phone_separator c)) phone
        = sign ++ d :: rest
        /\ (sign = [] \/ sign = [c_plus])
        /\ (49 <= d <= 57)
        /\ (1 <= List.length rest <= 14)%nat
        /\ forallb is_digit rest = true.
Proof.
  unfold isValidInternationalPhone.
  rewrite test_matches, phoneRegex_shape, remove_class_filter.
  split; intros (sign & d & rest & Heq & Hsign & Hd & Hrest);
    exists sign, d, rest; (split; [exact Heq | ]); (split; [exact Hsign | ]);
    (split; [apply in_range_spec, Hd | exact Hrest]).
Qed.

Definition email_part (s : jsstring) : Prop :=
  s <> [] /\ forallb Checkout.not_space_at s = true.

(** X8.  [isValidEmail] accepts exactly the strings of at most 254 code
    units of the form local@domain.tail, where the three parts are not
    empty and hold neither whitespace nor an at sign. *)
Theorem isValidEmail_shape (email : jsstring) :
  isValidEmail email = true
  <-> (List.length email <= 254)%nat
      /\ exists loc dom tail,
           email = loc ++ [c_at] ++ dom ++ [c_dot] ++ tail
           /\ email_part loc /\ email_part dom /\ email_part tail.
Proof.
  unfold isValidEmail, Checkout.emailRegex, email_part.
  rewrite andb_true_iff, Nat.leb_le, test_matches.
  rewrite matches_cat. split.
  - intros [(loc & s1 & -> & Hloc & H1) Hlen]. split; [exact Hlen | ].
    apply matches_chr_cat in H1 as (c & s2 & -> & Hc & H2).
    apply N.eqb_eq in Hc. subst c.
    apply matches_cat in H2 as (dom & s3 & -> & Hdom & H3).
    apply matches_chr_cat in H3 as (c & tail & -> & Hc & Htail).
    apply N.eqb_eq in Hc. subst c.
    apply matches_plus_chr in Hloc, Hdom, Htail.
    exists loc, dom, tail. auto.
  - intros [Hlen (loc & dom & tail & -> & Hloc & Hdom & Htail)].
    split; [ | exact Hlen].
    exists loc, ([c_at] ++ dom ++ [c_dot] ++ tail).
    split; [reflexivity | ]. split; [apply matches_plus_chr, Hloc | ].
    apply matches_chr_cat. exists c_at, (dom ++ [c_dot] ++ tail).
    split; [reflexivity | ]. split; [apply N.eqb_refl | ].
    apply matches_cat. exists dom, ([c_dot] ++ tail).
    split; [reflexivity | ]. split; [apply matches_plus_chr, Hdom | ].
    apply matches_chr_cat. exists c_dot, tail.
    split; [reflexivity | ]. split; [apply N.eqb_refl | ].
    apply matches_plus_chr, Htail.
Qed.


(** X9.  [isValidIndianPhone] drops whitespace and accepts what is left
    exactly when it is ten digits of which the first is 6 to 9, alone or
    after +91 or +91 and a dash. *)
Theorem isValidIndianPhone_shape (phone : jsstring) :
  isValidIndianPhone phone = true
  <-> exists prefix d rest,
        List.filter (fun c => negb (is_space c)) phone = prefix ++ d :: rest
        /\ (prefix = [] \/ prefix = lit "+91" \/ prefix = lit "+91-")
        /\ (54 <= d <= 57)
        /\ List.length rest = 9%nat
        /\ forallb is_digit rest = true.
Proof.
  unfold isValidIndianPhone, indianPhoneRegex.
  rewrite test_matches, remove_class_filter, matches_cat.
  pose proof (filter_forallb (fun c => negb (is_space c)) phone) as Hclean.
  split.
  - intros (pre & s2 & Heq & Hpre & H2).
    apply matches_chr_cat in H2 as (d & rest & -> & Hd & Hrest).
    apply matches_rep_chr in Hrest as [Hlen Hall]. apply in_range_spec in Hd.
    exists pre, d, rest. split; [exact Heq | ]. split; [ | auto].
    apply matches_opt in Hpre as [-> | Hpre]; [left; reflexivity | right].
    apply matches_chr_cat in Hpre as (c1 & t1 & -> & Hc1 & Hpre).
    apply matches_chr_cat in Hpre as (c2 & t2 & -> & Hc2 & Hpre).
    apply matches_chr_cat in Hpre as (c3 & t3 & -> & Hc3 & Hpre).
    apply N.eqb_eq in Hc1, Hc2, Hc3. subst c1 c2 c3.
    apply matches_opt in Hpre as [-> | Hpre]; [left; reflexivity | right].
    apply matches_chr in Hpre as (c & -> & Hc).
    rewrite Heq in Hclean. cbn [app forallb] in Hclean.
    repeat (apply andb_true_iff in Hclean as [? Hclean]).
    unfold dash_or_space in Hc. apply orb_true_iff in Hc as [Hc | Hc].
    + apply N.eqb_eq in Hc. subst c. reflexivity.
    + match goal with H : negb (is_space c) = true |- _ => rewrite Hc in H end.
      discriminate.
  - intros (pre & d & rest & Heq & Hpre & Hd & Hlen & Hall).
    exists pre, (d :: rest). split; [exact Heq | ]. split.
    + apply matches_opt.
      destruct Hpre as [-> | [-> | ->]]; [left; reflexivity | right | right].
      * apply matches_chr_cat. exists c_plus, [57; 49].
        split; [reflexivity | ]. split; [reflexivity | ].
        apply matches_chr_cat. exists 57, [49].
        split; [reflexivity | ]. split; [reflexivity | ].
        apply matches_chr_cat. exists 49, [].
        split; [reflexivity | ]. split; [reflexivity | ].
        apply matches_opt. left. reflexivity.
      * apply matches_chr_cat. exists c_plus, [57; 49; c_minus].
        split; [reflexivity | ]. split; [reflexivity | ].
        apply matches_chr_cat. exists 57, [49; c_minus].
        split; [reflexivity | ]. split; [reflexivity | ].
        apply matches_chr_cat. exists 49, [c_minus].
        split; [reflexivity | ]. split; [reflexivity | ].
        apply matches_opt. right. apply matches_chr. exists c_minus.
        split; reflexivity.
    + apply matches_chr_cat. exists d, rest. split; [reflexivity | ].
      split; [apply in_range_spec, Hd | ].
      apply matches_rep_chr. auto.
Qed.

(** What [toUpperCase] does to a code unit below 128. *)
Definition ascii_upper (c : char16) : char16 :=
  if is_lower c then c - 32 else c.

(** X18.  On a string of ASCII characters, where [toUpperCase] raises the
    letters a-z and leaves the rest, [isValidGST] accepts exactly the
    strings that, once upper-cased, are two digits, five letters, four
    digits, a letter, a letter or a digit other than 0, the letter Z, and
    a letter or a digit: fifteen characters, in either case. *)
Theorem isValidGST_shape (toUpperCase : jsstring -> jsstring)
    (gst : jsstring) :
  (forall s, Forall (fun c => c < 128) s ->
             toUpperCase s = map ascii_upper s) ->
  Forall (fun c => c < 128) gst ->
  isValidGST toUpperCase gst = true
  <-> exists state pan num l e k,
        map ascii_upper gst = state ++ pan ++ num ++ [l; e; 90; k]
        /\ (List.length state = 2%nat /\ forallb is_digit state = true)
        /\ (List.length pan = 5%nat /\ forallb is_upper pan = true)
        /\ (List.length num = 4%nat /\ forallb is_digit num = true)
        /\ is_upper l = true
        /\ digit19_or_upper e = true
        /\ digit_or_upper k = true.
Proof.
  intros Hupper Hascii. unfold isValidGST, gstRegex.
  rewrite (Hupper gst Hascii), test_matches.
  generalize (map ascii_upper gst). intros u. cbn [Rep]. split.
  - intros H.
    apply matches_cat in H as (state & r1 & -> & Hstate & H).
    apply matches_cat in H as (pan & r2 & -> & Hpan & H).
    apply matches_cat in H as (num & r3 & -> & Hnum & H).
    apply matches_cat in H as (sl & r4 & -> & Hl & H).
    apply matches_cat in H as (se & r5 & -> & He & H).
    apply matches_chr_cat in H as (z & sk & -> & Hz & Hk).
    apply N.eqb_eq in Hz. subst z.
    apply (matches_rep_chr _ 2) in Hstate.
    apply (matches_rep_chr _ 5) in Hpan.
    apply (matches_rep_chr _ 4) in Hnum.
    apply (matches_rep_chr _ 1) in Hl as [Hllen Hl].
    apply (matches_rep_chr _ 1) in He as [Helen He].
    apply (matches_rep_chr _ 1) in Hk as [Hklen Hk].
    destruct sl as [| l [| ? ?]]; try discriminate Hllen.
    destruct se as [| e [| ? ?]]; try discriminate Helen.
    destruct sk as [| k [| ? ?]]; try discriminate Hklen.
    cbn [forallb] in Hl, He, Hk. rewrite andb_true_r in Hl, He, Hk.
    exists state, pan, num, l, e, k. auto 10.
  - intros (state & pan & num & l & e & k & -> & Hstate & Hpan & Hnum
            & Hl & He & Hk).
    apply matches_cat. exists state, (pan ++ num ++ [l; e; 90; k]).
    split; [reflexivity | ].
    split; [apply (matches_rep_chr _ 2), Hstate | ].
    apply matches_cat. exists pan, (num ++ [l; e; 90; k]).
    split; [reflexivity | ].
    split; [apply (matches_rep_chr _ 5), Hpan | ].
    apply matches_cat. exists num, [l; e; 90; k].
    split; [reflexivity | ].
    split; [apply (matches_rep_chr _ 4), Hnum | ].
    apply matches_cat. exists [l], [e; 90; k]. split; [reflexivity | ].
    split; [apply (matches_rep_chr _ 1); cbn; rewrite Hl; auto | ].
    apply matches_cat. exists [e], [90; k]. split; [reflexivity | ].
    split; [apply (matches_rep_chr _ 1); cbn; rewrite He; auto | ].
    apply matches_chr_cat. exists 90, [k]. split; [reflexivity | ].
    split; [reflexivity | ].
    apply (matches_rep_chr _ 1); cbn; rewrite Hk; auto.
Qed.

End ValidatorFacts.

Lemma isValidGST_shape_witness :
  Validators.isValidGST (map ascii_upper) (lit "27aapfu0939f1zv") = true
  <-> exists state pan num l e k,
        map ascii_upper (lit "27aapfu0939f1zv")
        = state ++ pan ++ num ++ [l; e; 90%N; k]
        /\ (List.length state = 2%nat /\ forallb is_digit state = true)
        /\ (List.length pan = 5%nat /\ forallb is_upper pan = true)
        /\ (List.length num = 4%nat /\ forallb is_digit num = true)
        /\ is_upper l = true
        /\ Validators.digit19_or_upper e = true
        /\ Validators.digit_or_upper k = true.
Proof.
  apply (isValidGST_shape (map ascii_upper) (lit "27aapfu0939f1zv")).
  - intros s _. reflexivity.
  - repeat constructor.
Defined.

(** A GSTIN in lower case is accepted. *)
Example isValidGST_lower_case :
  Validators.isValidGST (map ascii_upper) (lit "27aapfu0939f1zv") = true
  /\ Validators.isValidGST (map ascii_upper) (lit "27AAPFU0939F1Z") = false.
Proof. split; vm_compute; reflexivity. Qed.

(** ** validatePassword: what a verdict implies *)

Section PasswordMore.
Import Security Stated.

Lemma validatePassword_errors (password : jsstring) :
  List.length (errors (validatePassword password))
  = (point (negb (8 <=? List.length password))
     + point (negb (test_class is_upper password))
     + point (negb (test_class is_lower password))
     + point (negb (test_class is_digit password))
     + point (negb (test_class is_special password)))%nat.
Proof.
  unfold validatePassword, validatePassword_with, check_length, check_class,
    passwordPolicy.
  cbn [minLength requireUppercase requireLowercase requireNumber
       requireSpecialChar].
  destruct (Nat.ltb_spec (List.length password) 8) as [H8 | H8];
    destruct (Nat.leb_spec 8 (List.length password)) as [H8' | H8'];
    try lia;
    destruct (test_class is_upper password),
             (test_class is_lower password),
             (test_class is_digit password),
             (test_class is_special password);
    reflexivity.
Qed.

(** X10.  A password that [validatePassword] accepts scores at least 5, so
    it is rated strong or very-strong; the rating very-strong is given
    exactly to passwords of 16 or more characters with all four character
    classes; and the result lists one error per rule that is not met. *)
Theorem validatePassword_verdicts (password : jsstring) :
  let r := validatePassword password in
  (isValid r = true ->
     5 <= score r /\ (strength r = strong \/ strength r = very_strong))
  /\ (strength r = very_strong <->
        16 <= List.length password
        /\ test_class is_upper password = true
        /\ test_class is_lower password = true
        /\ test_class is_digit password = true
        /\ test_class is_special password = true)
  /\ (isValid r = true <-> errors r = [])
  /\ List.length (errors r)
     = (point (negb (8 <=? List.length password))
        + point (negb (test_class is_upper password))
        + point (negb (test_class is_lower password))
        + point (negb (test_class is_digit password))
        + point (negb (test_class is_special password)))%nat.
Proof.
  intros r.
  destruct (validatePassword_tests password) as (Hvalid & Hscore & Hstrength).
  fold r in Hvalid, Hscore, Hstrength.
  destruct (strength_of_bands (score r)) as (Hw & Hm & Hs & Hv).
  rewrite <- Hstrength in Hw, Hm, Hs, Hv.
  unfold length_points in Hscore.
  split; [ | split; [ | split]].
  - rewrite Hvalid, !andb_true_iff, Nat.leb_le.
    intros ((((H8 & Hu) & Hl) & Hd) & Hsp).
    rewrite Hu, Hl, Hd, Hsp in Hscore.
    rewrite (proj2 (Nat.leb_le 8 _) H8) in Hscore. cbn [point] in Hscore.
    assert (H5 : 5 <= score r)
      by (destruct (12 <=? _), (16 <=? _); cbn in Hscore; lia).
    split; [exact H5 | ].
    destruct (Nat.le_gt_cases (score r) 6);
      [left; apply Hs; lia | right; apply Hv; lia].
  - rewrite Hv, Hscore.
    destruct (Nat.leb_spec 8 (List.length password)),
             (Nat.leb_spec 12 (List.length password)),
             (Nat.leb_spec 16 (List.length password)),
             (test_class is_upper password),
             (test_class is_lower password),
             (test_class is_digit password),
             (test_class is_special password);
      cbn [point]; split; intros Hx; try lia;
      try (destruct Hx as (? & ? & ? & ? & ?); try discriminate; lia);
      repeat split; lia.
  - unfold r, validatePassword, validatePassword_with.
    destruct (check_class _ _ _ _ _) as [errs sc]. cbn [isValid errors].
    destruct errs; split; intros H; first [reflexivity | discriminate].
  - apply validatePassword_errors.
Qed.

End PasswordMore.

(** ** checkRateLimit: what a call leaves alone, and what it answers *)

Section RateLimitMore.
Import Security Stated.

(** X11.  A call of [checkRateLimit] for one identifier leaves the entry
    of every other identifier as it was, and a refused call leaves the
    whole store as it was. *)
Theorem checkRateLimit_frame (maxRequests windowMs : float) (now : Z)
    (id other : jsstring) (store : RateLimitStore) :
  let '(r, store') := checkRateLimit id maxRequests windowMs now store in
  (other <> id -> store' !! other = store !! other)
  /\ (allowed r = false -> store' = store).
Proof.
  pose proof (fun H => checkRateLimit_other maxRequests windowMs id other now store H)
    as Hother.
  unfold checkRateLimit in *.
  destruct (store !! id) as [e | ]; cbn [snd] in *.
  - destruct (windowMs <? of_Z (now - firstRequest e))%float;
      cbn [snd allowed] in *;
      [split; [intros H; apply Hother; congruence | discriminate] | ].
    destruct (maxRequests <=? of_Z (count e))%float; cbn [snd allowed] in *.
    + split; reflexivity.
    + split; [intros H; apply Hother; congruence | discriminate].
  - split; [intros H; apply Hother; congruence | discriminate].
Qed.

(** X12.  Whatever the store and the two parameters, what a call of
    [checkRateLimit] answers agrees with what it leaves in the store: the
    identifier has an entry afterwards, and the reset time is the first
    request of that entry plus [windowMs]; a granted call reports
    [maxRequests] less the count of the entry and stamps the entry with
    the time of the call; a refused call reports 0, and a call is refused
    only when the entry was there before, not more than [windowMs] old,
    with a count that had reached [maxRequests]. *)
Theorem checkRateLimit_answer (maxRequests windowMs : float) (now : Z)
    (id : jsstring) (store : RateLimitStore) :
  let '(r, store') := checkRateLimit id maxRequests windowMs now store in
  exists e,
    store' !! id = Some e
    /\ resetTime r = (of_Z (firstRequest e) + windowMs)%float
    /\ (allowed r = true ->
          remaining r = (maxRequests - of_Z (count e))%float
          /\ lastRequest e = now)
    /\ (allowed r = false ->
          remaining r = 0%float
          /\ store !! id = Some e
          /\ more_than_window_after windowMs (firstRequest e) now = false
          /\ (maxRequests <=? of_Z (count e))%float = true).
Proof.
  unfold checkRateLimit, more_than_window_after.
  destruct (store !! id) as [e0 | ] eqn:He0.
  - destruct (windowMs <? of_Z (now - firstRequest e0))%float eqn:Hlate.
    + eexists. rewrite lookup_insert_eq. split; [reflexivity | ].
      cbn. repeat split; discriminate.
    + destruct (maxRequests <=? of_Z (count e0))%float eqn:Hfull.
      * exists e0. split; [exact He0 | ]. cbn.
        repeat split; auto; discriminate.
      * eexists. rewrite lookup_insert_eq. split; [reflexivity | ].
        cbn. repeat split; discriminate.
  - eexists. rewrite lookup_insert_eq. split; [reflexivity | ].
    cbn. repeat split; discriminate.
Qed.

End RateLimitMore.

(** ** sanitizeHtml: more *)

Section SanitizeMore.
Import Security Stated.

Lemma escape_char_table (c : char16) :
  (html_special c = false /\ escape_char c = [c])
  \/ In (c, escape_char c) htmlEntities.
Proof.
  unfold escape_char.
  destruct (N.eqb_spec c c_amp) as [-> | Hamp]; [right; cbn; tauto | ].
  destruct (N.eqb_spec c c_lt) as [-> | Hlt]; [right; cbn; tauto | ].
  destruct (N.eqb_spec c c_gt) as [-> | Hgt]; [right; cbn; tauto | ].
  destruct (N.eqb_spec c c_dquote) as [-> | Hdq]; [right; cbn; tauto | ].
  destruct (N.eqb_spec c c_squote) as [-> | Hsq]; [right; cbn; tauto | ].
  destruct (N.eqb_spec c c_slash) as [-> | Hsl]; [right; cbn; tauto | ].
  left. split; [ | reflexivity].
  unfold html_special, in_class; simpl.
  rewrite !(proj2 (N.eqb_neq c _)) by assumption.
  reflexivity.
Qed.

Ltac entity_cases H :=
  unfold htmlEntities in H; cbn [In] in H;
  repeat (destruct H as [H | H]; [injection H as <- H; try rewrite <- H | ]);
  try contradiction.

Lemma escape_char_inj (c1 c2 : char16) (out1 out2 : jsstring) :
  escape_char c1 ++ out1 = escape_char c2 ++ out2 -> c1 = c2 /\ out1 = out2.
Proof.
  intros Heq.
  destruct (escape_char_table c1) as [[Hp1 E1] | H1];
    destruct (escape_char_table c2) as [[Hp2 E2] | H2].
  - rewrite E1, E2 in Heq. injection Heq as -> ->. auto.
  - rewrite E1 in Heq. exfalso.
    assert (Hhead : exists t, escape_char c2 = c_amp :: t).
    { clear Heq. entity_cases H2; eexists; reflexivity. }
    destruct Hhead as [t Ht]. rewrite Ht in Heq. injection Heq as -> _.
    discriminate Hp1.
  - rewrite E2 in Heq. exfalso.
    assert (Hhead : exists t, escape_char c1 = c_amp :: t).
    { clear Heq. entity_cases H1; eexists; reflexivity. }
    destruct Hhead as [t Ht]. rewrite Ht in Heq. injection Heq as <- _.
    discriminate Hp2.
  - revert Heq.
    entity_cases H1; entity_cases H2; vm_compute lit; cbn [app];
      intros Heq; try discriminate Heq;
      (split; [reflexivity | ]); injection Heq; auto.
Qed.

(** X13.  [sanitizeHtml] loses nothing: two different inputs never give
    the same output. *)
Theorem sanitizeHtml_injective (s1 s2 : jsstring) :
  sanitizeHtml s1 = sanitizeHtml s2 -> s1 = s2.
Proof.
  rewrite !sanitizeHtml_escaped. unfold escaped.
  revert s2. induction s1 as [| c1 s1 IH]; intros [| c2 s2] Heq.
  - reflexivity.
  - exfalso. cbn [flat_map] in Heq.
    destruct (escape_char_table c2) as [[_ E] | H];
      [rewrite E in Heq; discriminate | ].
    revert Heq. entity_cases H; vm_compute lit; discriminate.
  - exfalso. cbn [flat_map] in Heq.
    destruct (escape_char_table c1) as [[_ E] | H];
      [rewrite E in Heq; discriminate | ].
    revert Heq. entity_cases H; vm_compute lit; discriminate.
  - cbn [flat_map] in Heq. apply escape_char_inj in Heq as [-> Heq].
    f_equal. apply IH, Heq.
Qed.

Lemma escape_char_length (c : char16) :
  (html_special c = false /\ List.length (escape_char c) = 1)
  \/ (html_special c = true /\ 4 <= List.length (escape_char c)).
Proof.
  destruct (escape_char_table c) as [[Hp E] | H].
  - left. rewrite E. auto.
  - right. entity_cases H; split; first [reflexivity | vm_compute; lia].
Qed.

(** X14.  [sanitizeHtml] never shortens its input; it returns the input
    unchanged exactly when the input holds none of the six characters. *)
Theorem sanitizeHtml_unchanged (input : jsstring) :
  List.length input <= List.length (sanitizeHtml input)
  /\ (sanitizeHtml input = input
      <-> forallb (fun c => negb (html_special c)) input = true).
Proof.
  rewrite sanitizeHtml_escaped. unfold escaped.
  assert (Hlen : List.length input <= List.length (flat_map escape_char input)
                 /\ (List.length (flat_map escape_char input) = List.length input
                     -> forallb (fun c => negb (html_special c)) input = true)).
  { induction input as [| c s [IHle IHeq]]; [split; [cbn; lia | reflexivity] | ].
    cbn [flat_map forallb List.length]. rewrite length_app.
    destruct (escape_char_length c) as [[Hp Hl] | [Hp Hl]]; rewrite Hp.
    - split; [lia | ]. intros H. apply IHeq. lia.
    - split; [lia | ]. intros H. lia. }
  destruct Hlen as [Hle Heq]. split; [exact Hle | ]. split.
  - intros H. apply Heq. rewrite H. reflexivity.
  - clear Hle Heq. induction input as [| c s IH]; [reflexivity | ].
    cbn [forallb flat_map]. intros H. apply andb_true_iff in H as [Hc Hs].
    apply negb_true_iff in Hc.
    destruct (escape_char_table c) as [[_ E] | Hin].
    + rewrite E, (IH Hs). reflexivity.
    + exfalso. revert Hc.
      entity_cases Hin; intros Hc; vm_compute in Hc; discriminate Hc.
Qed.

End SanitizeMore.

Lemma sanitizeHtml_injective_witness :
  Security.sanitizeHtml (lit "<b>") = Security.sanitizeHtml (lit "<b>")
  /\ lit "<b>" = lit "<b>".
Proof.
  split; [reflexivity | ].
  apply (sanitizeHtml_injective (lit "<b>") (lit "<b>")). reflexivity.
Defined.

(** ** lib/security.ts: login attempts *)

Section LoginFacts.
Import Security Login.
Local Open Scope Z_scope.

Variable JSON_parse : jsstring -> option LoginData.
Variable JSON_stringify : LoginData -> jsstring.

(** What the two built-ins are relied on for: an object written by
    [JSON.stringify] is read back by [JSON.parse], and its text is not
    empty. *)
Hypothesis parse_stringify :
  forall data, JSON_parse (JSON_stringify data) = Some data.
Hypothesis stringify_not_empty :
  forall data, JSON_stringify data <> [].

Lemma stored_data (b : Browser) (k : jsstring) (data : LoginData) :
  localStorage (set_local k (JSON_stringify data) b) !! k
  = Some (JSON_stringify data).
Proof. cbn. apply lookup_insert_eq. Qed.

Lemma falsy_stringify (data : LoginData) :
  falsy (JSON_stringify data) = false.
Proof using stringify_not_empty.
  pose proof (stringify_not_empty data).
  destruct (JSON_stringify data); [congruence | reflexivity].
Qed.

Lemma set_local_twice (k v w : jsstring) (b : Browser) :
  set_local k w (set_local k v b) = set_local k w b.
Proof. unfold set_local. cbn. rewrite insert_insert_eq. reflexivity. Qed.

(** A failure recorded over a stored object bumps that object. *)
Lemma recordFailedLogin_stored (identifier : jsstring) (t : Readings)
    (b : Browser) (data : LoginData) :
  recordFailedLogin JSON_parse JSON_stringify identifier t
    (Some (set_local (storageKey identifier) (JSON_stringify data) b))
  = Some (Some (set_local (storageKey identifier)
                  (JSON_stringify (bump t data)) b)).
Proof using parse_stringify stringify_not_empty.
  unfold recordFailedLogin.
  rewrite stored_data, falsy_stringify, parse_stringify, set_local_twice.
  reflexivity.
Qed.

Lemma recordFailedLogins_stored (identifier : jsstring) (ts : list Readings) :
  forall (b : Browser) (data : LoginData),
    recordFailedLogins JSON_parse JSON_stringify identifier ts
      (Some (set_local (storageKey identifier) (JSON_stringify data) b))
    = Some (Some (set_local (storageKey identifier)
                    (JSON_stringify (fold_left (fun d t => bump t d) ts data))
                    b)).
Proof using parse_stringify stringify_not_empty.
  induction ts as [| t ts IH]; intros b data; [reflexivity | ].
  cbn [recordFailedLogins fold_left].
  rewrite recordFailedLogin_stored. apply IH.
Qed.

(** The object after a run of failures. *)
Lemma bumps (ts : list Readings) (t : Readings) (data : LoginData) :
  lockedUntil data = None -> 0 <= attempts data ->
  let n := attempts data + Z.of_nat (List.length (ts ++ [t])) in
  fold_left (fun d t => bump t d) (ts ++ [t]) data
  = {| attempts := n;
       lastAttempt := t_last t;
       lockedUntil :=
         if maxLoginAttempts <=? n then Some (t_lock t + lockoutDuration)
         else None |}.
Proof.
  intros Hnone Hpos. cbv zeta. rewrite fold_left_app. cbn [fold_left].
  assert (Hfold :
    attempts (fold_left (fun d t => bump t d) ts data)
    = attempts data + Z.of_nat (List.length ts)
    /\ (attempts data + Z.of_nat (List.length ts) < maxLoginAttempts ->
        lockedUntil (fold_left (fun d t => bump t d) ts data) = None)).
  { induction ts as [| t' ts IH] using rev_ind.
    - cbn. split; [lia | auto].
    - rewrite fold_left_app, length_app. cbn [fold_left List.length].
      destruct IH as [IHa IHl].
      set (d := fold_left _ ts data) in *.
      unfold bump. cbn [attempts lockedUntil].
      rewrite IHa. split; [lia | ]. intros Hlt.
      destruct (Z.leb_spec maxLoginAttempts
                  (attempts data + Z.of_nat (List.length ts) + 1)); [lia | ].
      apply IHl. lia. }
  destruct Hfold as [Ha Hl].
  set (d := fold_left _ ts data) in *.
  unfold bump. rewrite Ha, length_app.
  cbn [List.length].
  replace (attempts data + Z.of_nat (List.length ts + 1))
    with (attempts data + Z.of_nat (List.length ts) + 1) by lia.
  f_equal.
  destruct (Z.leb_spec maxLoginAttempts
              (attempts data + Z.of_nat (List.length ts) + 1));
    [reflexivity | ].
  apply Hl. lia.
Qed.

(** The answer of [checkLoginAttempts] over a stored object. *)
Lemma checkLoginAttempts_stored (identifier : jsstring) (now1 now2 now3 : Z)
    (b : Browser) (data : LoginData) :
  let env := Some (set_local (storageKey identifier) (JSON_stringify data) b) in
  checkLoginAttempts JSON_parse identifier now1 now2 now3 env
  = if truthy (lockedUntil data) && (now1 <? or_zero (lockedUntil data)) then
      Some ({| allowed := false; attemptsRemaining := 0;
               lockoutUntil := lockedUntil data |}, env)
    else if truthy (lockedUntil data)
            && (or_zero (lockedUntil data) <=? now2) then
      Some (unrestricted, Some (remove_local (storageKey identifier) b))
    else if lockoutDuration <? now3 - lastAttempt data then
      Some (unrestricted, Some (remove_local (storageKey identifier) b))
    else
      Some ({| allowed := attempts data <? maxLoginAttempts;
               attemptsRemaining := Z.max 0 (maxLoginAttempts - attempts data);
               lockoutUntil := None |}, env).
Proof using parse_stringify stringify_not_empty.
  cbv zeta. unfold checkLoginAttempts.
  rewrite stored_data, falsy_stringify, parse_stringify.
  assert (Hremove :
    remove_local (storageKey identifier)
      (set_local (storageKey identifier) (JSON_stringify data) b)
    = remove_local (storageKey identifier) b).
  { unfold remove_local, set_local. cbn. rewrite delete_insert_eq.
    reflexivity. }
  rewrite Hremove. reflexivity.
Qed.

(** X20.  Failed logins recorded one after the other for an identifier
    that has no record yet, whatever the time between them: after fewer
    than five, a check made up to 15 minutes after the last one is allowed
    and reports five minus their number as remaining; after five or more,
    every check made before 15 minutes have passed since the last one is
    refused, with no attempt remaining; and a check made after that time
    is allowed with five attempts, and deletes the record. *)
Theorem failed_logins_lock_out (identifier : jsstring) (b : Browser)
    (ts : list Readings) (t : Readings) (now1 now2 now3 : Z) :
  localStorage b !! storageKey identifier = None ->
  let n := Z.of_nat (List.length (ts ++ [t])) in
  let until := t_lock t + lockoutDuration in
  exists b',
    recordFailedLogins JSON_parse JSON_stringify identifier (ts ++ [t])
      (Some b) = Some (Some b')
    /\ (n < 5 -> now3 - t_last t <= lockoutDuration ->
          checkLoginAttempts JSON_parse identifier now1 now2 now3 (Some b')
          = Some ({| allowed := true; attemptsRemaining := 5 - n;
                     lockoutUntil := None |}, Some b'))
    /\ (5 <= n -> until <> 0 -> now1 < until ->
          checkLoginAttempts JSON_parse identifier now1 now2 now3 (Some b')
          = Some ({| allowed := false; attemptsRemaining := 0;
                     lockoutUntil := Some until |}, Some b'))
    /\ (5 <= n -> until <> 0 -> until <= now1 -> now1 <= now2 ->
          checkLoginAttempts JSON_parse identifier now1 now2 now3 (Some b')
          = Some (unrestricted,
                  Some (remove_local (storageKey identifier) b))).
Proof using parse_stringify stringify_not_empty.
  intros Hnone n until.
  set (fresh := {| attempts := 0; lastAttempt := 0; lockedUntil := None |}).
  set (data := {| attempts := n; lastAttempt := t_last t;
                  lockedUntil := if maxLoginAttempts <=? n
                                 then Some until else None |}).
  exists (set_local (storageKey identifier) (JSON_stringify data) b).
  assert (Hrun :
    recordFailedLogins JSON_parse JSON_stringify identifier (ts ++ [t])
      (Some b)
    = Some (Some (set_local (storageKey identifier)
                    (JSON_stringify data) b))).
  { destruct ts as [| t0 ts].
    - cbn [app recordFailedLogins]. unfold recordFailedLogin.
      rewrite Hnone. reflexivity.
    - cbn [app recordFailedLogins]. unfold recordFailedLogin at 1.
      rewrite Hnone. rewrite recordFailedLogins_stored.
      rewrite bumps; [ | reflexivity | cbn; lia].
      do 4 f_equal. unfold data, n, until. cbn [attempts bump].
      rewrite !length_app. cbn [List.length app].
      replace (0 + 1 + Z.of_nat (List.length ts + 1))
        with (Z.of_nat (S (List.length ts + 1))) by lia.
      reflexivity. }
  split; [exact Hrun | ].
  unfold maxLoginAttempts in *.
  split; [ | split].
  - intros Hn Hfresh. rewrite checkLoginAttempts_stored. cbv zeta.
    unfold data. cbn [attempts lastAttempt lockedUntil].
    destruct (Z.leb_spec 5 n); [lia | ]. cbn [truthy andb].
    destruct (Z.ltb_spec lockoutDuration (now3 - t_last t)); [lia | ].
    unfold maxLoginAttempts.
    destruct (Z.ltb_spec n 5); [ | lia].
    do 3 f_equal. lia.
  - intros Hn Hne Hbefore. rewrite checkLoginAttempts_stored. cbv zeta.
    unfold data. cbn [attempts lastAttempt lockedUntil].
    destruct (Z.leb_spec 5 n); [ | lia]. cbn [truthy or_zero].
    destruct (Z.eqb_spec until 0); [contradiction | ].
    destruct (Z.ltb_spec now1 until); [ | lia]. reflexivity.
  - intros Hn Hne Hafter Hclock. rewrite checkLoginAttempts_stored. cbv zeta.
    unfold data. cbn [attempts lastAttempt lockedUntil].
    destruct (Z.leb_spec 5 n); [ | lia]. cbn [truthy or_zero].
    destruct (Z.eqb_spec until 0); [contradiction | ].
    destruct (Z.ltb_spec now1 until); [lia | ].
    destruct (Z.leb_spec until now2); [ | lia]. reflexivity.
Qed.

End LoginFacts.

(** A stand-in for the two built-ins, to run the login functions with: a
    number is written as its sign and its absolute value. *)
Definition encode_Z (z : Z) : list N :=
  [if (z <? 0)%Z then 1%N else 0%N; Z.abs_N z].

Definition decode_Z (sign magnitude : N) : Z :=
  if (sign =? 1)%N then (- Z.of_N magnitude)%Z else Z.of_N magnitude.

Definition sample_stringify (data : Login.LoginData) : jsstring :=
  encode_Z (Login.attempts data) ++ encode_Z (Login.lastAttempt data)
  ++ match Login.lockedUntil data with
     | Some u => encode_Z u
     | None => []
     end.

Definition sample_parse (s : jsstring) : option Login.LoginData :=
  match s with
  | [sa; a; sl; l] =>
      Some {| Login.attempts := decode_Z sa a;
              Login.lastAttempt := decode_Z sl l;
              Login.lockedUntil := None |}
  | [sa; a; sl; l; su; u] =>
      Some {| Login.attempts := decode_Z sa a;
              Login.lastAttempt := decode_Z sl l;
              Login.lockedUntil := Some (decode_Z su u) |}
  | _ => None
  end.

Lemma decode_encode_Z (z : Z) :
  decode_Z (if (z <? 0)%Z then 1%N else 0%N) (Z.abs_N z) = z.
Proof.
  unfold decode_Z. destruct (Z.ltb_spec z 0); cbn [N.eqb Pos.eqb];
    rewrite N2Z.inj_abs_N; lia.
Qed.

Lemma sample_parse_stringify (data : Login.LoginData) :
  sample_parse (sample_stringify data) = Some data.
Proof.
  destruct data as [a l [u | ]]; unfold sample_stringify, sample_parse;
    cbn [Login.attempts Login.lastAttempt Login.lockedUntil encode_Z app];
    rewrite !decode_encode_Z; reflexivity.
Qed.

Lemma sample_stringify_not_empty (data : Login.LoginData) :
  sample_stringify data <> [].
Proof. discriminate. Qed.

Lemma failed_logins_lock_out_witness :
  let t := {| Login.t_init := 1000; Login.t_last := 1000;
              Login.t_lock := 1000 |} in
  let b := {| Security.sessionStorage := ∅; Security.localStorage := ∅ |} in
  exists b',
    Login.recordFailedLogins sample_parse sample_stringify (lit "asha")
      [t; t; t; t; t] (Some b) = Some (Some b')
    /\ Login.checkLoginAttempts sample_parse (lit "asha") 2000 2000 2000
         (Some b')
       = Some ({| Login.allowed := false; Login.attemptsRemaining := 0;
                  Login.lockoutUntil := Some 901000%Z |}, Some b').
Proof.
  intros t b.
  destruct (failed_logins_lock_out sample_parse sample_stringify
              sample_parse_stringify sample_stringify_not_empty
              (lit "asha") b [t; t; t; t] t 2000 2000 2000 eq_refl)
    as (b' & Hrun & _ & Hlocked & _).
  exists b'. split; [exact Hrun | ].
  apply Hlocked; subst t; unfold Login.lockoutDuration; cbn; lia.
Defined.

(** ** The checkout page: steps *)

Section CheckoutPageFacts.
Import Regex Checkout CheckoutPage.

(** The checks of [validateForm] on the billing address. *)
Definition billing_ok (b : BillingAddress) : bool :=
  is_none (first_missing requiredBillingFields b)
  && test emailRegex (b_email b)
  && test phoneRegex (strip_non_digits (b_phone b))
  && test pincodeRegex (b_pincode b).

Lemma validateForm_same_as_billing (st : PageState) :
  sameAsBilling (orderData st) = true ->
  fst (validateForm st)
  = billing_ok (billingAddress (orderData st))
    && agreedToTerms (orderData st).
Proof.
  intros Hsame. destruct (validateForm_tests st) as (-> & _).
  cbv zeta. rewrite Hsame. unfold billing_ok.
  rewrite !orb_true_l, !andb_true_r. reflexivity.
Qed.

Lemma validateForm_state (st : PageState) :
  exists e, snd (validateForm st) = setError e st.
Proof.
  unfold validateForm, fail.
  repeat match goal with
         | |- context [match ?x with _ => _ end] => destruct x
         end; cbn [snd]; eauto.
Qed.

(** What holds of the page after any sequence of actions. *)
Record page_invariant (items : list CartItem) (st : PageState) : Prop := {
  inv_cart : cartItems st = items;
  inv_step : activeStep st = 1 \/ activeStep st = 2 \/ activeStep st = 3;
  inv_same : sameAsBilling (orderData st) = true;
  inv_shipping :
    shippingAddress (orderData st) = shippingAddress initial_orderData;
  inv_billing :
    2 <= activeStep st -> billing_ok (billingAddress (orderData st)) = true
}.

Lemma initial_page_invariant (items : list CartItem) (err : option string) :
  page_invariant items (initial_page items err).
Proof.
  split; cbn; auto. lia.
Qed.

Lemma dispatch_invariant (items : list CartItem) (st : PageState)
    (a : Action) :
  page_invariant items st -> page_invariant items (dispatch st a).
Proof.
  intros [Hcart Hstep Hsame Hship Hbill]. unfold dispatch.
  destruct (offered a st) eqn:Hoff; [ | split; assumption].
  unfold offered in Hoff. apply andb_true_iff in Hoff as [_ Hoff].
  destruct a; cbn [handle];
    try (apply Nat.eqb_eq in Hoff);
    try (split; cbn; try assumption; try tauto;
         intros Hge; solve [lia | apply Hbill; lia]).
  - unfold continueToPayment.
    pose proof (validateForm_same_as_billing st Hsame) as Hok.
    destruct (validateForm_state st) as [e Hst].
    destruct (validateForm st) as [ok st']. cbn [fst snd] in Hok, Hst.
    subst st'. destruct ok.
    + symmetry in Hok. apply andb_true_iff in Hok as [Hok _].
      split; cbn; try assumption; tauto.
    + split; cbn; assumption.
  - unfold handleSubmitOrder.
    destruct (validateForm_state st) as [e Hst].
    destruct (validateForm st) as [ok st']. cbn [snd] in Hst. subst st'.
    destruct ok; split; cbn; assumption.
Qed.

Lemma run_invariant (items : list CartItem) (actions : list Action)
    (st : PageState) :
  page_invariant items st -> page_invariant items (run actions st).
Proof.
  revert st. unfold run.
  induction actions as [| a actions IH]; intros st Hinv; [exact Hinv | ].
  cbn [fold_left]. apply IH, dispatch_invariant, Hinv.
Qed.

(** X17.  Whatever the user does on the checkout page, starting from the
    freshly loaded page: the step shown is 1, 2 or 3; the cart is the one
    that was loaded; the order stays shipped to the billing address, the
    shipping address being never written; and at the payment and review
    steps the billing address passes every check of [validateForm], so
    that there a click on Place Order, enabled once the terms are agreed
    to, always starts processing.  Step 1 is left only by Continue to
    Payment on a form that [validateForm] accepts, terms included. *)
Theorem checkout_steps_keep_valid_address (items : list CartItem)
    (err : option string) (actions : list Action) (a : Action) :
  let st := run actions (initial_page items err) in
  cartItems st = items
  /\ (activeStep st = 1 \/ activeStep st = 2 \/ activeStep st = 3)
  /\ sameAsBilling (orderData st) = true
  /\ shippingAddress (orderData st) = shippingAddress initial_orderData
  /\ (2 <= activeStep st ->
        billing_ok (billingAddress (orderData st)) = true
        /\ (offered PlaceOrder st = true ->
              fst (handleSubmitOrder st) = true))
  /\ (activeStep st = 1 -> activeStep (dispatch st a) <> 1 ->
        a = ContinueToPayment
        /\ fst (validateForm st) = true
        /\ agreedToTerms (orderData st) = true
        /\ activeStep (dispatch st a) = 2).
Proof.
  intros st.
  destruct (run_invariant items actions (initial_page items err)
              (initial_page_invariant items err))
    as [Hcart Hstep Hsame Hship Hbill].
  fold st in Hcart, Hstep, Hsame, Hship, Hbill.
  split; [exact Hcart | ]. split; [exact Hstep | ].
  split; [exact Hsame | ]. split; [exact Hship | ]. split.
  - intros Hge. split; [apply Hbill, Hge | ].
    unfold offered. intros Hoff.
    apply andb_true_iff in Hoff as [_ Hterms].
    unfold handleSubmitOrder.
    pose proof (validateForm_same_as_billing st Hsame) as Hok.
    rewrite (Hbill Hge), Hterms in Hok.
    destruct (validateForm st) as [ok st']. cbn [fst] in Hok. subst ok.
    reflexivity.
  - intros Hone Hleft. unfold dispatch in *.
    destruct (offered a st) eqn:Hoff; [ | contradiction].
    unfold offered in Hoff. apply andb_true_iff in Hoff as [_ Hoff].
    rewrite Hone in Hoff.
    destruct a; cbn [handle] in *; try discriminate Hoff;
      try (cbn in Hleft; contradiction).
    + unfold continueToPayment in *.
      pose proof (validateForm_same_as_billing st Hsame) as Hok.
      destruct (validateForm_state st) as [e Hst].
      destruct (validateForm st) as [ok st']. cbn [fst snd] in Hok, Hst.
      subst st'. destruct ok; [ | cbn in Hleft; contradiction].
      symmetry in Hok. apply andb_true_iff in Hok as [_ Hterms].
      repeat split; [exact Hterms].
    + exfalso. apply Hleft. unfold handleSubmitOrder.
      destruct (validateForm_state st) as [e Hst].
      destruct (validateForm st) as [ok st']. cbn [snd] in Hst. subst st'.
      destruct ok; exact Hone.
Qed.

End CheckoutPageFacts.

(** A visit that fills in the form, ticks the terms box and goes on to the
    review step. *)
Example checkout_visit :
  let item := {| Checkout.price := Checkout.PriceNumber 100%float;
                 Checkout.quantity := 1%float |} in
  let st :=
    CheckoutPage.run
      [ CheckoutPage.Input CheckoutPage.firstName (lit "Asha");
        CheckoutPage.Input CheckoutPage.lastName (lit "Rao");
        CheckoutPage.Input CheckoutPage.address (lit "12 MG Road");
        CheckoutPage.Input CheckoutPage.city (lit "Pune");
        CheckoutPage.Input CheckoutPage.state (lit "Maharashtra");
        CheckoutPage.Input CheckoutPage.pincode (lit "411001");
        CheckoutPage.Input CheckoutPage.phone (lit "+91 98765 43210");
        CheckoutPage.Input CheckoutPage.email (lit "asha@example.com");
        CheckoutPage.ContinueToPayment;
        CheckoutPage.Terms true;
        CheckoutPage.ContinueToPayment;
        CheckoutPage.SelectPayment CheckoutPage.online;
        CheckoutPage.ReviewOrder ]
      (CheckoutPage.initial_page [item] None) in
  Checkout.activeStep st = 3
  /\ Checkout.error st = None
  /\ fst (CheckoutPage.handleSubmitOrder st) = true.
Proof. vm_compute. repeat split. Qed.

(** ** The bulk discount *)

Section BulkDiscountFacts.
Import Config.
Local Open Scope float_scope.

Lemma SFleb_trans (x y z : spec_float) :
  SFleb x y = true -> SFleb y z = true -> SFleb x z = true.
Proof.
  unfold SFleb, SFcompare.
  destruct x as [sx | sx | | sx mx ex], y as [sy | sy | | sy my ey],
    z as [sz | sz | | sz mz ez];
    try destruct sx; try destruct sy; try destruct sz;
    try reflexivity; try discriminate;
    intros Hxy Hyz;
    destruct (Z.compare_spec ex ey), (Z.compare_spec ey ez),
      (Z.compare_spec ex ez); try lia; try reflexivity; try discriminate;
    subst;
    change (PosDef.Pos.compare_cont Eq) with Pos.compare in *;
    destruct (Pos.compare_spec mx my), (Pos.compare_spec my mz),
      (Pos.compare_spec mx mz); try lia; try reflexivity; try discriminate.
Qed.

Lemma leb_trans (x y z : float) :
  (x <=? y) = true -> (y <=? z) = true -> (x <=? z) = true.
Proof. rewrite !FloatAxioms.leb_spec. apply SFleb_trans. Qed.

Lemma getBulkDiscount_cases (quantity : float) :
  getBulkDiscount quantity
  = if 10000 <=? quantity then 20
    else if 5000 <=? quantity then 15
    else if 1000 <=? quantity then 10
    else if 500 <=? quantity then 5
    else 0.
Proof.
  unfold getBulkDiscount.
  set (discounts := sort _ bulkDiscounts). vm_compute in discounts.
  subst discounts. cbn [List.find minQuantity discount].
  destruct (10000 <=? quantity); [reflexivity | ].
  destruct (5000 <=? quantity); [reflexivity | ].
  destruct (1000 <=? quantity); [reflexivity | ].
  destruct (500 <=? quantity); reflexivity.
Qed.

(** X19.  [getBulkDiscount] gives 20 from 10000 units on, 15 from 5000,
    10 from 1000, 5 from 500 and 0 below (and for NaN); and a larger
    quantity never gets a smaller discount. *)
Theorem getBulkDiscount_tiers (quantity : float) :
  getBulkDiscount quantity
  = (if 10000 <=? quantity then 20
     else if 5000 <=? quantity then 15
     else if 1000 <=? quantity then 10
     else if 500 <=? quantity then 5
     else 0)
  /\ forall more : float,
       (quantity <=? more) = true ->
       (getBulkDiscount quantity <=? getBulkDiscount more) = true.
Proof.
  split; [apply getBulkDiscount_cases | ].
  intros more Hle. rewrite !getBulkDiscount_cases.
  destruct (10000 <=? quantity) eqn:H4.
  { rewrite (leb_trans _ _ _ H4 Hle). reflexivity. }
  destruct (5000 <=? quantity) eqn:H3.
  { rewrite (leb_trans _ _ _ H3 Hle).
    destruct (10000 <=? more); reflexivity. }
  destruct (1000 <=? quantity) eqn:H2.
  { rewrite (leb_trans _ _ _ H2 Hle).
    destruct (10000 <=? more), (5000 <=? more); reflexivity. }
  destruct (500 <=? quantity) eqn:H1.
  { rewrite (leb_trans _ _ _ H1 Hle).
    destruct (10000 <=? more), (5000 <=? more), (1000 <=? more);
      reflexivity. }
  destruct (10000 <=? more), (5000 <=? more), (1000 <=? more),
    (500 <=? more); reflexivity.
Qed.

End BulkDiscountFacts.

Example getBulkDiscount_samples :
  Config.getBulkDiscount 499 = 0%float
  /\ Config.getBulkDiscount 500 = 5%float
  /\ Config.getBulkDiscount 7500 = 15%float
  /\ Config.getBulkDiscount nan = 0%float.
Proof. repeat split; reflexivity. Qed.

(** ** Checkout: a price that does not parse *)

Section NaNTotals.
Import Checkout.
Local Open Scope float_scope.

Lemma add_nan_l (x y : float) : is_nan x = true -> is_nan (x + y) = true.
Proof.
  rewrite !is_nan_spec, FloatAxioms.add_spec. intros ->. reflexivity.
Qed.

Lemma add_nan_r (x y : float) : is_nan y = true -> is_nan (x + y) = true.
Proof.
  rewrite !is_nan_spec, FloatAxioms.add_spec. intros ->.
  destruct (Prim2SF x); reflexivity.
Qed.

Lemma mul_nan_l (x y : float) : is_nan x = true -> is_nan (x * y) = true.
Proof.
  rewrite !is_nan_spec, FloatAxioms.mul_spec. intros ->. reflexivity.
Qed.

Lemma ltb_nan_r (x y : float) : is_nan y = true -> (x <? y) = false.
Proof.
  rewrite is_nan_spec, FloatAxioms.ltb_spec. intros ->.
  destruct (Prim2SF x); reflexivity.
Qed.

Variable parseFloat : jsstring -> float.

Lemma total_stays_nan (items : list CartItem) (acc : float) :
  is_nan acc = true ->
  is_nan (fold_left
            (fun total item => total + item_price parseFloat item * quantity item)
            items acc) = true.
Proof.
  revert acc. induction items as [| item rest IH]; intros acc Hacc;
    [exact Hacc | ].
  cbn [fold_left]. apply IH, add_nan_l, Hacc.
Qed.

Lemma total_nan (items : list CartItem) (item : CartItem) (acc : float) :
  In item items ->
  is_nan (item_price parseFloat item) = true ->
  is_nan (fold_left
            (fun total item => total + item_price parseFloat item * quantity item)
            items acc) = true.
Proof.
  revert acc. induction items as [| first rest IH]; intros acc Hin Hnan;
    [contradiction | ].
  cbn [fold_left]. destruct Hin as [-> | Hin].
  - apply total_stays_nan, add_nan_r, mul_nan_l, Hnan.
  - apply IH; assumption.
Qed.

(** X15.  If the price of one cart item is not a number (a string that
    [parseFloat] cannot read, or NaN itself), then whatever the other items
    are, the subtotal is NaN, the GST is NaN, delivery is charged at 200,
    and the final total is NaN. *)
Theorem unparsable_price_poisons_total (items : list CartItem)
    (item : CartItem) :
  In item items ->
  is_nan (item_price parseFloat item) = true ->
  is_nan (calculateTotal parseFloat items) = true
  /\ is_nan (gst parseFloat items) = true
  /\ deliveryCharges parseFloat items = 200
  /\ is_nan (finalTotal parseFloat items) = true.
Proof.
  intros Hin Hnan.
  assert (Htotal : is_nan (calculateTotal parseFloat items) = true)
    by (apply (total_nan items item); assumption).
  split; [exact Htotal | ]. split; [ | split].
  - apply mul_nan_l, Htotal.
  - unfold deliveryCharges. rewrite (ltb_nan_r _ _ Htotal). reflexivity.
  - unfold finalTotal. apply add_nan_l, add_nan_l, Htotal.
Qed.

End NaNTotals.

Lemma unparsable_price_poisons_total_witness :
  let bad := {| Checkout.price := Checkout.PriceString (lit "n/a");
                Checkout.quantity := 1%float |} in
  let items := [ {| Checkout.price := Checkout.PriceNumber 100%float;
                    Checkout.quantity := 2%float |}; bad ] in
  is_nan (Checkout.calculateTotal (fun _ => nan) items) = true
  /\ is_nan (Checkout.gst (fun _ => nan) items) = true
  /\ Checkout.deliveryCharges (fun _ => nan) items = 200%float
  /\ is_nan (Checkout.finalTotal (fun _ => nan) items) = true.
Proof.
  intros bad items.
  apply (unparsable_price_poisons_total (fun _ => nan) items bad).
  - right. left. reflexivity.
  - reflexivity.
Defined.

(** ** secureStorage: the value survives the round trip *)

Section SecureRoundTrip.
Import Security.
Local Open Scope N_scope.

Ltac Zify.zify_post_hook ::= Z.to_euclidean_division_equations.

Lemma hex_upper_pair (b : N) :
  b < 256 ->
  is_hex (hex_upper (b / 16)) = true
  /\ is_hex (hex_upper (b mod 16)) = true
  /\ hex_upper (b / 16) <> 117
  /\ hex_upper (b / 16) <> c_percent
  /\ hex_upper (b mod 16) <> c_percent
  /\ hex2 (hex_upper (b / 16)) (hex_upper (b mod 16)) = b.
Proof.
  intros Hb.
  pose proof (below_forallb
    (fun b => is_hex (hex_upper (b / 16)) && is_hex (hex_upper (b mod 16))
              && negb (hex_upper (b / 16) =? 117)
              && negb (hex_upper (b / 16) =? c_percent)
              && negb (hex_upper (b mod 16) =? c_percent)
              && (hex2 (hex_upper (b / 16)) (hex_upper (b mod 16)) =? b))
    256 ltac:(vm_compute; reflexivity) b Hb) as H.
  repeat (apply andb_true_iff in H as [H ?]).
  repeat match goal with
         | H : negb _ = true |- _ => apply negb_true_iff, N.eqb_neq in H
         | H : (_ =? _) = true |- _ => apply N.eqb_eq in H
         end.
  auto 10.
Qed.

Lemma unescape_cons (c : char16) (rest : jsstring) :
  unescape (c :: rest)
  = let two :=
      match rest with
      | h1 :: h2 :: rest2 =>
          if (c =? c_percent) && is_hex h1 && is_hex h2
          then hex2 h1 h2 :: unescape rest2
          else c :: unescape rest
      | _ => c :: unescape rest
      end in
    match rest with
    | u :: h1 :: h2 :: h3 :: h4 :: rest4 =>
        if (c =? c_percent) && (u =? 117)
           && is_hex h1 && is_hex h2 && is_hex h3 && is_hex h4
        then (256 * hex2 h1 h2 + hex2 h3 h4) :: unescape rest4
        else two
    | _ => two
    end.
Proof. reflexivity. Qed.

Lemma unescape_copy (c : char16) (rest : jsstring) :
  c <> c_percent -> unescape (c :: rest) = c :: unescape rest.
Proof.
  intros Hc. rewrite unescape_cons. cbv zeta.
  rewrite (proj2 (N.eqb_neq c c_percent) Hc). cbn [andb].
  destruct rest as [| a [| b [| c' [| d [| e rest]]]]]; reflexivity.
Qed.

Lemma unescape_pct (b : N) (rest : jsstring) :
  b < 256 -> unescape (pct_byte b ++ rest) = b :: unescape rest.
Proof.
  intros Hb.
  destruct (hex_upper_pair b Hb) as (H1 & H2 & Hu & _ & _ & Hval).
  unfold pct_byte. cbn [app]. rewrite unescape_cons. cbv zeta.
  rewrite H1, H2, Hval, (proj2 (N.eqb_neq _ 117) Hu).
  change (c_percent =? c_percent) with true. cbn [andb].
  destruct rest as [| a [| b' [| c' rest]]]; reflexivity.
Qed.

Lemma unescape_pct_bytes (bytes : list N) (rest : jsstring) :
  Forall (fun b => b < 256) bytes ->
  unescape (flat_map pct_byte bytes ++ rest) = bytes ++ unescape rest.
Proof.
  induction 1 as [| b bytes Hb _ IH]; [reflexivity | ].
  cbn [flat_map]. rewrite <- app_assoc, (unescape_pct b _ Hb), IH. reflexivity.
Qed.


(** A code point that UTF-8 can carry: below 0x110000 and no surrogate. *)
Definition scalar (cp : N) : Prop := cp < 1114112 /\ ~ (55296 <= cp <= 57343).

(** A well-formed string: code units below 0x10000, no surrogate alone. *)
Definition well_formed (s : jsstring) : Prop :=
  Forall (fun c => c < 65536) s /\ is_Some (code_points s).

Lemma two_step_ind (P : jsstring -> Prop) :
  P [] -> (forall a, P [a]) ->
  (forall a b l, P l -> P (b :: l) -> P (a :: b :: l)) ->
  forall l, P l.
Proof.
  intros Hnil Hone Hstep l.
  enough (H : P l /\ forall a, P (a :: l)) by apply H.
  induction l as [| b l [IH1 IH2]]; [split; [exact Hnil | exact Hone] | ].
  split; [apply IH2 | ]. intros a. apply Hstep; [exact IH1 | apply IH2].
Qed.

Lemma surrogate_ranges (c : char16) :
  (is_high_surrogate c = true <-> 55296 <= c <= 56319)
  /\ (is_low_surrogate c = true <-> 56320 <= c <= 57343).
Proof. split; apply in_range_spec. Qed.

Lemma not_surrogate (a : char16) :
  is_high_surrogate a = false -> is_low_surrogate a = false ->
  ~ (55296 <= a <= 57343).
Proof.
  unfold is_high_surrogate, is_low_surrogate, in_range.
  rewrite !andb_false_iff, !N.leb_gt. lia.
Qed.

Lemma code_points_cons (c : char16) (rest : jsstring) :
  code_points (c :: rest)
  = if is_high_surrogate c then
      match rest with
      | d :: rest' =>
          if is_low_surrogate d then
            option_map (cons (65536 + (c - 55296) * 1024 + (d - 56320)))
              (code_points rest')
          else None
      | [] => None
      end
    else if is_low_surrogate c then None
    else option_map (cons c) (code_points rest).
Proof. reflexivity. Qed.

Lemma code_points_sound (s : jsstring) :
  forall cps,
    Forall (fun c => c < 65536) s -> code_points s = Some cps ->
    Forall scalar cps /\ flat_map utf16_encode cps = s.
Proof.
  induction s as [ | a | a b l IHl IHbl] using two_step_ind; intros cps Hs Hcps.
  - injection Hcps as <-. split; [constructor | reflexivity].
  - apply Forall_cons in Hs as [Ha _]. cbn [code_points] in Hcps.
    destruct (is_high_surrogate a) eqn:Hha; [discriminate | ].
    destruct (is_low_surrogate a) eqn:Hla; [discriminate | ].
    injection Hcps as <-.
    pose proof (not_surrogate a Hha Hla) as Hns.
    split.
    + constructor; [unfold scalar; lia | constructor].
    + cbn [flat_map]. unfold utf16_encode.
      rewrite (proj2 (N.ltb_lt _ _) Ha). reflexivity.
  - apply Forall_cons in Hs as [Ha Hbl].
    pose proof Hbl as Hbl'. apply Forall_cons in Hbl' as [Hb Hl].
    rewrite code_points_cons in Hcps.
    destruct (is_high_surrogate a) eqn:Hha.
    + destruct (is_low_surrogate b) eqn:Hlb; [ | discriminate].
      destruct (code_points l) as [cps' | ] eqn:Hl';
        cbn [option_map] in Hcps; [ | discriminate].
      injection Hcps as <-.
      destruct (IHl cps' Hl eq_refl) as [Hall Heq].
      apply surrogate_ranges in Hha. apply surrogate_ranges in Hlb.
      split.
      * constructor; [ | exact Hall]. unfold scalar. lia.
      * cbn [flat_map]. rewrite Heq. unfold utf16_encode.
        replace (65536 + (a - 55296) * 1024 + (b - 56320) <? 65536) with false
          by (symmetry; apply N.ltb_ge; lia).
        cbn [app]. f_equal; [lia | f_equal; lia].
    + destruct (is_low_surrogate a) eqn:Hla; [discriminate | ].
      destruct (code_points (b :: l)) as [cps' | ] eqn:Hbl';
        cbn [option_map] in Hcps; [ | discriminate].
      injection Hcps as <-.
      destruct (IHbl cps' Hbl eq_refl) as [Hall Heq].
      pose proof (not_surrogate a Hha Hla) as Hns.
      split.
      * constructor; [ | exact Hall]. unfold scalar. lia.
      * cbn [flat_map]. rewrite Heq. unfold utf16_encode.
        rewrite (proj2 (N.ltb_lt _ _) Ha). reflexivity.
Qed.


Lemma uri_unreserved_ascii (c : char16) :
  uri_unreserved c = true -> c < 128 /\ c <> c_percent.
Proof.
  unfold uri_unreserved, is_upper, is_lower, is_digit.
  rewrite !orb_true_iff, !in_range_spec, in_class_spec.
  intros [[[H | H] | H] | H]; try (unfold c_percent; lia).
  vm_compute lit in H.
  repeat (apply elem_of_cons in H as [-> | H]; [split; [reflexivity | discriminate] | ]).
  inversion H.
Qed.

Lemma escape_safe_ascii (c : char16) :
  escape_safe c = true -> c < 128 /\ c <> c_percent.
Proof.
  unfold escape_safe, is_upper, is_lower, is_digit.
  rewrite !orb_true_iff, !in_range_spec, in_class_spec.
  intros [[[H | H] | H] | H]; try (unfold c_percent; lia).
  vm_compute lit in H.
  repeat (apply elem_of_cons in H as [-> | H]; [split; [reflexivity | discriminate] | ]).
  inversion H.
Qed.

Lemma utf8_encode_bytes (cp : N) :
  scalar cp -> Forall (fun b => b < 256) (utf8_encode cp).
Proof.
  intros [Hmax _]. unfold utf8_encode.
  destruct (N.ltb_spec cp 128); [repeat constructor; lia | ].
  destruct (N.ltb_spec cp 2048); [repeat constructor; lia | ].
  destruct (N.ltb_spec cp 65536); repeat constructor; lia.
Qed.

Lemma utf8_encode_ascii (cp : N) : cp < 128 -> utf8_encode cp = [cp].
Proof.
  intros H. unfold utf8_encode. rewrite (proj2 (N.ltb_lt _ _) H). reflexivity.
Qed.

(** The octets of a string: the UTF-8 encoding of its code points. *)
Definition utf8 (cps : list N) : list N := flat_map utf8_encode cps.

Lemma utf8_bytes (cps : list N) :
  Forall scalar cps -> Forall (fun b => b < 256) (utf8 cps).
Proof.
  induction 1 as [| cp cps Hcp _ IH]; [constructor | ].
  unfold utf8. cbn [flat_map]. apply Forall_app. split; [ | exact IH].
  apply utf8_encode_bytes, Hcp.
Qed.

(** [unescape] undoes the escapes of [encodeURIComponent], octet by octet. *)
Lemma unescape_encoded (cps : list N) :
  Forall scalar cps ->
  unescape
    (flat_map (fun cp =>
       if uri_unreserved cp then [cp] else flat_map pct_byte (utf8_encode cp))
       cps)
  = utf8 cps.
Proof.
  induction 1 as [| cp cps Hcp _ IH]; [reflexivity | ].
  unfold utf8. cbn [flat_map].
  destruct (uri_unreserved cp) eqn:Hun.
  - apply uri_unreserved_ascii in Hun as [Hlt Hne].
    rewrite (utf8_encode_ascii cp Hlt). cbn [app].
    rewrite (unescape_copy cp _ Hne), IH. reflexivity.
  - rewrite (unescape_pct_bytes _ _ (utf8_encode_bytes cp Hcp)), IH.
    reflexivity.
Qed.

(** *** Reading the escapes of [escape] *)

Definition tok (b : N) : uri_token := if escape_safe b then Raw b else Octet b.

Lemma pct_tokens_cons (c : char16) (rest : jsstring) :
  pct_tokens (c :: rest)
  = if c =? c_percent then
      match rest with
      | h1 :: h2 :: rest2 =>
          if is_hex h1 && is_hex h2
          then option_map (cons (Octet (hex2 h1 h2))) (pct_tokens rest2)
          else None
      | _ => None
      end
    else option_map (cons (Raw c)) (pct_tokens rest).
Proof. reflexivity. Qed.

Lemma pct_tokens_pct (b : N) (rest : jsstring) :
  b < 256 ->
  pct_tokens (pct_byte b ++ rest) = option_map (cons (Octet b)) (pct_tokens rest).
Proof.
  intros Hb.
  destruct (hex_upper_pair b Hb) as (H1 & H2 & _ & _ & _ & Hval).
  unfold pct_byte. cbn [app]. rewrite pct_tokens_cons.
  change (c_percent =? c_percent) with true. cbv iota.
  rewrite H1, H2, Hval. reflexivity.
Qed.

Lemma pct_tokens_escape (bytes : list N) :
  Forall (fun b => b < 256) bytes ->
  pct_tokens (escape bytes) = Some (map tok bytes).
Proof.
  induction 1 as [| b bytes Hb _ IH]; [reflexivity | ].
  unfold escape in *. cbn [flat_map map]. unfold tok at 1.
  destruct (escape_safe b) eqn:Hsafe.
  - apply escape_safe_ascii in Hsafe as [_ Hne].
    cbn [app]. rewrite pct_tokens_cons, (proj2 (N.eqb_neq _ _) Hne), IH.
    reflexivity.
  - rewrite (proj2 (N.ltb_lt _ _) Hb), (pct_tokens_pct b _ Hb), IH.
    reflexivity.
Qed.


(** *** Decoding the octets *)

Lemma utf8_tokens_octet (b : N) (rest : list uri_token) :
  utf8_tokens (Octet b :: rest)
  = if b <? 128 then option_map (cons b) (utf8_tokens rest)
    else if in_range 192 223 b then
      match rest with
      | Octet b1 :: rest' =>
          let cp := (b - 192) * 64 + (b1 - 128) in
          if is_cont b1 && (128 <=? cp)
          then option_map (app (utf16_encode cp)) (utf8_tokens rest')
          else None
      | _ => None
      end
    else if in_range 224 239 b then
      match rest with
      | Octet b1 :: Octet b2 :: rest' =>
          let cp := (b - 224) * 4096 + (b1 - 128) * 64 + (b2 - 128) in
          if is_cont b1 && is_cont b2 && (2048 <=? cp)
             && negb (in_range 55296 57343 cp)
          then option_map (app (utf16_encode cp)) (utf8_tokens rest')
          else None
      | _ => None
      end
    else if in_range 240 247 b then
      match rest with
      | Octet b1 :: Octet b2 :: Octet b3 :: rest' =>
          let cp := (b - 240) * 262144 + (b1 - 128) * 4096
                    + (b2 - 128) * 64 + (b3 - 128) in
          if is_cont b1 && is_cont b2 && is_cont b3
             && in_range 65536 1114111 cp
          then option_map (app (utf16_encode cp)) (utf8_tokens rest')
          else None
      | _ => None
      end
    else None.
Proof. reflexivity. Qed.

Lemma tok_high (b : N) : 128 <= b -> tok b = Octet b.
Proof.
  intros Hb. unfold tok. destruct (escape_safe b) eqn:Hsafe; [ | reflexivity].
  apply escape_safe_ascii in Hsafe. lia.
Qed.

Lemma in_range_false (lo hi c : N) :
  ~ (lo <= c <= hi) -> in_range lo hi c = false.
Proof.
  intros H. destruct (in_range lo hi c) eqn:E; [ | reflexivity].
  apply in_range_spec in E. contradiction.
Qed.

Ltac decide_test :=
  match goal with
  | |- context [?a <? ?b] =>
      first [ rewrite (proj2 (N.ltb_lt a b)) by lia
            | rewrite (proj2 (N.ltb_ge a b)) by lia ]
  | |- context [?a <=? ?b] =>
      first [ rewrite (proj2 (N.leb_le a b)) by lia
            | rewrite (proj2 (N.leb_gt a b)) by lia ]
  | |- context [in_range ?lo ?hi ?c] =>
      first [ rewrite (proj2 (in_range_spec lo hi c)) by lia
            | rewrite (in_range_false lo hi c) by lia ]
  end.

(** The octets of one code point decode to its UTF-16 form. *)
Lemma utf8_tokens_code_point (cp : N) (ts : list uri_token) :
  scalar cp ->
  utf8_tokens (map tok (utf8_encode cp) ++ ts)
  = option_map (app (utf16_encode cp)) (utf8_tokens ts).
Proof.
  intros [Hmax Hsur]. unfold utf8_encode.
  destruct (N.ltb_spec cp 128) as [H1 | H1].
  - cbn [map app]. unfold utf16_encode. decide_test.
    unfold tok. destruct (escape_safe cp); [reflexivity | ].
    rewrite utf8_tokens_octet. decide_test. reflexivity.
  - destruct (N.ltb_spec cp 2048) as [H2 | H2].
    + cbn [map app]. rewrite !tok_high by lia.
      rewrite utf8_tokens_octet. cbv zeta. unfold is_cont.
      replace ((192 + cp / 64 - 192) * 64 + (128 + cp mod 64 - 128)) with cp
        by lia.
      repeat decide_test. reflexivity.
    + destruct (N.ltb_spec cp 65536) as [H3 | H3].
      * cbn [map app]. rewrite !tok_high by lia.
        rewrite utf8_tokens_octet. cbv zeta. unfold is_cont.
        replace ((224 + cp / 4096 - 224) * 4096
                 + (128 + (cp / 64) mod 64 - 128) * 64
                 + (128 + cp mod 64 - 128)) with cp by lia.
        repeat decide_test. reflexivity.
      * cbn [map app]. rewrite !tok_high by lia.
        rewrite utf8_tokens_octet. cbv zeta. unfold is_cont.
        replace ((240 + cp / 262144 - 240) * 262144
                 + (128 + (cp / 4096) mod 64 - 128) * 4096
                 + (128 + (cp / 64) mod 64 - 128) * 64
                 + (128 + cp mod 64 - 128)) with cp by lia.
        repeat decide_test. reflexivity.
Qed.

Lemma utf8_tokens_utf8 (cps : list N) :
  Forall scalar cps ->
  utf8_tokens (map tok (utf8 cps)) = Some (flat_map utf16_encode cps).
Proof.
  induction 1 as [| cp cps Hcp _ IH]; [reflexivity | ].
  unfold utf8 in *. cbn [flat_map]. rewrite map_app.
  rewrite (utf8_tokens_code_point cp _ Hcp), IH. reflexivity.
Qed.

(** [decodeURIComponent(escape(octets))] reads a string back from its
    UTF-8 octets. *)
Lemma decode_escape_utf8 (s : jsstring) (cps : list N) :
  Forall (fun c => c < 65536) s -> code_points s = Some cps ->
  decodeURIComponent (escape (utf8 cps)) = Some s.
Proof.
  intros Hs Hcps. destruct (code_points_sound s cps Hs Hcps) as [Hall Heq].
  unfold decodeURIComponent.
  rewrite (pct_tokens_escape _ (utf8_bytes cps Hall)).
  rewrite (utf8_tokens_utf8 cps Hall), Heq. reflexivity.
Qed.


(** *** Base64 *)

(** The 6-bit groups of the octets, without the padding. *)
Fixpoint b64_sextets (bytes : list N) : list N :=
  match bytes with
  | [] => []
  | [a] => [a / 4; (a mod 4) * 16]
  | [a; b] => [a / 4; (a mod 4) * 16 + b / 16; (b mod 16) * 4]
  | a :: b :: c :: rest =>
      [a / 4; (a mod 4) * 16 + b / 16; (b mod 16) * 4 + c / 64; c mod 64]
      ++ b64_sextets rest
  end.

Lemma three_step_ind (P : list N -> Prop) :
  P [] -> (forall a, P [a]) -> (forall a b, P [a; b]) ->
  (forall a b c l, P l -> P (a :: b :: c :: l)) ->
  forall l, P l.
Proof.
  intros H0 H1 H2 H3 l.
  enough (H : P l /\ (forall a, P (a :: l)) /\ (forall a b, P (a :: b :: l)))
    by apply H.
  induction l as [| c l (IH0 & IH1 & IH2)]; [auto | ].
  split; [apply IH1 | ]. split; [intros a; apply IH2 | ].
  intros a b. apply H3, IH0.
Qed.

Lemma b64_char_facts (v : N) :
  v < 64 ->
  b64_value (b64_char v) = Some v
  /\ b64_char v <> c_eq
  /\ is_ascii_whitespace (b64_char v) = false.
Proof.
  intros Hv.
  pose proof (below_forallb
    (fun v => match b64_value (b64_char v) with
              | Some w => w =? v
              | None => false
              end
              && negb (b64_char v =? c_eq)
              && negb (is_ascii_whitespace (b64_char v)))
    64 ltac:(vm_compute; reflexivity) v Hv) as H.
  apply andb_true_iff in H as [H Hws].
  apply andb_true_iff in H as [Hval Hne].
  apply negb_true_iff in Hws. apply negb_true_iff, N.eqb_neq in Hne.
  destruct (b64_value (b64_char v)) as [w | ]; [ | discriminate].
  apply N.eqb_eq in Hval. subst w. auto.
Qed.

Lemma b64_sextets_range (bytes : list N) :
  Forall (fun b => b < 256) bytes -> Forall (fun v => v < 64) (b64_sextets bytes).
Proof.
  induction bytes as [ | a | a b | a b c l IH] using three_step_ind;
    intros Hb.
  - constructor.
  - apply Forall_cons in Hb as [Ha _]. cbn [b64_sextets].
    repeat constructor; lia.
  - apply Forall_cons in Hb as [Ha Hb]. apply Forall_cons in Hb as [Hb _].
    cbn [b64_sextets]. repeat constructor; lia.
  - apply Forall_cons in Hb as [Ha Hb]. apply Forall_cons in Hb as [Hb Hc].
    apply Forall_cons in Hc as [Hc Hl].
    cbn [b64_sextets app]. repeat (constructor; [lia | ]). apply IH, Hl.
Qed.

Lemma b64_decode_sextets (bytes : list N) :
  Forall (fun b => b < 256) bytes -> b64_decode (b64_sextets bytes) = bytes.
Proof.
  induction bytes as [ | a | a b | a b c l IH] using three_step_ind;
    intros Hb.
  - reflexivity.
  - apply Forall_cons in Hb as [Ha _]. cbn [b64_sextets b64_decode].
    f_equal. lia.
  - apply Forall_cons in Hb as [Ha Hb]. apply Forall_cons in Hb as [Hb _].
    cbn [b64_sextets b64_decode]. f_equal; [lia | f_equal; lia].
  - apply Forall_cons in Hb as [Ha Hb]. apply Forall_cons in Hb as [Hb Hc].
    apply Forall_cons in Hc as [Hc Hl].
    cbn [b64_sextets app].
    change (b64_decode (?s1 :: ?s2 :: ?s3 :: ?s4 :: ?rest))
      with ([s1 * 4 + s2 / 16; (s2 mod 16) * 16 + s3 / 4; (s3 mod 4) * 64 + s4]
            ++ b64_decode rest).
    rewrite (IH Hl). cbn [app]. f_equal; [lia | f_equal; [lia | f_equal; lia]].
Qed.

Lemma sextets_chars (vs : list N) :
  Forall (fun v => v < 64) vs -> sextets (map b64_char vs) = Some vs.
Proof.
  induction 1 as [| v vs Hv _ IH]; [reflexivity | ].
  cbn [map sextets]. rewrite IH.
  destruct (b64_char_facts v Hv) as [-> _]. reflexivity.
Qed.

Lemma sextets_length (bytes : list N) :
  N.of_nat (List.length (b64_sextets bytes)) mod 4 <> 1.
Proof.
  induction bytes as [ | a | a b | a b c l IH] using three_step_ind;
    try (cbn; discriminate).
  cbn [b64_sextets app List.length]. rewrite !Nat2N.inj_succ. lia.
Qed.

Lemma b64_encode_length (bytes : list N) :
  N.of_nat (List.length (b64_encode bytes)) mod 4 = 0.
Proof.
  induction bytes as [ | a | a b | a b c l IH] using three_step_ind;
    try reflexivity.
  change (b64_encode (a :: b :: c :: l))
    with ([b64_char (a / 4); b64_char ((a mod 4) * 16 + b / 16);
           b64_char ((b mod 16) * 4 + c / 64); b64_char (c mod 64)]
          ++ b64_encode l).
  cbn [app List.length]. rewrite !Nat2N.inj_succ. lia.
Qed.

Lemma b64_encode_no_whitespace (bytes : list N) :
  Forall (fun b => b < 256) bytes ->
  List.filter (fun c => negb (is_ascii_whitespace c)) (b64_encode bytes)
  = b64_encode bytes.
Proof.
  assert (Hkeep : forall v rest, v < 64 ->
            List.filter (fun c => negb (is_ascii_whitespace c))
              (b64_char v :: rest)
            = b64_char v
              :: List.filter (fun c => negb (is_ascii_whitespace c)) rest).
  { intros v rest Hv. cbn [List.filter].
    destruct (b64_char_facts v Hv) as (_ & _ & ->). reflexivity. }
  induction bytes as [ | a | a b | a b c l IH] using three_step_ind;
    intros Hb.
  - reflexivity.
  - apply Forall_cons in Hb as [Ha _]. cbn [b64_encode].
    rewrite !Hkeep by lia. reflexivity.
  - apply Forall_cons in Hb as [Ha Hb]. apply Forall_cons in Hb as [Hb _].
    cbn [b64_encode]. rewrite !Hkeep by lia. reflexivity.
  - apply Forall_cons in Hb as [Ha Hb]. apply Forall_cons in Hb as [Hb Hc].
    apply Forall_cons in Hc as [Hc Hl].
    change (b64_encode (a :: b :: c :: l))
      with ([b64_char (a / 4); b64_char ((a mod 4) * 16 + b / 16);
             b64_char ((b mod 16) * 4 + c / 64); b64_char (c mod 64)]
            ++ b64_encode l).
    cbn [app]. rewrite !Hkeep by lia. rewrite (IH Hl). reflexivity.
Qed.

Lemma strip_padding_app (pre x : jsstring) :
  (2 <= List.length x)%nat ->
  strip_padding (pre ++ x) = pre ++ strip_padding x.
Proof.
  intros Hlen. unfold strip_padding. rewrite rev_app_distr.
  destruct (rev x) as [| p1 [| p2 r]] eqn:Hrev.
  - apply (f_equal (@List.length _)) in Hrev. rewrite length_rev in Hrev.
    cbn in Hrev. lia.
  - apply (f_equal (@List.length _)) in Hrev. rewrite length_rev in Hrev.
    cbn in Hrev. lia.
  - cbn [app]. destruct (p1 =? c_eq); [ | reflexivity].
    destruct (p2 =? c_eq).
    + rewrite rev_app_distr, rev_involutive. reflexivity.
    + change (p2 :: r ++ rev pre) with ((p2 :: r) ++ rev pre).
      rewrite rev_app_distr, rev_involutive. reflexivity.
Qed.

Lemma b64_char_not_eq (v : N) : v < 64 -> (b64_char v =? c_eq) = false.
Proof.
  intros Hv. apply N.eqb_neq. apply (b64_char_facts v Hv).
Qed.

Lemma b64_encode_long (a : N) (l : list N) :
  (2 <= List.length (b64_encode (a :: l)))%nat.
Proof.
  destruct l as [| b [| c l]]; cbn [b64_encode app List.length]; lia.
Qed.

Lemma strip_padding_encode (bytes : list N) :
  Forall (fun b => b < 256) bytes ->
  strip_padding (b64_encode bytes) = map b64_char (b64_sextets bytes).
Proof.
  induction bytes as [ | a | a b | a b c l IH] using three_step_ind;
    intros Hb.
  - reflexivity.
  - reflexivity.
  - cbn [b64_encode b64_sextets map]. unfold strip_padding. cbn [rev app].
    change (c_eq =? c_eq) with true. cbv iota.
    rewrite b64_char_not_eq by lia. reflexivity.
  - apply Forall_cons in Hb as [Ha Hb]. apply Forall_cons in Hb as [Hb Hc].
    apply Forall_cons in Hc as [Hc Hl].
    change (b64_encode (a :: b :: c :: l))
      with ([b64_char (a / 4); b64_char ((a mod 4) * 16 + b / 16);
             b64_char ((b mod 16) * 4 + c / 64); b64_char (c mod 64)]
            ++ b64_encode l).
    cbn [b64_sextets]. rewrite map_app.
    destruct l as [| d l].
    + cbn [b64_encode b64_sextets map app]. unfold strip_padding. cbn [rev app].
      rewrite b64_char_not_eq by lia. reflexivity.
    + rewrite strip_padding_app by apply b64_encode_long.
      rewrite (IH Hl). reflexivity.
Qed.

(** [atob] undoes [btoa] on octets. *)
Lemma atob_encode (bytes : list N) :
  Forall (fun b => b < 256) bytes -> atob (b64_encode bytes) = Some bytes.
Proof.
  intros Hb. unfold atob.
  rewrite (b64_encode_no_whitespace bytes Hb), (b64_encode_length bytes).
  change (0 =? 0) with true. cbv iota.
  rewrite (strip_padding_encode bytes Hb), length_map.
  rewrite (proj2 (N.eqb_neq _ _) (sextets_length bytes)).
  rewrite (sextets_chars _ (b64_sextets_range bytes Hb)).
  cbn [option_map]. rewrite (b64_decode_sextets bytes Hb). reflexivity.
Qed.

Lemma btoa_octets (bytes : list N) :
  Forall (fun b => b < 256) bytes -> btoa bytes = Some (b64_encode bytes).
Proof.
  intros Hb. unfold btoa.
  replace (forallb (fun c => c <? 256) bytes) with true; [reflexivity | ].
  symmetry. apply forallb_forall. intros c Hc.
  rewrite Forall_forall in Hb. apply N.ltb_lt, Hb, list_elem_of_In, Hc.
Qed.


(** *** The round trip *)

Lemma utf8_nonempty (cps : list N) : cps <> [] -> utf8 cps <> [].
Proof.
  destruct cps as [| cp cps]; [congruence | ]. intros _.
  unfold utf8, utf8_encode. cbn [flat_map].
  destruct (cp <? 128); [discriminate | ].
  destruct (cp <? 2048); [discriminate | ].
  destruct (cp <? 65536); discriminate.
Qed.

Lemma b64_encode_truthy (bytes : list N) :
  bytes <> [] -> falsy (b64_encode bytes) = false.
Proof.
  destruct bytes as [| a [| b [| c l]]]; [congruence | | | ]; reflexivity.
Qed.

Lemma setItem_stores (b : Browser) (key value : jsstring) (cps : list N) :
  Forall (fun c => c < 65536) value -> code_points value = Some cps ->
  secureStorage_setItem key value (Some b)
  = Some (Some (set_local (secure_key key) (b64_encode (utf8 cps)) b)).
Proof.
  intros Hunits Hcps.
  destruct (code_points_sound value cps Hunits Hcps) as [Hall _].
  unfold secureStorage_setItem, encodeURIComponent. rewrite Hcps.
  cbn [option_map]. rewrite (unescape_encoded cps Hall).
  rewrite (btoa_octets _ (utf8_bytes cps Hall)). reflexivity.
Qed.

(** X1.  In a browser, a well-formed value that is not the empty string
    is read back by [getItem] exactly as [setItem] stored it. *)
Theorem secureStorage_roundtrip (b : Browser) (key value : jsstring) :
  well_formed value -> value <> [] ->
  exists env',
    secureStorage_setItem key value (Some b) = Some env'
    /\ secureStorage_getItem key env' = Some value.
Proof.
  intros [Hunits [cps Hcps]] Hne.
  destruct (code_points_sound value cps Hunits Hcps) as [Hall Heq].
  eexists. split; [apply (setItem_stores b key value cps Hunits Hcps) | ].
  unfold secureStorage_getItem, set_local. cbn [localStorage].
  rewrite lookup_insert_eq.
  assert (Hcps_ne : cps <> []) by (intros ->; apply Hne; symmetry; exact Heq).
  rewrite (b64_encode_truthy _ (utf8_nonempty cps Hcps_ne)).
  rewrite (atob_encode _ (utf8_bytes cps Hall)).
  apply (decode_escape_utf8 value cps Hunits Hcps).
Qed.

(** X2.  [setItem] throws exactly on a value with a lone surrogate (the
    URIError of [encodeURIComponent]); [btoa] never fails on what
    [unescape] hands it. *)
Theorem secureStorage_setItem_throws (b : Browser) (key value : jsstring) :
  Forall (fun c => c < 65536) value ->
  (secureStorage_setItem key value (Some b) = None
   <-> code_points value = None).
Proof.
  intros Hunits. destruct (code_points value) as [cps | ] eqn:Hcps.
  - rewrite (setItem_stores b key value cps Hunits Hcps).
    split; discriminate.
  - unfold secureStorage_setItem, encodeURIComponent. rewrite Hcps.
    split; reflexivity.
Qed.

Lemma secure_key_inj (k k' : jsstring) : secure_key k = secure_key k' -> k = k'.
Proof. unfold secure_key. apply app_inv_head. Qed.

(** X3.  [getItem] gives null for a key that was never set and for a key
    after [removeItem]; and writing or removing one key leaves what
    [getItem] returns for every other key. *)
Theorem secureStorage_keys (b : Browser) (key other value : jsstring) :
  (localStorage b !! secure_key key = None ->
     secureStorage_getItem key (Some b) = None)
  /\ secureStorage_getItem key (secureStorage_removeItem key (Some b)) = None
  /\ (other <> key ->
      secureStorage_getItem other (secureStorage_removeItem key (Some b))
      = secureStorage_getItem other (Some b))
  /\ (other <> key ->
      forall env', secureStorage_setItem key value (Some b) = Some env' ->
      secureStorage_getItem other env' = secureStorage_getItem other (Some b)).
Proof.
  split; [ | split; [ | split]].
  - intros Hnone. unfold secureStorage_getItem. rewrite Hnone. reflexivity.
  - unfold secureStorage_getItem, secureStorage_removeItem, remove_local.
    cbn [localStorage]. rewrite lookup_delete_eq. reflexivity.
  - intros Hne.
    unfold secureStorage_getItem, secureStorage_removeItem, remove_local.
    cbn [localStorage]. rewrite lookup_delete_ne; [reflexivity | ].
    intros Heq. apply secure_key_inj in Heq. congruence.
  - intros Hne env' Hset. unfold secureStorage_setItem in Hset.
    destruct (encodeURIComponent value) as [enc | ]; [ | discriminate].
    destruct (btoa (unescape enc)) as [encoded | ]; [ | discriminate].
    injection Hset as <-.
    unfold secureStorage_getItem, set_local. cbn [localStorage].
    rewrite lookup_insert_ne; [reflexivity | ].
    intros Heq. apply secure_key_inj in Heq. congruence.
Qed.

Lemma starts_with_prefix (p s : jsstring) : starts_with p (p ++ s) = true.
Proof.
  induction p as [| c p IH]; [reflexivity | ].
  cbn [app starts_with]. rewrite N.eqb_refl. exact IH.
Qed.

(** X4.  After [clear], [getItem] gives null for every key, and the
    entries of localStorage whose key does not start with secure_ are
    untouched. *)
Theorem secureStorage_clear_all (b : Browser) (key : jsstring) :
  secureStorage_getItem key (secureStorage_clear (Some b)) = None
  /\ (forall k, starts_with (lit "secure_") k = false ->
        match secureStorage_clear (Some b) with
        | Some b' => localStorage b' !! k = localStorage b !! k
        | None => False
        end)
  /\ match secureStorage_clear (Some b) with
     | Some b' => sessionStorage b' = sessionStorage b
     | None => False
     end.
Proof.
  unfold secureStorage_clear, secureStorage_getItem. cbn [localStorage sessionStorage].
  split; [ | split; [ | reflexivity]].
  - rewrite map_lookup_filter_None_2; [reflexivity | ].
    right. intros v _. cbn [fst]. unfold secure_key.
    rewrite starts_with_prefix. discriminate.
  - intros k Hk.
    destruct (localStorage b !! k) as [v | ] eqn:Hv.
    + apply map_lookup_filter_Some. split; [exact Hv | exact Hk].
    + apply map_lookup_filter_None. left. exact Hv.
Qed.

End SecureRoundTrip.

Lemma secureStorage_roundtrip_witness :
  exists env',
    Security.secureStorage_setItem (lit "k") (lit "box") (Some {| Security.sessionStorage := ∅; Security.localStorage := ∅ |}) = Some env'
    /\ Security.secureStorage_getItem (lit "k") env' = Some (lit "box").
Proof.
  apply secureStorage_roundtrip.
  - split; [repeat constructor | eexists; reflexivity].
  - discriminate.
Defined.

Lemma secureStorage_setItem_throws_witness :
  Security.secureStorage_setItem (lit "k") [55357%N]
    (Some {| Security.sessionStorage := ∅; Security.localStorage := ∅ |})
  = None
  <-> code_points [55357%N] = None.
Proof.
  apply secureStorage_setItem_throws. repeat constructor.
Defined.

(** ** hashString *)

Section HashFacts.
Import Session.

(** The polynomial in 31 whose coefficients are the code units, the first
    one with the highest power. *)
Definition poly31 (str : jsstring) : Z :=
  fold_left (fun acc c => (acc * 31 + Z.of_N c)%Z) str 0%Z.

Definition value36 (c : char16) : N := (if c <? 58 then c - 48 else c - 87)%N.

(** The number a string of base-36 digits stands for. *)
Definition from36 (s : jsstring) : N :=
  fold_left (fun acc c => (acc * 36 + value36 c)%N) s 0%N.

Definition is_base36 (c : char16) : bool := is_digit c || is_lower c.

Ltac Zify.zify_post_hook ::= Z.to_euclidean_division_equations.

Lemma to_int32_range (z : Z) : (- 2 ^ 31 <= to_int32 z < 2 ^ 31)%Z.
Proof.
  unfold to_int32. change (2 ^ 32)%Z with 4294967296%Z.
  change (2 ^ 31)%Z with 2147483648%Z. lia.
Qed.

Lemma to_int32_mod (z : Z) : (to_int32 z mod 2 ^ 32 = z mod 2 ^ 32)%Z.
Proof.
  unfold to_int32. change (2 ^ 32)%Z with 4294967296%Z.
  change (2 ^ 31)%Z with 2147483648%Z. lia.
Qed.

Lemma to_int32_congr (z z' : Z) :
  (z mod 2 ^ 32 = z' mod 2 ^ 32)%Z -> to_int32 z = to_int32 z'.
Proof.
  unfold to_int32. change (2 ^ 32)%Z with 4294967296%Z.
  change (2 ^ 31)%Z with 2147483648%Z. lia.
Qed.

Lemma hash_step_poly (h h' : Z) (c : char16) :
  (h mod 2 ^ 32 = h' mod 2 ^ 32)%Z ->
  (hash_step h c mod 2 ^ 32 = (h' * 31 + Z.of_N c) mod 2 ^ 32)%Z.
Proof.
  intros Hh. unfold hash_step. rewrite to_int32_mod.
  pose proof (to_int32_mod (to_int32 h * 2 ^ 5)) as H1.
  pose proof (to_int32_mod h) as H2.
  change (2 ^ 32)%Z with 4294967296%Z in *. change (2 ^ 5)%Z with 32%Z in *.
  revert H1 H2.
  generalize (to_int32 (to_int32 h * 32)). generalize (to_int32 h).
  intros a b Hb Ha. lia.
Qed.

Lemma hash_fold_poly (str : jsstring) (h h' : Z) :
  (h mod 2 ^ 32 = h' mod 2 ^ 32)%Z ->
  (fold_left hash_step str h mod 2 ^ 32
   = fold_left (fun acc c => acc * 31 + Z.of_N c) str h' mod 2 ^ 32)%Z.
Proof.
  revert h h'. induction str as [| c str IH]; intros h h' Hh; [exact Hh | ].
  cbn [fold_left]. apply IH, hash_step_poly, Hh.
Qed.

Lemma hash_loop_int32 (str : jsstring) :
  to_int32 (hash_loop str) = hash_loop str.
Proof.
  unfold hash_loop.
  assert (H : forall h, to_int32 h = h ->
            to_int32 (fold_left hash_step str h) = fold_left hash_step str h).
  { induction str as [| c str IH]; intros h Hh; [exact Hh | ].
    cbn [fold_left]. apply IH. unfold hash_step.
    apply to_int32_congr, to_int32_mod. }
  apply H. reflexivity.
Qed.

Lemma hash_loop_poly (str : jsstring) :
  hash_loop str = to_int32 (poly31 str).
Proof.
  rewrite <- hash_loop_int32. apply to_int32_congr.
  apply hash_fold_poly. reflexivity.
Qed.

Lemma digit36_facts (d : N) :
  (d < 36)%N -> is_base36 (digit36 d) = true /\ value36 (digit36 d) = d.
Proof.
  intros Hd. unfold is_base36, is_digit, is_lower, in_range, digit36, value36.
  destruct (d <? 10)%N eqn:Hlt.
  - apply N.ltb_lt in Hlt.
    replace (48 + d <? 58)%N with true by (symmetry; apply N.ltb_lt; lia).
    split; [ | lia].
    apply orb_true_iff. left. apply andb_true_iff.
    split; apply N.leb_le; lia.
  - apply N.ltb_ge in Hlt.
    replace (87 + d <? 58)%N with false by (symmetry; apply N.ltb_ge; lia).
    split; [ | lia].
    apply orb_true_iff. right. apply andb_true_iff.
    split; apply N.leb_le; lia.
Qed.

Lemma from36_snoc (s : jsstring) (c : char16) :
  from36 (s ++ [c]) = (from36 s * 36 + value36 c)%N.
Proof. unfold from36. rewrite fold_left_app. reflexivity. Qed.

Lemma digits36_fuel_spec (fuel : nat) :
  forall (n : N) (acc : jsstring),
    (1 <= fuel)%nat -> (n < 2 ^ N.of_nat fuel)%N ->
    exists ds,
      digits36_fuel fuel n acc = ds ++ acc
      /\ from36 ds = n
      /\ forallb is_base36 ds = true
      /\ (1 <= List.length ds)%nat
      /\ forall k : nat, (1 <= k)%nat -> (n < 36 ^ N.of_nat k)%N ->
           (List.length ds <= k)%nat.
Proof.
  induction fuel as [| fuel IH]; intros n acc Hfuel Hn; [lia | ].
  clear Hfuel.
  - cbn [digits36_fuel].
    destruct (digit36_facts (n mod 36)) as [Hbase Hval]; [lia | ].
    destruct (n <? 36)%N eqn:Hlt.
    + apply N.ltb_lt in Hlt. exists [digit36 (n mod 36)].
      split; [reflexivity | ]. split; [ | split; [ | split]].
      * unfold from36. cbn [fold_left]. rewrite Hval. lia.
      * cbn [forallb]. rewrite Hbase. reflexivity.
      * cbn. lia.
      * intros k Hk _. cbn. lia.
    + apply N.ltb_ge in Hlt.
      destruct (IH (n / 36)%N (digit36 (n mod 36) :: acc))
        as (ds & Heq & Hfrom & Hall & Hlen & Hbound).
      { destruct fuel; [cbn in Hn; lia | lia]. }
      { rewrite Nat2N.inj_succ, N.pow_succ_r' in Hn.
        revert Hn. generalize (2 ^ N.of_nat fuel)%N. intros p Hp. lia. }
      exists (ds ++ [digit36 (n mod 36)]).
      split; [rewrite Heq, <- app_assoc; reflexivity | ].
      split; [ | split; [ | split]].
      * rewrite from36_snoc, Hfrom, Hval. lia.
      * rewrite forallb_app, Hall. cbn [forallb]. rewrite Hbase. reflexivity.
      * rewrite length_app. cbn. lia.
      * intros k Hk Hpow. rewrite length_app. cbn [List.length].
        destruct k as [| k]; [lia | ].
        destruct k as [| k]; [cbn in Hpow; lia | ].
        assert (List.length ds <= S k)%nat; [ | lia].
        apply Hbound; [lia | ].
        rewrite (Nat2N.inj_succ (S k)), N.pow_succ_r' in Hpow.
        revert Hpow. generalize (36 ^ N.of_nat (S k))%N. intros p Hp. lia.
Qed.

Lemma N_toString36_spec (n : N) :
  from36 (N_toString36 n) = n
  /\ forallb is_base36 (N_toString36 n) = true
  /\ (1 <= List.length (N_toString36 n))%nat
  /\ forall k : nat, (1 <= k)%nat -> (n < 36 ^ N.of_nat k)%N ->
       (List.length (N_toString36 n) <= k)%nat.
Proof.
  unfold N_toString36.
  destruct (digits36_fuel_spec (S (N.to_nat (N.log2 n))) n [])
    as (ds & Heq & Hrest).
  - lia.
  - rewrite Nat2N.inj_succ, N2Nat.id.
    destruct n as [| p]; [reflexivity | ].
    apply (N.log2_spec (N.pos p)). reflexivity.
  - rewrite Heq, app_nil_r. exact Hrest.
Qed.

(** X16.  [hashString] is the 32-bit polynomial hash in 31: its result is
    the absolute value, written in base 36 with the digits 0-9 and a-z, of
    the signed 32-bit value of the sum of the code units times falling
    powers of 31.  The result has between one and six characters. *)
Theorem hashString_polynomial (str : jsstring) :
  Z.of_N (from36 (hashString str)) = Z.abs (to_int32 (poly31 str))
  /\ forallb is_base36 (hashString str) = true
  /\ (1 <= List.length (hashString str) <= 6)%nat.
Proof.
  unfold hashString. rewrite hash_loop_poly.
  pose proof (to_int32_range (poly31 str)) as Hrange.
  change (2 ^ 31)%Z with 2147483648%Z in Hrange.
  destruct (N_toString36_spec (Z.to_N (Z.abs (to_int32 (poly31 str)))))
    as (Hfrom & Hall & Hlen & Hbound).
  split; [rewrite Hfrom; lia | ]. split; [exact Hall | ].
  split; [exact Hlen | ].
  apply Hbound; [lia | ].
  change (36 ^ N.of_nat 6)%N with 2176782336%N. lia.
Qed.

End HashFacts.

(** The hash of the two-letter strings Aa and BB is the same. *)
Example hashString_collision :
  Session.hashString (lit "Aa") = Session.hashString (lit "BB")
  /\ Session.hashString (lit "Aa") = lit "1mo".
Proof. split; vm_compute; reflexivity. Qed.
